(** * pinba-trade: the signal-detection engine of [src/services/strategyService.ts]

    A shallow embedding of the indicator library ([calculateRSIValue],
    [calculateStochRSI], [calculateBollingerBands]), the pattern matcher
    ([detectSignal]) and the scanner ([scanForSignals]), followed by the
    properties of the specification that concern them.

    Modelling conventions.
    - A JavaScript [number] is a [jsnum]: an exact rational, [+Infinity],
      [-Infinity] or [NaN].  Arithmetic on finite values is exact: the
      rounding of IEEE doubles and the sign of zero are not modelled.
      The fields of a candle are finite numbers.
    - The two momentum indicators are also given over the arithmetic of the
      doubles ([Rounded]), in which every operation rounds its exact result:
      the development is parametric in the rounding, and [binary64] is the
      rounding of IEEE doubles, to nearest with ties to even.
    - [Math.sqrt] is a member of the class [MathSqrt]; the development is
      parametric in it.
    - Array indices are integers ([Z]).  Reading a field of [candles[i]]
      with [i] outside the array throws a [TypeError] in JavaScript; the
      computations live in a small monad that records this failure, together
      with the trace of every position of [candles] that was read. *)

From Stdlib Require Import ZArith QArith Qabs Qminmax List Bool Lia Lqa.
From Stdlib Require Import Sorted Permutation Qround Qpower.
From Stdlib Require String.
Import ListNotations.

Local Open Scope Z_scope.
Local Open Scope Q_scope.

(* ===================================================================== *)
(** ** JavaScript numbers *)
(* ===================================================================== *)

Module JsNum.

Inductive jsnum : Type :=
| Fin (q : Q)
| PInf
| NInf
| NaN.

Definition Qlt_bool (a b : Q) : bool := negb (Qle_bool b a).

Definition is_nan (x : jsnum) : bool :=
  match x with NaN => true | _ => false end.

(** [-x] *)
Definition jsneg (x : jsnum) : jsnum :=
  match x with
  | Fin q => Fin (- q)
  | PInf => NInf
  | NInf => PInf
  | NaN => NaN
  end.

(** [x + y] *)
Definition jsadd (x y : jsnum) : jsnum :=
  match x, y with
  | NaN, _ | _, NaN => NaN
  | Fin a, Fin b => Fin (a + b)
  | PInf, NInf | NInf, PInf => NaN
  | PInf, _ | _, PInf => PInf
  | NInf, _ | _, NInf => NInf
  end.

(** [x - y] *)
Definition jssub (x y : jsnum) : jsnum := jsadd x (jsneg y).

(** The sign of a number: [Some true] for positive, [Some false] for
    negative, [None] for zero and [NaN]. *)
Definition sign (x : jsnum) : option bool :=
  match x with
  | Fin q => if Qlt_bool 0 q then Some true
             else if Qlt_bool q 0 then Some false else None
  | PInf => Some true
  | NInf => Some false
  | NaN => None
  end.

Definition inf_of_sign (s : bool) : jsnum := if s then PInf else NInf.

(** [x * y] *)
Definition jsmul (x y : jsnum) : jsnum :=
  match x, y with
  | NaN, _ | _, NaN => NaN
  | Fin a, Fin b => Fin (a * b)
  | _, _ =>
      match sign x, sign y with
      | Some s, Some t => inf_of_sign (Bool.eqb s t)
      | _, _ => NaN (* Infinity * 0 *)
      end
  end.

(** [x / y].  A zero divisor is the positive zero: every zero divisor of the
    program is a sum started at the literal [0] or a field of a candle. *)
Definition jsdiv (x y : jsnum) : jsnum :=
  match x, y with
  | NaN, _ | _, NaN => NaN
  | Fin a, Fin b =>
      if Qeq_bool b 0
      then match sign x with
           | Some s => inf_of_sign s
           | None => NaN (* 0 / 0 *)
           end
      else Fin (a / b)
  | Fin _, _ => Fin 0
  | _, Fin b => if Qlt_bool b 0 then jsneg x else x
  | _, _ => NaN (* Infinity / Infinity *)
  end.

(** Comparisons; every comparison with [NaN] is false. *)
Definition jslt (x y : jsnum) : bool :=
  match x, y with
  | NaN, _ | _, NaN => false
  | Fin a, Fin b => Qlt_bool a b
  | NInf, NInf => false
  | NInf, _ => true
  | _, PInf => match x with PInf => false | _ => true end
  | _, _ => false
  end.

(** [x === y] on numbers *)
Definition jseq (x y : jsnum) : bool :=
  match x, y with
  | Fin a, Fin b => Qeq_bool a b
  | PInf, PInf | NInf, NInf => true
  | _, _ => false
  end.

Definition jsgt (x y : jsnum) : bool := jslt y x.
Definition jsle (x y : jsnum) : bool :=
  negb (is_nan x) && negb (is_nan y) && negb (jslt y x).
Definition jsge (x y : jsnum) : bool := jsle y x.

(** [Math.min(x, y)], [Math.max(x, y)], [Math.abs(x)] *)
Definition jsmin (x y : jsnum) : jsnum :=
  match x, y with
  | NaN, _ | _, NaN => NaN
  | _, _ => if jslt y x then y else x
  end.

Definition jsmax (x y : jsnum) : jsnum :=
  match x, y with
  | NaN, _ | _, NaN => NaN
  | _, _ => if jslt x y then y else x
  end.

Definition jsabs (x : jsnum) : jsnum :=
  match x with
  | Fin q => Fin (Qabs q)
  | PInf | NInf => PInf
  | NaN => NaN
  end.

(** [Math.min(...xs)] and [Math.max(...xs)]: [Infinity] and [-Infinity] on
    no argument at all. *)
Definition Math_min (xs : list jsnum) : jsnum := fold_right jsmin PInf xs.
Definition Math_max (xs : list jsnum) : jsnum := fold_right jsmax NInf xs.

(** [Math.sqrt] on the finite non-negative numbers. *)
Class MathSqrt := math_sqrt : Q -> Q.

Definition jssqrt `{MathSqrt} (x : jsnum) : jsnum :=
  match x with
  | Fin q => if Qlt_bool q 0 then NaN else Fin (math_sqrt q)
  | PInf => PInf
  | NInf | NaN => NaN
  end.

(** [Math.pow(x, 2)] *)
Definition jssquare (x : jsnum) : jsnum := jsmul x x.

(** Equality of numbers up to the representation of the rational. *)
Definition num_eq (x y : jsnum) : Prop :=
  match x, y with
  | Fin a, Fin b => a == b
  | PInf, PInf | NInf, NInf | NaN, NaN => True
  | _, _ => False
  end.

(** A finite number within the closed interval [[lo, hi]]. *)
Definition within (lo hi : Q) (x : jsnum) : Prop :=
  match x with
  | Fin q => lo <= q /\ q <= hi
  | _ => False
  end.

(** A finite number with an integral value. *)
Definition integral (x : jsnum) : Prop :=
  match x with
  | Fin q => exists z : Z, q == inject_Z z
  | _ => False
  end.

End JsNum.
Export JsNum.

Declare Scope js_scope.
Delimit Scope js_scope with js.
Bind Scope js_scope with jsnum.
Coercion Fin : Q >-> jsnum.
Infix "+" := jsadd : js_scope.
Infix "-" := jssub : js_scope.
Infix "*" := jsmul : js_scope.
Infix "/" := jsdiv : js_scope.
Infix "<?" := jslt : js_scope.
Infix ">?" := jsgt : js_scope.
Infix "<=?" := jsle : js_scope.
Infix ">=?" := jsge : js_scope.
Infix "===" := jseq (at level 70, no associativity) : js_scope.

(* ===================================================================== *)
(** ** Reading the candle array *)
(* ===================================================================== *)

(** A computation returns a value or throws ([None]), and leaves the trace
    of the array positions it has read. *)
Definition M (A : Type) : Type := (option A * list Z)%type.

Definition ret {A} (a : A) : M A := (Some a, []).

Definition bind {A B} (m : M A) (f : A -> M B) : M B :=
  match m with
  | (Some a, t) => let (r, t') := f a in (r, t ++ t')
  | (None, t) => (None, t)
  end.

Definition value {A} (m : M A) : option A := fst m.
Definition trace {A} (m : M A) : list Z := snd m.

Declare Scope m_scope.
Delimit Scope m_scope with m.
Notation "x <- m ;; k" := (bind m (fun x => k))
  (at level 100, m at next level, right associativity) : m_scope.
Notation "' p <- m ;; k" := (bind m (fun x => let p := x in k))
  (at level 100, p pattern, m at next level, right associativity) : m_scope.
Local Open Scope m_scope.

(** [for (let i = lo; i <= hi; i++) s = body(i, s)] *)
Fixpoint for_loop {S} (n : nat) (i : Z) (body : Z -> S -> M S) (s : S) : M S :=
  match n with
  | O => ret s
  | Datatypes.S n' => s' <- body i s ;; for_loop n' (i + 1)%Z body s'
  end.

Definition for_range {S} (lo hi : Z) (body : Z -> S -> M S) (s : S) : M S :=
  for_loop (Z.to_nat (hi - lo + 1)) lo body s.

(* ===================================================================== *)
(** ** [src/types.ts] *)
(* ===================================================================== *)

Record Candle : Type := mkCandle {
  time : Z;
  open : Q;
  high : Q;
  low : Q;
  close : Q;
  volume : Q
}.

Inductive SignalType : Type :=
| HAMMER | SHOOTING_STAR | BULLISH_ENGULFING | BEARISH_ENGULFING | DOJI
| DOUBLE_BOTTOM | DOUBLE_TOP | HEAD_AND_SHOULDERS | INVERSE_H_AND_S
| FAST_REBOUND_BOTTOM | FAST_REJECTION_TOP | BULLISH_INSIDE_BAR
| BEARISH_INSIDE_BAR | MORNING_STAR | EVENING_STAR | BULLISH_SPINNING_TOP
| BEARISH_SPINNING_TOP | BOLLINGER_UPPER_REJECTION | BOLLINGER_LOWER_REJECTION
| INSTITUTIONAL_SPRING | INSTITUTIONAL_UPTHRUST | SUDDEN_REVERSAL_UP
| SUDDEN_REVERSAL_DOWN | TWEEZERS_TOP | TWEEZERS_BOTTOM | NONE.

Definition SignalType_eqb (a b : SignalType) : bool :=
  match a, b with
  | HAMMER, HAMMER | SHOOTING_STAR, SHOOTING_STAR
  | BULLISH_ENGULFING, BULLISH_ENGULFING
  | BEARISH_ENGULFING, BEARISH_ENGULFING | DOJI, DOJI
  | DOUBLE_BOTTOM, DOUBLE_BOTTOM | DOUBLE_TOP, DOUBLE_TOP
  | HEAD_AND_SHOULDERS, HEAD_AND_SHOULDERS | INVERSE_H_AND_S, INVERSE_H_AND_S
  | FAST_REBOUND_BOTTOM, FAST_REBOUND_BOTTOM
  | FAST_REJECTION_TOP, FAST_REJECTION_TOP
  | BULLISH_INSIDE_BAR, BULLISH_INSIDE_BAR
  | BEARISH_INSIDE_BAR, BEARISH_INSIDE_BAR | MORNING_STAR, MORNING_STAR
  | EVENING_STAR, EVENING_STAR | BULLISH_SPINNING_TOP, BULLISH_SPINNING_TOP
  | BEARISH_SPINNING_TOP, BEARISH_SPINNING_TOP
  | BOLLINGER_UPPER_REJECTION, BOLLINGER_UPPER_REJECTION
  | BOLLINGER_LOWER_REJECTION, BOLLINGER_LOWER_REJECTION
  | INSTITUTIONAL_SPRING, INSTITUTIONAL_SPRING
  | INSTITUTIONAL_UPTHRUST, INSTITUTIONAL_UPTHRUST
  | SUDDEN_REVERSAL_UP, SUDDEN_REVERSAL_UP
  | SUDDEN_REVERSAL_DOWN, SUDDEN_REVERSAL_DOWN | TWEEZERS_TOP, TWEEZERS_TOP
  | TWEEZERS_BOTTOM, TWEEZERS_BOTTOM | NONE, NONE => true
  | _, _ => false
  end.

Module TradingSignal.
Record t : Type := mk {
  candle : Candle;
  type : SignalType;
  timestamp : Z;
  aiConfirmation : option String.string;
  isConfirmed : bool;
  score : jsnum;
  stochRsi : option jsnum
}.
End TradingSignal.

(* ===================================================================== *)
(** ** [src/services/strategyService.ts] *)
(* ===================================================================== *)

Definition RECENT_LOOKBACK : Z := 50.
Definition RSI_PERIOD : Z := 14.
Definition STOCH_PERIOD : Z := 14.
Definition BB_PERIOD : Z := 20.
Definition BB_STD_DEV : Q := 2.0.

Definition PINBA_WICK_PERCENT : Q := 0.5.
Definition ULTRA_WICK_RATIO : Q := 3.0.
Definition CLIMATIC_VOLUME_MULT : Q := 3.
Definition REVERSAL_VOLUME_MULT : Q := 2.
Definition DOJI_BODY_THRESHOLD : Q := 0.05.
Definition TWEEZER_TOLERANCE : Q := 0.0001.

(** [candles.length] *)
Definition array_length (cs : list Candle) : Z := Z.of_nat (length cs).

(** [candles[i]] whose fields are read.  Outside the array JavaScript yields
    [undefined] and throws as soon as a field of it is read; the failure is
    recorded at the read itself, so the model throws at least whenever the
    program does. *)
Definition candle_at (cs : list Candle) (i : Z) : M Candle :=
  ((if (0 <=? i)%Z then nth_error cs (Z.to_nat i) else None), [i]).

(** The positions [lo, lo+1, ..., lo+n-1]. *)
Fixpoint positions (lo : Z) (n : nat) : list Z :=
  match n with
  | O => []
  | Datatypes.S n' => lo :: positions (lo + 1)%Z n'
  end.

(** [candles.slice(start, end)]: negative bounds count from the end, and
    both bounds are clamped to the array; the copy reads the positions kept. *)
Definition slice (cs : list Candle) (start end_ : Z) : M (list Candle) :=
  let len := array_length cs in
  let k := if (start <? 0)%Z then Z.max (len + start) 0 else Z.min start len in
  let final := if (end_ <? 0)%Z then Z.max (len + end_) 0 else Z.min end_ len in
  let count := Z.to_nat (final - k) in
  (Some (firstn count (skipn (Z.to_nat k) cs)), positions k count).

Section Strategy.
Context `{MathSqrt}.
Local Open Scope js_scope.

(** The body of the loop of [calculateRSIValue]. *)
Definition rsi_step (candles : list Candle) (i : Z) (acc : jsnum * jsnum)
  : M (jsnum * jsnum) :=
  let '(gains, losses) := acc in
  ci <- candle_at candles i ;;
  ci1 <- candle_at candles (i - 1) ;;
  let change := Fin (close ci) - Fin (close ci1) in
  if change >=? Fin 0 then ret (gains + change, losses)
  else ret (gains, losses - change).

Definition calculateRSIValue (candles : list Candle) (index : Z) : M jsnum :=
  if (index <? RSI_PERIOD)%Z then ret (Fin 50) else
  '(gains, losses) <-
    for_range (index - RSI_PERIOD + 1) index (rsi_step candles)
              (Fin 0, Fin 0) ;;
  if losses === Fin 0 then ret (Fin 100) else
  let rs := (gains / Fin (inject_Z RSI_PERIOD))
            / (losses / Fin (inject_Z RSI_PERIOD)) in
  ret (Fin 100 - (Fin 100 / (Fin 1 + rs))).

(** The body of the loop of [calculateStochRSI]. *)
Definition stoch_step (candles : list Candle) (i : Z) (rsiValues : list jsnum)
  : M (list jsnum) :=
  v <- calculateRSIValue candles i ;;
  ret (rsiValues ++ [v]).

Definition calculateStochRSI (candles : list Candle) (index : Z) : M jsnum :=
  if (index <? RSI_PERIOD + STOCH_PERIOD)%Z then ret (Fin 50) else
  rsiValues <-
    for_range (index - STOCH_PERIOD + 1) index (stoch_step candles) [] ;;
  let currentRsi := nth (length rsiValues - 1) rsiValues NaN in
  let minRsi := Math_min rsiValues in
  let maxRsi := Math_max rsiValues in
  if maxRsi === minRsi then ret (Fin 0) else
  ret (((currentRsi - minRsi) / (maxRsi - minRsi)) * Fin 100).

Record Bands : Type := mkBands {
  middle : jsnum;
  upper : jsnum;
  lower : jsnum
}.

(** [null] is [None]. *)
Definition calculateBollingerBands (candles : list Candle) (index : Z)
  : M (option Bands) :=
  if (index <? BB_PERIOD)%Z then ret None else
  slice_ <- slice candles (index - BB_PERIOD + 1) (index + 1) ;;
  let sma := fold_left (fun sum c => sum + Fin (close c)) slice_ (Fin 0)
             / Fin (inject_Z BB_PERIOD) in
  let variance :=
    fold_left (fun sum c => sum + jssquare (Fin (close c) - sma)) slice_ (Fin 0)
    / Fin (inject_Z BB_PERIOD) in
  let stdDev := jssqrt variance in
  ret (Some {| middle := sma;
               upper := sma + (Fin BB_STD_DEV * stdDev);
               lower := sma - (Fin BB_STD_DEV * stdDev) |}).


(** The value returned by [detectSignal]. *)
Record Detected : Type := mkDetected {
  type : SignalType;
  stochRsi : jsnum;
  score : jsnum
}.

(** The quantities [detectSignal] derives from the current candle and from
    the [RECENT_LOOKBACK] candles before it. *)
Definition candle_range (curr : Candle) : jsnum :=
  Fin (high curr) - Fin (low curr).
Definition candle_body (curr : Candle) : jsnum :=
  jsmax (Fin 0.0001) (jsabs (Fin (close curr) - Fin (open curr))).
Definition upperWick (curr : Candle) : jsnum :=
  Fin (high curr) - jsmax (Fin (open curr)) (Fin (close curr)).
Definition lowerWick (curr : Candle) : jsnum :=
  jsmin (Fin (open curr)) (Fin (close curr)) - Fin (low curr).
Definition avgVol (recentSlices : list Candle) : jsnum :=
  fold_left (fun sum c => sum + Fin (volume c)) recentSlices (Fin 0)
  / Fin (inject_Z RECENT_LOOKBACK).
Definition recentLow (recentSlices : list Candle) : jsnum :=
  Math_min (map (fun c => Fin (low c)) recentSlices).
Definition recentHigh (recentSlices : list Candle) : jsnum :=
  Math_max (map (fun c => Fin (high c)) recentSlices).
Definition volMult (curr : Candle) (recentSlices : list Candle) : jsnum :=
  Fin (volume curr) / avgVol recentSlices.
Definition highsDiff (curr prev : Candle) : jsnum :=
  jsabs (Fin (high curr) - Fin (high prev)) / Fin (high curr).
Definition lowsDiff (curr prev : Candle) : jsnum :=
  jsabs (Fin (low curr) - Fin (low prev)) / Fin (low curr).
Definition prevBody (prev : Candle) : jsnum :=
  jsabs (Fin (close prev) - Fin (open prev)).

(** The tests of the rules of [detectSignal], in the order of the source.
    A test nested in another one is joined to it by [&&]. *)
Definition spring_cond (curr next : Candle) (stochRsi : jsnum)
    (bb : option Bands) (recentSlices : list Candle) : bool :=
  match bb with
  | Some bb =>
      (lowerWick curr >? candle_body curr * Fin ULTRA_WICK_RATIO)
      && (stochRsi <? Fin 20)
      && let isDeepSweep := Fin (low curr) <? recentLow recentSlices in
         (volMult curr recentSlices >? Fin CLIMATIC_VOLUME_MULT)
         && isDeepSweep && (Fin (low curr) <? lower bb)
         && (Fin (close next) >? Fin (low curr))
  | None => false
  end.

Definition upthrust_cond (curr next : Candle) (stochRsi : jsnum)
    (bb : option Bands) (recentSlices : list Candle) : bool :=
  match bb with
  | Some bb =>
      (upperWick curr >? candle_body curr * Fin ULTRA_WICK_RATIO)
      && (stochRsi >? Fin 80)
      && let isDeepSweep := Fin (high curr) >? recentHigh recentSlices in
         (volMult curr recentSlices >? Fin CLIMATIC_VOLUME_MULT)
         && isDeepSweep && (Fin (high curr) >? upper bb)
         && (Fin (close next) <? Fin (high curr))
  | None => false
  end.

Definition tweezers_top_cond (curr prev : Candle) (stochRsi : jsnum)
    (recentSlices : list Candle) : bool :=
  (highsDiff curr prev <? Fin TWEEZER_TOLERANCE)
  && (Fin (close prev) >? Fin (open prev))
  && (Fin (close curr) <? Fin (open curr))
  && (stochRsi >? Fin 85) && (Fin (high curr) >=? recentHigh recentSlices).

Definition tweezers_bottom_cond (curr prev : Candle) (stochRsi : jsnum)
    (recentSlices : list Candle) : bool :=
  (lowsDiff curr prev <? Fin TWEEZER_TOLERANCE)
  && (Fin (close prev) <? Fin (open prev))
  && (Fin (close curr) >? Fin (open curr))
  && (stochRsi <? Fin 15) && (Fin (low curr) <=? recentLow recentSlices).

Definition reversal_up_cond (curr prev prev2 : Candle) (stochRsi : jsnum)
    (recentSlices : list Candle) : bool :=
  (Fin (close prev) <? Fin (open prev))
  && (Fin (close prev2) <? Fin (open prev2)) && (stochRsi <? Fin 20)
  && ((Fin (close curr) >? Fin (open curr))
      && (Fin (close curr) >? Fin (open prev))
      && (volMult curr recentSlices >? Fin REVERSAL_VOLUME_MULT)).

Definition reversal_down_cond (curr prev prev2 : Candle) (stochRsi : jsnum)
    (recentSlices : list Candle) : bool :=
  (Fin (close prev) >? Fin (open prev))
  && (Fin (close prev2) >? Fin (open prev2)) && (stochRsi >? Fin 80)
  && ((Fin (close curr) <? Fin (open curr))
      && (Fin (close curr) <? Fin (open prev))
      && (volMult curr recentSlices >? Fin REVERSAL_VOLUME_MULT)).

Definition bullish_engulfing_cond (curr prev : Candle) (stochRsi : jsnum)
    (recentSlices : list Candle) : bool :=
  (Fin (close curr) >? Fin (open curr))
  && (Fin (close prev) <? Fin (open prev))
  && (candle_body curr >? prevBody prev)
  && ((stochRsi <? Fin 20) && (Fin (low curr) <=? recentLow recentSlices)).

Definition bearish_engulfing_cond (curr prev : Candle) (stochRsi : jsnum)
    (recentSlices : list Candle) : bool :=
  (Fin (close curr) <? Fin (open curr))
  && (Fin (close prev) >? Fin (open prev))
  && (candle_body curr >? prevBody prev)
  && ((stochRsi >? Fin 80) && (Fin (high curr) >=? recentHigh recentSlices)).

Definition hammer_cond (curr next : Candle) (stochRsi : jsnum)
    (recentSlices : list Candle) : bool :=
  (lowerWick curr >=? candle_range curr * Fin PINBA_WICK_PERCENT)
  && (stochRsi <=? Fin 20)
  && (Fin (low curr) <=? recentLow recentSlices)
  && (Fin (close next) >? Fin (open next)).

Definition shooting_star_cond (curr next : Candle) (stochRsi : jsnum)
    (recentSlices : list Candle) : bool :=
  (upperWick curr >=? candle_range curr * Fin PINBA_WICK_PERCENT)
  && (stochRsi >=? Fin 80)
  && (Fin (high curr) >=? recentHigh recentSlices)
  && (Fin (close next) <? Fin (open next)).

Definition doji_cond (curr : Candle) (recentSlices : list Candle) : bool :=
  (candle_body curr / candle_range curr <? Fin DOJI_BODY_THRESHOLD)
  && ((Fin (low curr) <=? recentLow recentSlices)
      || (Fin (high curr) >=? recentHigh recentSlices)).

(** The chain of early-return rules of [detectSignal], from the first rule
    down to the final [NONE]. *)
Definition match_patterns (curr prev prev2 next : Candle) (stochRsi : jsnum)
    (bb : option Bands) (recentSlices : list Candle) : Detected :=
  let body := candle_body curr in
  let upperWick := upperWick curr in
  let lowerWick := lowerWick curr in
  let avgVol := avgVol recentSlices in
  let recentLow := recentLow recentSlices in
  let recentHigh := recentHigh recentSlices in
  let volMult := volMult curr recentSlices in
  (* 1. climatic institutional spring *)
  if spring_cond curr next stochRsi bb recentSlices then
    let isDeepSweep := Fin (low curr) <? recentLow in
    let finalScore :=
      Fin 60 + jsmin (Fin 20) ((volMult - Fin 2) * Fin 10)
      + (if isDeepSweep then Fin 10 else Fin 0)
      + (if stochRsi <? Fin 15 then Fin 10 else Fin 0) in
    mkDetected INSTITUTIONAL_SPRING stochRsi (jsmin (Fin 95) finalScore)
  else
  (* institutional upthrust *)
  if upthrust_cond curr next stochRsi bb recentSlices then
    let isDeepSweep := Fin (high curr) >? recentHigh in
    let finalScore :=
      Fin 60 + jsmin (Fin 20) ((volMult - Fin 2) * Fin 10)
      + (if isDeepSweep then Fin 10 else Fin 0)
      + (if stochRsi >? Fin 85 then Fin 10 else Fin 0) in
    mkDetected INSTITUTIONAL_UPTHRUST stochRsi (jsmin (Fin 95) finalScore)
  else
  (* 2. tweezers *)
  let highsDiff := highsDiff curr prev in
  if tweezers_top_cond curr prev stochRsi recentSlices then
    let volBonus :=
      if Fin (volume curr) >? avgVol * Fin 1.5 then Fin 15 else Fin 0 in
    let finalScore :=
      Fin 50 + (if stochRsi >? Fin 90 then Fin 15 else Fin 5) + volBonus
      + (if highsDiff <? Fin 0.00005 then Fin 10 else Fin 0) in
    mkDetected TWEEZERS_TOP stochRsi finalScore
  else
  let lowsDiff := lowsDiff curr prev in
  if tweezers_bottom_cond curr prev stochRsi recentSlices then
    let volBonus :=
      if Fin (volume curr) >? avgVol * Fin 1.5 then Fin 15 else Fin 0 in
    let finalScore :=
      Fin 50 + (if stochRsi <? Fin 10 then Fin 15 else Fin 5) + volBonus
      + (if lowsDiff <? Fin 0.00005 then Fin 10 else Fin 0) in
    mkDetected TWEEZERS_BOTTOM stochRsi finalScore
  else
  (* 3. sudden reversal *)
  if reversal_up_cond curr prev prev2 stochRsi recentSlices then
    let finalScore :=
      Fin 45 + jsmin (Fin 25) ((volMult - Fin 1) * Fin 15)
      + (if Fin (close curr) >? Fin (open prev2) then Fin 15 else Fin 5) in
    mkDetected SUDDEN_REVERSAL_UP stochRsi finalScore
  else
  if reversal_down_cond curr prev prev2 stochRsi recentSlices then
    let finalScore :=
      Fin 45 + jsmin (Fin 25) ((volMult - Fin 1) * Fin 15)
      + (if Fin (close curr) <? Fin (open prev2) then Fin 15 else Fin 5) in
    mkDetected SUDDEN_REVERSAL_DOWN stochRsi finalScore
  else
  (* 4. engulfing *)
  let prevBody := prevBody prev in
  if bullish_engulfing_cond curr prev stochRsi recentSlices then
    let finalScore :=
      Fin 40 + (if volMult >? Fin 1.2 then Fin 15 else Fin 0)
      + (if body / prevBody >? Fin 1.5 then Fin 20 else Fin 10) in
    mkDetected BULLISH_ENGULFING stochRsi finalScore
  else
  if bearish_engulfing_cond curr prev stochRsi recentSlices then
    let finalScore :=
      Fin 40 + (if volMult >? Fin 1.2 then Fin 15 else Fin 0)
      + (if body / prevBody >? Fin 1.5 then Fin 20 else Fin 10) in
    mkDetected BEARISH_ENGULFING stochRsi finalScore
  else
  (* 5. classic pinbars *)
  if hammer_cond curr next stochRsi recentSlices then
    let finalScore :=
      Fin 35 + (if lowerWick / body >? Fin 2 then Fin 20 else Fin 10)
      + (if volMult >? Fin 1.2 then Fin 15 else Fin 0) in
    mkDetected HAMMER stochRsi finalScore
  else
  if shooting_star_cond curr next stochRsi recentSlices then
    let finalScore :=
      Fin 35 + (if upperWick / body >? Fin 2 then Fin 20 else Fin 10)
      + (if volMult >? Fin 1.2 then Fin 15 else Fin 0) in
    mkDetected SHOOTING_STAR stochRsi finalScore
  else
  (* 6. doji *)
  if doji_cond curr recentSlices then
    let isExtreme := (stochRsi <? Fin 20) || (stochRsi >? Fin 80) in
    let finalScore :=
      Fin 30 + (if isExtreme then Fin 30 else Fin 0)
      + (if volMult >? Fin 1.5 then Fin 15 else Fin 0) in
    mkDetected DOJI stochRsi finalScore
  else
  mkDetected NONE stochRsi (Fin 0).

Definition detectSignal (candles : list Candle) (index : Z) : M Detected :=
  if (index <? RECENT_LOOKBACK)%Z || (index >? array_length candles - 2)%Z
  then ret (mkDetected NONE (Fin 50) (Fin 0)) else
  curr <- candle_at candles index ;;
  prev <- candle_at candles (index - 1) ;;
  prev2 <- candle_at candles (index - 2) ;;
  next <- candle_at candles (index + 1) ;;
  stochRsi <- calculateStochRSI candles index ;;
  bb <- calculateBollingerBands candles index ;;
  let range := candle_range curr in
  if range === Fin 0 then ret (mkDetected NONE stochRsi (Fin 0)) else
  recentSlices <- slice candles (index - RECENT_LOOKBACK) index ;;
  ret (match_patterns curr prev prev2 next stochRsi bb recentSlices).

(** The body of the loop of [scanForSignals]. *)
Definition scan_step (candles : list Candle) (i : Z)
    (signals : list TradingSignal.t) : M (list TradingSignal.t) :=
  d <- detectSignal candles i ;;
  if negb (SignalType_eqb (type d) NONE) then
    c <- candle_at candles i ;;
    c' <- candle_at candles i ;;
    ret (signals ++ [TradingSignal.mk c (type d) (time c') None false
                                      (score d) (Some (stochRsi d))])
  else ret signals.

Definition scanForSignals (candles : list Candle) : M (list TradingSignal.t) :=
  for_range 25 (array_length candles - 1 - 1) (scan_step candles) [].

End Strategy.

(* ===================================================================== *)
(** ** The indicators in double precision *)
(* ===================================================================== *)

(** The numbers of the program are IEEE doubles: an operation returns the
    exact result rounded to a double.  [round] is that rounding, from the
    rationals to the doubles and the two infinities.  The operations of
    [Rounded] apply it to every finite result, and
    [Rounded.calculateRSIValue] and [Rounded.calculateStochRSI] are the two
    momentum indicators over these operations.  The sign of zero is not
    modelled: the zero divisors of the two indicators are positive zeros. *)
Class Rounding := round : Q -> jsnum.

Definition rounded {R : Rounding} (x : jsnum) : jsnum :=
  match x with
  | Fin q => round q
  | _ => x
  end.

Module Rounded.
Section Model.
Context {R : Rounding}.

Definition add (x y : jsnum) : jsnum := rounded (jsadd x y).
Definition sub (x y : jsnum) : jsnum := rounded (jssub x y).
Definition mul (x y : jsnum) : jsnum := rounded (jsmul x y).
Definition div (x y : jsnum) : jsnum := rounded (jsdiv x y).

(** The body of the loop of [calculateRSIValue]. *)
Definition rsi_step (candles : list Candle) (i : Z) (acc : jsnum * jsnum)
  : M (jsnum * jsnum) :=
  let '(gains, losses) := acc in
  ci <- candle_at candles i ;;
  ci1 <- candle_at candles (i - 1) ;;
  let change := sub (Fin (close ci)) (Fin (close ci1)) in
  if jsge change (Fin 0) then ret (add gains change, losses)
  else ret (gains, sub losses change).

Definition calculateRSIValue (candles : list Candle) (index : Z) : M jsnum :=
  if (index <? RSI_PERIOD)%Z then ret (Fin 50) else
  '(gains, losses) <-
    for_range (index - RSI_PERIOD + 1) index (rsi_step candles)
              (Fin 0, Fin 0) ;;
  if jseq losses (Fin 0) then ret (Fin 100) else
  let rs := div (div gains (Fin (inject_Z RSI_PERIOD)))
                (div losses (Fin (inject_Z RSI_PERIOD))) in
  ret (sub (Fin 100) (div (Fin 100) (add (Fin 1) rs))).

(** The body of the loop of [calculateStochRSI]. *)
Definition stoch_step (candles : list Candle) (i : Z) (rsiValues : list jsnum)
  : M (list jsnum) :=
  v <- calculateRSIValue candles i ;;
  ret (rsiValues ++ [v]).

Definition calculateStochRSI (candles : list Candle) (index : Z) : M jsnum :=
  if (index <? RSI_PERIOD + STOCH_PERIOD)%Z then ret (Fin 50) else
  rsiValues <-
    for_range (index - STOCH_PERIOD + 1) index (stoch_step candles) [] ;;
  let currentRsi := nth (length rsiValues - 1) rsiValues NaN in
  let minRsi := Math_min rsiValues in
  let maxRsi := Math_max rsiValues in
  if jseq maxRsi minRsi then ret (Fin 0) else
  ret (mul (div (sub currentRsi minRsi) (sub maxRsi minRsi)) (Fin 100)).

End Model.
End Rounded.

(** The rounding of the doubles: to the nearest number with 53 binary
    digits and an exponent from -1074 on, the even one of two nearest; past
    the largest double, to an infinity. *)
Definition pow2 (e : Z) : Q := 2 ^ e.
Arguments pow2 : simpl never.

(** The nearest integer of a rational, the even one of two nearest. *)
Definition rne (q : Q) : Z :=
  let f := Qfloor q in
  match Qcompare (q - inject_Z f) (1 # 2) with
  | Lt => f
  | Gt => (f + 1)%Z
  | Eq => if Z.even f then f else (f + 1)%Z
  end.

(** The exponent of the leading binary digit of a positive rational. *)
Definition ilog2 (q : Q) : Z :=
  let e := (Z.log2 (Qnum q) - Z.log2 (Zpos (Qden q)))%Z in
  if Qle_bool (pow2 e) q then e else (e - 1)%Z.

(** The exponent of the last binary digit kept. *)
Definition ulp_exponent (a : Q) : Z := Z.max (ilog2 a - 52) (-1074).

Definition round_magnitude (a : Q) : Q :=
  inject_Z (rne (a / pow2 (ulp_exponent a))) * pow2 (ulp_exponent a).

Definition binary64 : Rounding := fun q =>
  if Qeq_bool q 0 then Fin 0 else
  let v := round_magnitude (Qabs q) in
  if Qle_bool (pow2 1024) v then (if Qlt_bool q 0 then NInf else PInf)
  else Fin (if Qlt_bool q 0 then - v else v).

(* ===================================================================== *)
(** ** The chart component (second document of [src/types.ts]) *)
(* ===================================================================== *)

(** A number used as a condition: [0] and [NaN] are falsy. *)
Definition falsy_num (x : jsnum) : bool :=
  match x with
  | Fin q => Qeq_bool q 0
  | NaN => true
  | PInf | NInf => false
  end.

(** [x || d] on an optional number ([undefined] is [None]). *)
Definition or_default (x : option jsnum) (d : jsnum) : jsnum :=
  match x with
  | Some v => if falsy_num v then d else v
  | None => d
  end.

(** [list.includes(type)] *)
Definition includes (l : list SignalType) (t : SignalType) : bool :=
  existsb (SignalType_eqb t) l.

(** [prices.reduce((a, b) => ..)] without initial value: the first element
    starts the fold, and an empty array throws. *)
Definition reduce1 {A} (f : A -> A -> A) (l : list A) : M A :=
  match l with
  | [] => (None, [])
  | x :: r => ret (fold_left f r x)
  end.

Module CandleChart.
Section Chart.
Context `{MathSqrt}.

Definition BB_PERIOD : Z := 20.
Definition BB_STD_DEV : Q := 2.0.

(** The three series [upperBB], [middleBB], [lowerBB]; [null] is [None]. *)
Record Series : Type := mkSeries {
  upperBB : list (option jsnum);
  middleBB : list (option jsnum);
  lowerBB : list (option jsnum)
}.

(** The body of the loop that computes the Bollinger series. *)
Definition bands_step (candles : list Candle) (i : Z) (acc : Series)
  : M Series :=
  if (i <? BB_PERIOD - 1)%Z then
    ret (mkSeries (upperBB acc ++ [None]) (middleBB acc ++ [None])
                  (lowerBB acc ++ [None]))
  else
    slice_ <- slice candles (i - BB_PERIOD + 1) (i + 1) ;;
    let prices := map (fun c => Fin (close c)) slice_ in
    total <- reduce1 jsadd prices ;;
    let sma := jsdiv total (Fin (inject_Z BB_PERIOD)) in
    let variance :=
      jsdiv (fold_left (fun a b => jsadd a (jssquare (jssub b sma)))
                       prices (Fin 0))
            (Fin (inject_Z BB_PERIOD)) in
    let stdDev := jssqrt variance in
    ret (mkSeries
           (upperBB acc ++ [Some (jsadd sma (jsmul (Fin BB_STD_DEV) stdDev))])
           (middleBB acc ++ [Some sma])
           (lowerBB acc ++ [Some (jssub sma (jsmul (Fin BB_STD_DEV) stdDev))])).

(** [for (let i = 0; i < candles.length; i++) ...] *)
Definition bollinger_series (candles : list Candle) : M Series :=
  for_range 0 (array_length candles - 1) (bands_step candles)
            (mkSeries [] [] []).

End Chart.

Definition isBullish (type : SignalType) (stochRsi : option jsnum) : bool :=
  if SignalType_eqb type DOJI then jsle (or_default stochRsi (Fin 50)) (Fin 50)
  else
    includes [INSTITUTIONAL_SPRING; TWEEZERS_BOTTOM; SUDDEN_REVERSAL_UP;
              HAMMER; BULLISH_ENGULFING; BOLLINGER_LOWER_REJECTION] type.

End CandleChart.

(* ===================================================================== *)
(** ** [src/App.tsx] *)
(* ===================================================================== *)

(** [array.sort(compare)].  The sort of the language is stable, and the
    comparators of the program order by an integer key: the result is that
    of the stable insertion sort, in which [b] goes before [a] exactly when
    [compare(a, b) > 0]. *)
Fixpoint sort_insert {A} (compare : A -> A -> Z) (x : A) (l : list A)
  : list A :=
  match l with
  | [] => [x]
  | y :: r => if (compare x y >? 0)%Z then y :: sort_insert compare x r
              else x :: y :: r
  end.

Definition array_sort {A} (compare : A -> A -> Z) (l : list A) : list A :=
  fold_right (sort_insert compare) [] l.

(** [candles.findIndex(c => c.time === timestamp)], from position [i] on. *)
Fixpoint findIndex_from (timestamp : Z) (i : Z) (candles : list Candle) : Z :=
  match candles with
  | [] => (-1)%Z
  | c :: r => if (time c =? timestamp)%Z then i
              else findIndex_from timestamp (i + 1)%Z r
  end.

Definition findIndex (candles : list Candle) (timestamp : Z) : Z :=
  findIndex_from timestamp 0 candles.

Module App.

Record MarketState : Type := mkMarketState {
  symbol : String.string;
  interval : String.string;
  lastPrice : jsnum;
  candles : list Candle;
  signals : list TradingSignal.t;
  isScanning : bool
}.

(** The signals of the new state in [updateMarketData]: a detected signal
    gives way to the signal of the previous state with the same timestamp,
    and the result is sorted by descending timestamp. *)
Definition merge_signals (prev detectedSignals : list TradingSignal.t)
  : list TradingSignal.t :=
  array_sort
    (fun a b => (TradingSignal.timestamp b - TradingSignal.timestamp a)%Z)
    (map (fun newSig =>
            let existing :=
              find (fun s => (TradingSignal.timestamp s
                              =? TradingSignal.timestamp newSig)%Z) prev in
            match existing with
            | Some existing => existing
            | None => newSig
            end)
         detectedSignals).

Section Update.
Context `{MathSqrt}.

(** [updateMarketData], once the candles and the last price are fetched:
    the state it sets from the previous state. *)
Definition updateMarketData (prev : MarketState)
    (activeSymbol activeInterval : String.string)
    (candles_ : list Candle) (lastPrice_ : jsnum) : M MarketState :=
  if (array_length candles_ >? 0)%Z then
    detectedSignals <- scanForSignals candles_ ;;
    ret (mkMarketState activeSymbol activeInterval lastPrice_ candles_
                       (merge_signals (signals prev) detectedSignals)
                       (isScanning prev))
  else ret prev.

End Update.

(** The result of [confirmSignalWithAI]. *)
Record Confirmation : Type := mkConfirmation {
  confirmation : String.string;
  isConfirmed : bool;
  score : jsnum
}.

(** A string used as a condition: [undefined] and the empty string are
    falsy. *)
Definition truthy_string (s : option String.string) : bool :=
  match s with
  | Some String.EmptyString | None => false
  | Some _ => true
  end.

(** [handleAIConfirm] up to the call of the model: the context candles it
    sends, or [None] when it returns without calling. *)
Definition handleAIConfirm_context (candles_ : list Candle)
    (signal : TradingSignal.t) : option (list Candle) :=
  if truthy_string (TradingSignal.aiConfirmation signal) then None else
  let index := findIndex candles_ (TradingSignal.timestamp signal) in
  if (index <? 60)%Z then None else
  value (slice candles_ (Z.max 0 (index - 60)) (index + 2)).

(** [handleAIConfirm] after the call: the signals of the new state. *)
Definition handleAIConfirm_apply (signals_ : list TradingSignal.t)
    (signal : TradingSignal.t) (result : Confirmation)
  : list TradingSignal.t :=
  map (fun s =>
         if (TradingSignal.timestamp s =? TradingSignal.timestamp signal)%Z
         then TradingSignal.mk
                (TradingSignal.candle s) (TradingSignal.type s)
                (TradingSignal.timestamp s) (Some (confirmation result))
                (isConfirmed result) (score result)
                (TradingSignal.stochRsi s)
         else s)
      signals_.

Definition isBullish (type : SignalType) (stochRsi : option jsnum) : bool :=
  if SignalType_eqb type DOJI then jsle (or_default stochRsi (Fin 50)) (Fin 50)
  else
    includes [INSTITUTIONAL_SPRING; TWEEZERS_BOTTOM; SUDDEN_REVERSAL_UP;
              BULLISH_ENGULFING; HAMMER; BOLLINGER_LOWER_REJECTION] type.

End App.

(* ===================================================================== *)
(** ** The indicators in the words of the specification *)
(* ===================================================================== *)

(** A bar of the data model: positive prices, a non-negative volume, the
    high at or above the open and the close, the low at or below them. *)
Definition valid_candle (c : Candle) : Prop :=
  0 < open c /\ 0 < high c /\ 0 < low c /\ 0 < close c /\ 0 <= volume c
  /\ open c <= high c /\ close c <= high c
  /\ low c <= open c /\ low c <= close c.

(** A bar sequence of the data model: valid bars in strictly increasing
    order of time. *)
Fixpoint increasing_times (cs : list Candle) : Prop :=
  match cs with
  | c :: (c' :: _) as rest => (time c < time c')%Z /\ increasing_times rest
  | _ => True
  end.
Definition valid_bars (cs : list Candle) : Prop :=
  Forall valid_candle cs /\ increasing_times cs.

(** The order of the numbers, infinities included; [NaN] is not ordered. *)
Definition num_le (x y : jsnum) : Prop :=
  match x, y with
  | NaN, _ | _, NaN => False
  | NInf, _ | _, PInf => True
  | Fin a, Fin b => a <= b
  | _, _ => False
  end.

(** The multiples of [2^e]. *)
Definition on_grid (e : Z) (q : Q) : Prop :=
  exists k : Z, q == inject_Z k * pow2 e.

(** What the indicators need of the rounding: it keeps the order, its
    finite results are multiples of the smallest positive double, and the
    powers of two of the range of the doubles, their opposites, 0 and 100
    are doubles. *)
Record RoundingLaws (R : Rounding) : Prop := {
  round_monotone : forall a b, a <= b -> num_le (round a) (round b);
  round_on_grid : forall q v, round q = Fin v -> on_grid (-1074) v;
  round_pow2 : forall e, (-1074 <= e <= 1023)%Z ->
      num_eq (round (pow2 e)) (Fin (pow2 e))
      /\ num_eq (round (- pow2 e)) (Fin (- pow2 e));
  round_0 : num_eq (round 0) (Fin 0);
  round_100 : num_eq (round 100) (Fin 100)
}.

(** [NaN], or a finite number within the closed interval [[lo, hi]]. *)
Definition nan_or_within (lo hi : Q) (x : jsnum) : Prop :=
  x = NaN \/ within lo hi x.

(** A close of moderate size: a multiple of [2^-1000] of magnitude at most
    [2^1000].  Every double of magnitude between [2^-947] and [2^1000] is
    one. *)
Definition moderate (q : Q) : Prop :=
  on_grid (-1000) q /\ Qabs q <= pow2 1000.

(** The sum of a list of rationals. *)
Definition Qsum (l : list Q) : Q := fold_right Qplus 0 l.

(** The close of the candle at a position of the sequence. *)
Definition close_at (cs : list Candle) (k : Z) : Q :=
  match nth_error cs (Z.to_nat k) with
  | Some c => close c
  | None => 0
  end.

(** The close-over-close delta at a position, split into the gain (a
    positive delta) and the loss (a negative delta, negated). *)
Definition delta_at (cs : list Candle) (k : Z) : Q :=
  close_at cs k - close_at cs (k - 1).
Definition gain_at (cs : list Candle) (k : Z) : Q :=
  if Qle_bool 0 (delta_at cs k) then delta_at cs k else 0.
Definition loss_at (cs : list Candle) (k : Z) : Q :=
  if Qle_bool 0 (delta_at cs k) then 0 else - delta_at cs k.

(** The gains and the losses summed over the 14 candles ending at [index]. *)
Definition summed_gains (cs : list Candle) (index : Z) : Q :=
  Qsum (map (gain_at cs) (positions (index - 13) 14)).
Definition summed_losses (cs : list Candle) (index : Z) : Q :=
  Qsum (map (loss_at cs) (positions (index - 13) 14)).

(** The simple moving average, the variance and the closes of the 20
    candles ending at [index]. *)
Definition window_closes (cs : list Candle) (index : Z) : list Q :=
  map (close_at cs) (positions (index - 19) 20).
Definition sma20 (cs : list Candle) (index : Z) : Q :=
  Qsum (window_closes cs index) / 20.
Definition variance20 (cs : list Candle) (index : Z) : Q :=
  Qsum (map (fun x => (x - sma20 cs index) * (x - sma20 cs index))
            (window_closes cs index)) / 20.

(** The RSI at a position, and the RSI over the 14 positions ending at
    [index]. *)
Definition rsi_at (cs : list Candle) (k : Z) : jsnum :=
  match value (calculateRSIValue cs k) with
  | Some v => v
  | None => NaN
  end.
Definition rsi_window (cs : list Candle) (index : Z) : list jsnum :=
  map (rsi_at cs) (positions (index - 13) 14).

(* ===================================================================== *)
(** ** What the rules of [detectSignal] guarantee, kind by kind *)
(* ===================================================================== *)

(** The scores a pattern kind can take: the sum of the base of its rule and
    of the least and the largest of its bonuses.  The kinds without a rule
    take none. *)
Definition score_table (t : SignalType) (s : Q) : Prop :=
  match t with
  | INSTITUTIONAL_SPRING | INSTITUTIONAL_UPTHRUST => 80 <= s /\ s <= 95
  | TWEEZERS_TOP | TWEEZERS_BOTTOM => 55 <= s /\ s <= 90
  | SUDDEN_REVERSAL_UP | SUDDEN_REVERSAL_DOWN => 65 <= s /\ s <= 85
  | BULLISH_ENGULFING | BEARISH_ENGULFING => 50 <= s /\ s <= 75
  | HAMMER | SHOOTING_STAR => 45 <= s /\ s <= 70
  | DOJI => 30 <= s /\ s <= 75
  | NONE => s == 0
  | _ => False
  end.

(** The side of the Stochastic-RSI on which the rule of a kind fires. *)
Definition momentum_table (t : SignalType) (q : Q) : Prop :=
  match t with
  | INSTITUTIONAL_SPRING | SUDDEN_REVERSAL_UP | BULLISH_ENGULFING => q < 20
  | TWEEZERS_BOTTOM => q < 15
  | HAMMER => q <= 20
  | INSTITUTIONAL_UPTHRUST | SUDDEN_REVERSAL_DOWN | BEARISH_ENGULFING => 80 < q
  | TWEEZERS_TOP => 85 < q
  | SHOOTING_STAR => 80 <= q
  | _ => True
  end.

(** The kinds whose score has a term proportional to the volume multiple. *)
Definition volume_scored (t : SignalType) : bool :=
  match t with
  | INSTITUTIONAL_SPRING | INSTITUTIONAL_UPTHRUST
  | SUDDEN_REVERSAL_UP | SUDDEN_REVERSAL_DOWN => true
  | _ => false
  end.

(** What holds of a result of the rules computed with the Stochastic-RSI
    [q]. *)
Definition profile (q : Q) (d : Detected) : Prop :=
  stochRsi d = Fin q
  /\ (exists s, score d = Fin s /\ score_table (type d) s)
  /\ momentum_table (type d) q
  /\ (volume_scored (type d) = false -> integral (score d)).

(* ===================================================================== *)
(** ** The scanner in closed form *)
(* ===================================================================== *)

Section ScanClosedForm.
Context `{MathSqrt}.

(** The signal that the candle at a position gives, if any. *)
Definition signal_at (cs : list Candle) (i : Z) : list TradingSignal.t :=
  match value (detectSignal cs i), value (candle_at cs i) with
  | Some d, Some c =>
      if negb (SignalType_eqb (type d) NONE)
      then [TradingSignal.mk c (type d) (time c) None false
                             (score d) (Some (stochRsi d))]
      else []
  | _, _ => []
  end.

(** The signals of the positions 50, 51, ..., [length - 2]. *)
Definition signals_from_50 (cs : list Candle) : list TradingSignal.t :=
  flat_map (signal_at cs) (positions 50 (Z.to_nat (array_length cs - 51))).

End ScanClosedForm.

(* ===================================================================== *)
(** ** The series of the chart, entry by entry *)
(* ===================================================================== *)

Section ChartEntries.
Context `{MathSqrt}.

(** What the three series hold at a position: [null] below 19, and from 19
    on the average of the last 20 closes and the two bands at 2.0 times
    [Math.sqrt] of their variance from it. *)
Definition chart_entry (cs : list Candle) (sr : CandleChart.Series) (j : Z)
  : Prop :=
  ((j < 19)%Z ->
   nth_error (CandleChart.upperBB sr) (Z.to_nat j) = Some None
   /\ nth_error (CandleChart.middleBB sr) (Z.to_nat j) = Some None
   /\ nth_error (CandleChart.lowerBB sr) (Z.to_nat j) = Some None)
  /\ ((19 <= j)%Z ->
      exists m v,
        m == sma20 cs j /\ v == variance20 cs j
        /\ nth_error (CandleChart.middleBB sr) (Z.to_nat j)
           = Some (Some (Fin m))
        /\ nth_error (CandleChart.upperBB sr) (Z.to_nat j)
           = Some (Some (Fin (m + 2.0 * math_sqrt v)))
        /\ nth_error (CandleChart.lowerBB sr) (Z.to_nat j)
           = Some (Some (Fin (m - 2.0 * math_sqrt v)))).

End ChartEntries.

(* ===================================================================== *)
(** ** Test data *)
(* ===================================================================== *)

(** A [Math.sqrt] to run the engine with: the square root of the reduced
    fraction, exact on the squares of rationals and rounded down to a
    multiple of the inverse of the denominator otherwise. *)
Definition floor_sqrt : MathSqrt :=
  fun q => let r := Qred q in
           Z.sqrt (Qnum r * Zpos (Qden r)) # Qden r.

(** [n] candles built by [f] from the times [t], [t+1], ... *)
Fixpoint candles_from (f : Z -> Candle) (t : Z) (n : nat) : list Candle :=
  match n with
  | O => []
  | Datatypes.S n' => f t :: candles_from f (t + 1)%Z n'
  end.

(** A quiet bearish candle: opens at 101, closes at 100 on its low. *)
Definition quiet_bear (t : Z) : Candle := mkCandle t 101 101 100 100 10.

(** A candle without body or wick at the price [p]. *)
Definition flat_at (p : Q) (t : Z) : Candle := mkCandle t p p p p 10.

(** A candle closing at [p] with a wick of 1 on either side. *)
Definition calm_at (p : Q) (t : Z) : Candle :=
  mkCandle t p (p + 1) (p - 1) p 10.

(** Fifty quiet bearish candles, a bullish candle on 2.5 times the average
    volume that closes above the two opens before it, and a last candle. *)
Definition reversal_candles : list Candle :=
  candles_from quiet_bear 0 50
  ++ [mkCandle 50 100 102 99 102 25; mkCandle 51 102 102 101 101 10].


(** Closes: 100 up to candle 23, 99 from candle 24 to 48, 100 at candle 49
    and 91 at candle 50, which sweeps down to 80 on four times the average
    volume; candle 51 closes at 95. *)
Definition spring_curr : Candle := mkCandle 50 92 92 80 91 40.
Definition spring_next : Candle := mkCandle 51 91 96 90 95 10.
Definition spring_candles : list Candle :=
  candles_from (calm_at 100) 0 24 ++ candles_from (calm_at 99) 24 25
  ++ [calm_at 100 49; spring_curr; spring_next].

(** Closes: 100 up to candle 23, 99 from candle 24 to 48; candle 49 rises
    from 99 to 122 under a high of 125, candle 50 falls from 123 to 120
    under a high of 125.01. *)
Definition tweezers_prev : Candle := mkCandle 49 99 125 99 122 10.
Definition tweezers_curr : Candle := mkCandle 50 123 125.01 119 120 10.
Definition tweezers_next : Candle := mkCandle 51 120 121 118 119 10.
Definition tweezers_candles : list Candle :=
  candles_from (calm_at 100) 0 24 ++ candles_from (calm_at 99) 24 25
  ++ [tweezers_prev; tweezers_curr; tweezers_next].

(** Twenty flat candles. *)
Definition twenty_candles : list Candle := candles_from (flat_at 100) 0 20.

(** Twenty-nine valid bars whose closes alternate between 1 and [2^1023],
    the largest power of two among the doubles (about 9e307). *)
Definition wave_at (k : Z) : Candle :=
  let c := if Z.even k then 1 else pow2 1023 in
  mkCandle k c c c c 1.
Definition overflow_candles : list Candle := candles_from wave_at 0 29.

(** Fifty-two flat candles: none of them has a range. *)
Definition flat_candles : list Candle := candles_from (flat_at 100) 0 52.

(** [spring_candles] after twenty calm candles: the sweep is at candle 70. *)
Definition late_spring_candles : list Candle :=
  candles_from (calm_at 100) (-20) 20 ++ spring_candles.

(** A candle with every price multiplied by [a] and raised by [b]. *)
Definition rescale (a b : Q) (c : Candle) : Candle :=
  mkCandle (time c) (a * open c + b) (a * high c + b) (a * low c + b)
           (a * close c + b) (volume c).

(** A signal as the scan makes it, and the same signal once confirmed. *)
Definition sample_signal (c : Candle) : TradingSignal.t :=
  TradingSignal.mk c HAMMER (time c) None false (Fin 60) (Some (Fin 10)).
Module SampleText.
Import String.
Definition rejection : string := "Clear rejection."%string.
End SampleText.
Definition sample_confirmation : App.Confirmation :=
  App.mkConfirmation SampleText.rejection true (Fin 85).

(* ===================================================================== *)
(** ** Auxiliary definitions *)
(* ===================================================================== *)

(** [safe lo hi m P]: [m] does not throw, its value satisfies [P], and it
    reads positions between [lo] and [hi] only. *)
Definition safe {A} (lo hi : Z) (m : M A) (P : A -> Prop) : Prop :=
  exists a, value m = Some a /\ P a
            /\ Forall (fun p => (lo <= p <= hi)%Z) (trace m).

(** The RSI of given sums of gains and losses. *)
Definition rsi_of (g l : Q) : Q :=
  if Qeq_bool l 0 then 100 else 100 - 100 / (1 + (g / 14) / (l / 14)).

(** The tail of [calculateStochRSI], once the RSI values are collected. *)
Definition stoch_of (rsiValues : list jsnum) : jsnum :=
  let currentRsi := nth (length rsiValues - 1) rsiValues NaN in
  let minRsi := Math_min rsiValues in
  let maxRsi := Math_max rsiValues in
  if jseq maxRsi minRsi then Fin 0
  else jsmul (jsdiv (jssub currentRsi minRsi) (jssub maxRsi minRsi)) (Fin 100).

(** The same tail over the rounded operations. *)
Definition rounded_stoch_of {R : Rounding} (rsiValues : list jsnum) : jsnum :=
  let currentRsi := nth (length rsiValues - 1) rsiValues NaN in
  let minRsi := Math_min rsiValues in
  let maxRsi := Math_max rsiValues in
  if jseq maxRsi minRsi then Fin 0
  else Rounded.mul (Rounded.div (Rounded.sub currentRsi minRsi)
                                (Rounded.sub maxRsi minRsi)) (Fin 100).

(** A finite number that is a multiple of the smallest positive double. *)
Definition fin_on_grid (x : jsnum) : Prop :=
  exists q, x = Fin q /\ on_grid (-1074) q.

(* ===================================================================== *)
(** ** Lemmas on JavaScript numbers *)
(* ===================================================================== *)

Lemma Qlt_bool_iff (a b : Q) : Qlt_bool a b = true <-> a < b.
Proof.
  unfold Qlt_bool. rewrite negb_true_iff.
  split; intro Hab.
  - apply Qnot_le_lt. intro Hle. apply Qle_bool_iff in Hle. congruence.
  - destruct (Qle_bool b a) eqn:E; trivial.
    apply Qle_bool_iff in E. exfalso. apply (Qlt_not_le _ _ Hab E).
Qed.

Lemma Qlt_bool_false_iff (a b : Q) : Qlt_bool a b = false <-> b <= a.
Proof.
  unfold Qlt_bool. rewrite negb_false_iff. apply Qle_bool_iff.
Qed.

Lemma Qeq_bool_false_iff (a b : Q) : Qeq_bool a b = false <-> ~ a == b.
Proof.
  split; intro Hab.
  - intro E. apply Qeq_bool_iff in E. congruence.
  - destruct (Qeq_bool a b) eqn:E; trivial.
    apply Qeq_bool_iff in E. contradiction.
Qed.

(** Turn the boolean tests on rationals of the context into propositions. *)
Ltac qprop :=
  repeat match goal with
  | Hb : Qlt_bool _ _ = true |- _ => apply Qlt_bool_iff in Hb
  | Hb : Qlt_bool _ _ = false |- _ => apply Qlt_bool_false_iff in Hb
  | Hb : Qeq_bool _ _ = true |- _ => apply Qeq_bool_iff in Hb
  | Hb : Qeq_bool _ _ = false |- _ => apply Qeq_bool_false_iff in Hb
  | Hb : Qle_bool _ _ = true |- _ => apply Qle_bool_iff in Hb
  end.

Lemma jsdiv_fin (a b : Q) : ~ b == 0 -> jsdiv (Fin a) (Fin b) = Fin (a / b).
Proof.
  intro Hb. simpl. apply Qeq_bool_false_iff in Hb. now rewrite Hb.
Qed.


(** A number above a finite one is finite or [+Infinity]. *)
Lemma jsgt_fin_inv (x : jsnum) (c : Q) :
  jsgt x (Fin c) = true -> (exists v, x = Fin v /\ c < v) \/ x = PInf.
Proof.
  unfold jsgt. destruct x as [v | | |]; simpl; intro Hx; try discriminate.
  - left. exists v. split; trivial. now apply Qlt_bool_iff.
  - now right.
Qed.

Lemma jsmin_fin (a b : Q) :
  exists m, jsmin (Fin a) (Fin b) = Fin m /\ m <= a /\ m <= b /\ (m == a \/ m == b).
Proof.
  simpl. destruct (Qlt_bool b a) eqn:E; qprop.
  - exists b. repeat split; lra.
  - exists a. repeat split; lra.
Qed.

Lemma jsmax_fin (a b : Q) :
  exists m, jsmax (Fin a) (Fin b) = Fin m /\ a <= m /\ b <= m /\ (m == a \/ m == b).
Proof.
  simpl. destruct (Qlt_bool a b) eqn:E; qprop.
  - exists b. repeat split; lra.
  - exists a. repeat split; lra.
Qed.

(** [Math.min] and [Math.max] of finite numbers. *)
Lemma Math_min_fin (a : Q) (l : list Q) :
  exists m, Math_min (map Fin (a :: l)) = Fin m
            /\ Forall (fun x => m <= x) (a :: l)
            /\ Exists (fun x => m == x) (a :: l).
Proof.
  revert a. induction l as [| b l IH]; intro a.
  - exists a. simpl. repeat split.
    + constructor; [lra | constructor].
    + constructor. reflexivity.
  - destruct (IH b) as (m & Hm & Hall & Hex).
    change (Math_min (map Fin (a :: b :: l)))
      with (jsmin (Fin a) (Math_min (map Fin (b :: l)))).
    rewrite Hm. destruct (jsmin_fin a m) as (m' & -> & Ha & Hb & Hor).
    exists m'. repeat split.
    + constructor; trivial.
      eapply Forall_impl; [| exact Hall]. simpl. intros; lra.
    + destruct Hor as [E | E].
      * constructor. exact E.
      * apply Exists_cons_tl. eapply Exists_impl; [| exact Hex].
        simpl. intros x Hx. now rewrite E.
Qed.

Lemma Math_max_fin (a : Q) (l : list Q) :
  exists m, Math_max (map Fin (a :: l)) = Fin m
            /\ Forall (fun x => x <= m) (a :: l)
            /\ Exists (fun x => m == x) (a :: l).
Proof.
  revert a. induction l as [| b l IH]; intro a.
  - exists a. simpl. repeat split.
    + constructor; [lra | constructor].
    + constructor. reflexivity.
  - destruct (IH b) as (m & Hm & Hall & Hex).
    change (Math_max (map Fin (a :: b :: l)))
      with (jsmax (Fin a) (Math_max (map Fin (b :: l)))).
    rewrite Hm. destruct (jsmax_fin a m) as (m' & -> & Ha & Hb & Hor).
    exists m'. repeat split.
    + constructor; trivial.
      eapply Forall_impl; [| exact Hall]. simpl. intros; lra.
    + destruct Hor as [E | E].
      * constructor. exact E.
      * apply Exists_cons_tl. eapply Exists_impl; [| exact Hex].
        simpl. intros x Hx. now rewrite E.
Qed.

(** A left fold of additions of finite numbers is their finite sum. *)
Lemma fold_add_fin {A} (f : A -> Q) (l : list A) (acc : Q) :
  exists s, fold_left (fun sum c => jsadd sum (Fin (f c))) l (Fin acc) = Fin s
            /\ s == acc + Qsum (map f l).
Proof.
  revert acc. induction l as [| c l IH]; intro acc; simpl.
  - exists acc. split; [reflexivity | lra].
  - destruct (IH (acc + f c)) as (s & Hs & E).
    exists s. split; [exact Hs | lra].
Qed.

(* ===================================================================== *)
(** ** Lemmas on reads *)
(* ===================================================================== *)

Lemma bind_ret_l {A B} (a : A) (f : A -> M B) : bind (ret a) f = f a.
Proof. unfold bind, ret. now destruct (f a). Qed.

Lemma safe_ret {A} lo hi (a : A) (P : A -> Prop) : P a -> safe lo hi (ret a) P.
Proof. intro Ha. exists a. simpl. auto. Qed.

Lemma safe_ret_eq {A} lo hi (m : M A) (a : A) (P : A -> Prop) :
  m = ret a -> P a -> safe lo hi m P.
Proof. intros -> Ha. now apply safe_ret. Qed.

Lemma value_bind {A B} (m : M A) (f : A -> M B) :
  value (bind m f)
  = match value m with Some a => value (f a) | None => None end.
Proof.
  destruct m as [[a |] t]; simpl; trivial. now destruct (f a).
Qed.

Lemma for_loop_ret {S} (body : Z -> S -> M S) (s : S) :
  forall (n : nat) (i : Z),
    (forall k, (i <= k < i + Z.of_nat n)%Z -> body k s = ret s) ->
    for_loop n i body s = ret s.
Proof.
  induction n as [| n IH]; intros i Hbody; [reflexivity |].
  simpl for_loop. rewrite Hbody by lia. rewrite bind_ret_l.
  apply IH. intros k Hk. apply Hbody. lia.
Qed.

Lemma safe_bind {A B} lo hi (m : M A) (f : A -> M B) P Q :
  safe lo hi m P ->
  (forall a, P a -> safe lo hi (f a) Q) ->
  safe lo hi (bind m f) Q.
Proof.
  intros (a & Hv & Ha & Ht) Hf.
  destruct (Hf a Ha) as (b & Hvb & Hb & Htb).
  destruct m as [[a' |] t]; simpl in Hv; try discriminate.
  injection Hv as ->. unfold bind.
  destruct (f a) as [r t'] eqn:E. simpl in *.
  exists b. repeat split; trivial. apply Forall_app. split; assumption.
Qed.

Lemma safe_weaken {A} lo hi lo' hi' (m : M A) (P Q : A -> Prop) :
  safe lo hi m P -> (lo' <= lo)%Z -> (hi <= hi')%Z ->
  (forall a, P a -> Q a) -> safe lo' hi' m Q.
Proof.
  intros (a & Hv & Ha & Ht) Hlo Hhi HPQ.
  exists a. repeat split; auto.
  eapply Forall_impl; [| exact Ht]. simpl. intros; lia.
Qed.

Lemma safe_value {A} lo hi (m : M A) P a :
  safe lo hi m P -> value m = Some a -> P a.
Proof. intros (a' & Hv & Ha & _) E. congruence. Qed.

Lemma safe_candle_at lo hi (cs : list Candle) (i : Z) :
  (0 <= i < array_length cs)%Z -> (lo <= i <= hi)%Z ->
  safe lo hi (candle_at cs i) (fun c => nth_error cs (Z.to_nat i) = Some c).
Proof.
  unfold array_length. intros Hi Hb.
  destruct (nth_error cs (Z.to_nat i)) as [c |] eqn:E.
  - exists c. unfold candle_at, value, trace. simpl.
    replace (0 <=? i)%Z with true by (symmetry; apply Z.leb_le; lia).
    repeat split; auto.
  - apply nth_error_None in E. lia.
Qed.

Lemma candle_at_value (cs : list Candle) (i : Z) (c : Candle) :
  (0 <= i)%Z -> value (candle_at cs i) = Some c ->
  nth_error cs (Z.to_nat i) = Some c.
Proof.
  intros Hi. unfold candle_at, value. simpl.
  now replace (0 <=? i)%Z with true by (symmetry; apply Z.leb_le; lia).
Qed.

Lemma safe_for_loop {S} lo hi (body : Z -> S -> M S) (I : Z -> S -> Prop) :
  forall (n : nat) (i : Z) (s : S),
    I i s ->
    (forall k s', (i <= k < i + Z.of_nat n)%Z -> I k s' ->
                  safe lo hi (body k s') (I (k + 1)%Z)) ->
    safe lo hi (for_loop n i body s) (I (i + Z.of_nat n)%Z).
Proof.
  induction n as [| n IH]; intros i s Hs Hbody.
  - simpl. apply safe_ret. now rewrite Z.add_0_r.
  - simpl for_loop. eapply safe_bind.
    + apply Hbody; [lia | exact Hs].
    + intros s' Hs'.
      replace (i + Z.of_nat (Datatypes.S n))%Z
        with ((i + 1) + Z.of_nat n)%Z by lia.
      apply IH; trivial. intros k s'' Hk. apply Hbody. lia.
Qed.

(* ===================================================================== *)
(** ** The indicators *)
(* ===================================================================== *)

Lemma positions_snoc (lo : Z) (n : nat) :
  positions lo (Datatypes.S n) = positions lo n ++ [(lo + Z.of_nat n)%Z].
Proof.
  revert lo. induction n as [| n IH]; intro lo.
  - simpl. now rewrite Z.add_0_r.
  - change (positions lo (Datatypes.S (Datatypes.S n)))
      with (lo :: positions (lo + 1) (Datatypes.S n)).
    rewrite IH, Nat2Z.inj_succ.
    change (positions lo (Datatypes.S n)) with (lo :: positions (lo + 1) n).
    simpl app. do 3 f_equal. lia.
Qed.

Lemma positions_length (lo : Z) (n : nat) : length (positions lo n) = n.
Proof. revert lo. induction n; intro lo; simpl; auto. Qed.

Lemma positions_bounds (lo : Z) (n : nat) :
  Forall (fun p => (lo <= p < lo + Z.of_nat n)%Z) (positions lo n).
Proof.
  revert lo. induction n as [| n IH]; intro lo; simpl positions.
  - constructor.
  - constructor; [lia |].
    eapply Forall_impl; [| apply IH]. simpl. intros; lia.
Qed.

Lemma Qsum_app (l1 l2 : list Q) : Qsum (l1 ++ l2) == Qsum l1 + Qsum l2.
Proof.
  induction l1 as [| a l1 IH]; simpl.
  - lra.
  - rewrite IH. lra.
Qed.

Lemma Qsum_nonneg (l : list Q) : Forall (fun x => 0 <= x) l -> 0 <= Qsum l.
Proof.
  induction 1 as [| a l Ha _ IH]; simpl; lra.
Qed.

Lemma gain_at_nonneg cs k : 0 <= gain_at cs k.
Proof.
  unfold gain_at. destruct (Qle_bool 0 (delta_at cs k)) eqn:E; qprop; lra.
Qed.

Lemma loss_at_nonneg cs k : 0 <= loss_at cs k.
Proof.
  unfold loss_at. destruct (Qle_bool 0 (delta_at cs k)) eqn:E; [lra |].
  assert (~ 0 <= delta_at cs k) as Hn
      by (intro Hle; apply Qle_bool_iff in Hle; congruence).
  lra.
Qed.

Lemma summed_gains_nonneg cs i : 0 <= summed_gains cs i.
Proof.
  apply Qsum_nonneg, Forall_map, Forall_forall. intros; apply gain_at_nonneg.
Qed.

Lemma summed_losses_nonneg cs i : 0 <= summed_losses cs i.
Proof.
  apply Qsum_nonneg, Forall_map, Forall_forall. intros; apply loss_at_nonneg.
Qed.

Lemma rsi_of_range (g l : Q) : 0 <= g -> 0 <= l -> 0 <= rsi_of g l <= 100.
Proof.
  intros Hg Hl. unfold rsi_of.
  destruct (Qeq_bool l 0) eqn:E; qprop; [lra |].
  assert (0 < l / 14) as Hl14 by (apply Qlt_shift_div_l; lra).
  assert (0 <= g / 14) as Hg14 by (apply Qle_shift_div_l; lra).
  assert (0 <= (g / 14) / (l / 14)) as Hrs
      by (apply Qle_shift_div_l; [exact Hl14 | lra]).
  set (rs := (g / 14) / (l / 14)) in *.
  assert (0 <= 100 / (1 + rs)) by (apply Qle_shift_div_l; lra).
  assert (100 / (1 + rs) <= 100) by (apply Qle_shift_div_r; lra).
  lra.
Qed.

Lemma rsi_of_compat (g g' l l' : Q) :
  g == g' -> l == l' -> rsi_of g l == rsi_of g' l'.
Proof.
  intros Hg Hl. unfold rsi_of.
  destruct (Qeq_bool l 0) eqn:E, (Qeq_bool l' 0) eqn:E'; qprop;
    try reflexivity; try (exfalso; lra).
  now rewrite Hg, Hl.
Qed.

Section Indicators.
Context `{MathSqrt}.

Lemma rsi_step_safe cs k g l :
  (1 <= k < array_length cs)%Z ->
  safe (k - 1) k (rsi_step cs k (Fin g, Fin l))
       (fun s => exists g' l', s = (Fin g', Fin l')
                   /\ g' == g + gain_at cs k /\ l' == l + loss_at cs k).
Proof.
  intro Hk. unfold rsi_step.
  eapply safe_bind; [apply safe_candle_at; lia |]. intros ci Hci.
  eapply safe_bind; [apply safe_candle_at; lia |]. intros ci1 Hci1.
  simpl in Hci, Hci1.
  assert (delta_at cs k = close ci - close ci1) as Hd
      by (unfold delta_at, close_at; now rewrite Hci, Hci1).
  unfold gain_at, loss_at. rewrite Hd.
  unfold jsge, jsle. simpl. unfold Qlt_bool. rewrite !negb_involutive.
  unfold Qminus.
  destruct (Qle_bool 0 (close ci + - close ci1)) eqn:E; apply safe_ret.
  - exists (g + (close ci + - close ci1)), l. repeat split; lra.
  - exists g, (l + - (close ci + - close ci1)). repeat split; lra.
Qed.

Lemma rsi_loop_safe cs lo (n : nat) :
  (1 <= lo)%Z -> (lo + Z.of_nat n <= array_length cs)%Z ->
  safe (lo - 1) (lo + Z.of_nat n - 1)
       (for_loop n lo (rsi_step cs) (Fin 0, Fin 0))
       (fun s => exists g l, s = (Fin g, Fin l)
                   /\ g == Qsum (map (gain_at cs) (positions lo n))
                   /\ l == Qsum (map (loss_at cs) (positions lo n))).
Proof.
  intros Hlo Hhi.
  pose (I := fun (k : Z) (s : jsnum * jsnum) =>
    exists g l, s = (Fin g, Fin l)
      /\ g == Qsum (map (gain_at cs) (positions lo (Z.to_nat (k - lo))))
      /\ l == Qsum (map (loss_at cs) (positions lo (Z.to_nat (k - lo))))).
  eapply safe_weaken with (lo := (lo - 1)%Z) (hi := (lo + Z.of_nat n - 1)%Z)
                          (P := I (lo + Z.of_nat n)%Z);
    [apply safe_for_loop | lia | lia |].
  - exists 0, 0. rewrite Z.sub_diag. simpl. repeat split; reflexivity.
  - intros k s Hk (g & l & -> & Hg & Hl).
    eapply safe_weaken; [apply rsi_step_safe; lia | lia | lia |].
    intros s' (g' & l' & -> & Hg' & Hl'). exists g', l'.
    replace (Z.to_nat (k + 1 - lo)) with (Datatypes.S (Z.to_nat (k - lo)))
      by lia.
    rewrite positions_snoc, !map_app, !Qsum_app. simpl.
    replace (lo + Z.of_nat (Z.to_nat (k - lo)))%Z with k by lia.
    repeat split; lra.
  - intros s (g & l & -> & Hg & Hl). exists g, l.
    replace (Z.to_nat (lo + Z.of_nat n - lo)) with n in * by lia.
    auto.
Qed.

(** [calculateRSIValue] with a full window behind the index. *)
Lemma calculateRSIValue_window cs i :
  (14 <= i < array_length cs)%Z ->
  safe (i - 14) i (calculateRSIValue cs i)
       (fun v => exists g l,
          g == summed_gains cs i /\ l == summed_losses cs i
          /\ v = Fin (rsi_of g l)).
Proof.
  intro Hi. unfold calculateRSIValue, RSI_PERIOD.
  replace (i <? 14)%Z with false by (symmetry; apply Z.ltb_ge; lia).
  unfold for_range.
  replace (Z.to_nat (i - (i - 14 + 1) + 1)) with 14%nat by lia.
  eapply safe_bind.
  - eapply safe_weaken;
      [apply rsi_loop_safe with (n := 14%nat); lia | lia | lia |].
    intros s Hs. exact Hs.
  - intros s (g & l & -> & Hg & Hl).
    replace (i - 14 + 1)%Z with (i - 13)%Z in * by lia.
    fold (summed_gains cs i) in Hg. fold (summed_losses cs i) in Hl.
    pose proof (summed_gains_nonneg cs i) as Hg0.
    pose proof (summed_losses_nonneg cs i) as Hl0.
    apply safe_ret_eq with (a := Fin (rsi_of g l));
      [| exists g, l; split; [exact Hg | split; [exact Hl | reflexivity]]].
    unfold rsi_of. simpl jseq.
    destruct (Qeq_bool l 0) eqn:E; [reflexivity |].
    qprop.
    assert (0 < l / 14) as Hl14 by (apply Qlt_shift_div_l; lra).
    assert (0 <= g / 14) as Hg14 by (apply Qle_shift_div_l; lra).
    assert (0 <= (g / 14) / (l / 14)) as Hrs
        by (apply Qle_shift_div_l; [exact Hl14 | lra]).
    change (Fin (inject_Z 14)) with (Fin 14).
    rewrite (jsdiv_fin g 14) by lra.
    rewrite (jsdiv_fin l 14) by lra.
    rewrite jsdiv_fin by lra.
    change (jsadd (Fin 1) (Fin (g / 14 / (l / 14))))
      with (Fin (1 + g / 14 / (l / 14))).
    rewrite jsdiv_fin by lra.
    reflexivity.
Qed.

Lemma calculateRSIValue_early cs i :
  (i < 14)%Z -> calculateRSIValue cs i = ret (Fin 50).
Proof.
  intro Hi. unfold calculateRSIValue, RSI_PERIOD.
  now replace (i <? 14)%Z with true by (symmetry; apply Z.ltb_lt; lia).
Qed.

Lemma calculateRSIValue_safe cs i :
  (0 <= i < array_length cs)%Z ->
  safe (i - 14) i (calculateRSIValue cs i) (within 0 100).
Proof.
  intro Hi. destruct (Z_lt_ge_dec i 14) as [Hlt | Hge].
  - rewrite calculateRSIValue_early by exact Hlt.
    apply safe_ret. simpl. lra.
  - eapply safe_weaken;
      [apply calculateRSIValue_window; lia | lia | lia |].
    intros v (g & l & Hg & Hl & ->). simpl.
    apply rsi_of_range; [rewrite Hg | rewrite Hl];
      [apply summed_gains_nonneg | apply summed_losses_nonneg].
Qed.

Lemma rsi_at_value cs k :
  (0 <= k < array_length cs)%Z ->
  value (calculateRSIValue cs k) = Some (rsi_at cs k)
  /\ within 0 100 (rsi_at cs k).
Proof.
  intro Hk. destruct (calculateRSIValue_safe cs k Hk) as (v & Hv & Hr & _).
  unfold rsi_at. rewrite Hv. auto.
Qed.

Lemma calculateRSIValue_rsi_at cs k :
  (0 <= k < array_length cs)%Z ->
  safe (k - 14) k (calculateRSIValue cs k) (fun v => v = rsi_at cs k).
Proof.
  intro Hk. destruct (calculateRSIValue_safe cs k Hk) as (v & Hv & _ & Ht).
  exists v. repeat split; trivial. unfold rsi_at. now rewrite Hv.
Qed.

Lemma stoch_loop_safe cs lo (n : nat) acc :
  (0 <= lo)%Z -> (lo + Z.of_nat n <= array_length cs)%Z ->
  safe (lo - 14) (lo + Z.of_nat n - 1)
       (for_loop n lo (stoch_step cs) acc)
       (fun vals => vals = acc ++ map (rsi_at cs) (positions lo n)).
Proof.
  intros Hlo Hhi.
  pose (I := fun (k : Z) (vals : list jsnum) =>
    vals = acc ++ map (rsi_at cs) (positions lo (Z.to_nat (k - lo)))).
  eapply safe_weaken with (lo := (lo - 14)%Z) (hi := (lo + Z.of_nat n - 1)%Z)
                          (P := I (lo + Z.of_nat n)%Z);
    [apply safe_for_loop | lia | lia |].
  - unfold I. rewrite Z.sub_diag. simpl. now rewrite app_nil_r.
  - intros k vals Hk ->. unfold stoch_step.
    eapply safe_bind.
    + eapply safe_weaken;
        [apply calculateRSIValue_rsi_at; lia | lia | lia |].
      intros v Hv. exact Hv.
    + intros v ->. apply safe_ret. unfold I.
      replace (Z.to_nat (k + 1 - lo)) with (Datatypes.S (Z.to_nat (k - lo)))
        by lia.
      rewrite positions_snoc, map_app, app_assoc. simpl.
      now replace (lo + Z.of_nat (Z.to_nat (k - lo)))%Z with k by lia.
  - intros vals ->.
    now replace (Z.to_nat (lo + Z.of_nat n - lo)) with n by lia.
Qed.

Lemma calculateStochRSI_early cs i :
  (i < 28)%Z -> calculateStochRSI cs i = ret (Fin 50).
Proof.
  intro Hi. unfold calculateStochRSI, RSI_PERIOD, STOCH_PERIOD.
  now replace (i <? 14 + 14)%Z with true by (symmetry; apply Z.ltb_lt; lia).
Qed.

(** [calculateStochRSI] with a full window behind the index. *)
Lemma calculateStochRSI_window cs i :
  (28 <= i < array_length cs)%Z ->
  safe (i - 27) i (calculateStochRSI cs i)
       (fun v => v = stoch_of (rsi_window cs i)).
Proof.
  intro Hi. unfold calculateStochRSI, RSI_PERIOD, STOCH_PERIOD.
  replace (i <? 14 + 14)%Z with false by (symmetry; apply Z.ltb_ge; lia).
  unfold for_range.
  replace (Z.to_nat (i - (i - 14 + 1) + 1)) with 14%nat by lia.
  replace (i - 14 + 1)%Z with (i - 13)%Z by lia.
  eapply safe_bind.
  - eapply safe_weaken;
      [apply stoch_loop_safe with (n := 14%nat); lia | lia | lia |].
    intros vals Hvals. exact Hvals.
  - intros vals ->. rewrite app_nil_l. fold (rsi_window cs i).
    unfold stoch_of.
    destruct (jseq (Math_max (rsi_window cs i)) (Math_min (rsi_window cs i)));
      now apply safe_ret.
Qed.

(** A list of finite numbers in a range, read off pointwise. *)
Lemma map_fin_within {A} (f : A -> jsnum) lo hi (l : list A) :
  Forall (fun a => within lo hi (f a)) l ->
  exists qs, map f l = map Fin qs /\ length qs = length l
             /\ Forall (fun q => lo <= q <= hi) qs.
Proof.
  induction 1 as [| a l Ha _ (qs & E & Hlen & Hqs)].
  - exists []. simpl. auto.
  - destruct (f a) as [q | | |] eqn:Ef; simpl in Ha; try contradiction.
    exists (q :: qs). simpl. rewrite Ef, E, Hlen. auto.
Qed.

Lemma rsi_window_fin cs i :
  (13 <= i < array_length cs)%Z ->
  exists qs, rsi_window cs i = map Fin qs /\ length qs = 14%nat
             /\ Forall (fun q => 0 <= q <= 100) qs.
Proof.
  intro Hi. unfold rsi_window.
  destruct (map_fin_within (rsi_at cs) 0 100 (positions (i - 13) 14))
    as (qs & E & Hlen & Hqs).
  - eapply Forall_impl; [| apply positions_bounds].
    simpl. intros k Hk. apply rsi_at_value. lia.
  - exists qs. rewrite positions_length in Hlen. auto.
Qed.

Lemma stoch_of_range (qs : list Q) :
  qs <> [] -> Forall (fun q => 0 <= q <= 100) qs ->
  within 0 100 (stoch_of (map Fin qs)).
Proof.
  intros Hne Hqs. destruct qs as [| a l]; [congruence |].
  destruct (Math_min_fin a l) as (mn & Emn & Hmn & _).
  destruct (Math_max_fin a l) as (mx & Emx & Hmx & _).
  unfold stoch_of. rewrite Emn, Emx, length_map.
  set (n := (length (a :: l) - 1)%nat).
  assert (n < length (a :: l))%nat as Hn by (unfold n; simpl; lia).
  rewrite (nth_indep _ NaN (Fin 0)) by (now rewrite length_map).
  rewrite (map_nth Fin).
  set (cur := nth n (a :: l) 0).
  assert (In cur (a :: l)) as Hin by (apply nth_In; exact Hn).
  assert (mn <= cur) as Hlo by (exact (proj1 (Forall_forall _ _) Hmn _ Hin)).
  assert (cur <= mx) as Hhi by (exact (proj1 (Forall_forall _ _) Hmx _ Hin)).
  simpl jseq. destruct (Qeq_bool mx mn) eqn:E; qprop; [simpl; lra |].
  unfold jssub. simpl jsneg. simpl jsadd.
  rewrite jsdiv_fin by lra. simpl.
  assert (0 <= (cur + - mn) / (mx + - mn)) by (apply Qle_shift_div_l; lra).
  assert ((cur + - mn) / (mx + - mn) <= 1) by (apply Qle_shift_div_r; lra).
  lra.
Qed.

Lemma calculateStochRSI_safe cs i :
  (0 <= i < array_length cs)%Z ->
  safe (i - 27) i (calculateStochRSI cs i) (within 0 100).
Proof.
  intro Hi. destruct (Z_lt_ge_dec i 28) as [Hlt | Hge].
  - rewrite calculateStochRSI_early by exact Hlt.
    apply safe_ret. simpl. lra.
  - eapply safe_weaken;
      [apply calculateStochRSI_window; lia | lia | lia |].
    intros v ->.
    destruct (rsi_window_fin cs i) as (qs & -> & Hlen & Hqs); [lia |].
    apply stoch_of_range; trivial.
    intros ->. discriminate.
Qed.


Lemma skipn_nth_error {A} (l : list A) (k : nat) (a : A) :
  nth_error l k = Some a -> skipn k l = a :: skipn (Datatypes.S k) l.
Proof.
  revert l. induction k as [| k IH]; intros [| b l] E; try discriminate.
  - now injection E as ->.
  - simpl in E. apply (IH l E).
Qed.

(** The candles between two positions, read off position by position. *)
Lemma map_window {A} (f : Candle -> A) (g : Z -> A) (cs : list Candle) :
  (forall p c, (0 <= p)%Z -> nth_error cs (Z.to_nat p) = Some c -> g p = f c) ->
  forall (n : nat) (k : Z),
    (0 <= k)%Z -> (k + Z.of_nat n <= array_length cs)%Z ->
    map f (firstn n (skipn (Z.to_nat k) cs)) = map g (positions k n).
Proof.
  intros Hfg. unfold array_length.
  induction n as [| n IH]; intros k Hk Hlen; [reflexivity |].
  destruct (nth_error cs (Z.to_nat k)) as [c |] eqn:E.
  - rewrite (skipn_nth_error _ _ _ E), firstn_cons, map_cons.
    change (positions k (Datatypes.S n)) with (k :: positions (k + 1) n).
    rewrite map_cons, (Hfg k c Hk E). f_equal.
    replace (Datatypes.S (Z.to_nat k)) with (Z.to_nat (k + 1)) by lia.
    apply IH; lia.
  - apply nth_error_None in E. lia.
Qed.

Lemma slice_in_bounds (cs : list Candle) (a b : Z) :
  (0 <= a <= b)%Z -> (b <= array_length cs)%Z ->
  slice cs a b
  = (Some (firstn (Z.to_nat (b - a)) (skipn (Z.to_nat a) cs)),
     positions a (Z.to_nat (b - a))).
Proof.
  intros Hab Hb. unfold slice.
  replace (a <? 0)%Z with false by (symmetry; apply Z.ltb_ge; lia).
  replace (b <? 0)%Z with false by (symmetry; apply Z.ltb_ge; lia).
  now rewrite !Z.min_l by lia.
Qed.

Lemma slice_safe (cs : list Candle) (a b : Z) :
  (0 <= a <= b)%Z -> (b <= array_length cs)%Z ->
  safe a (b - 1) (slice cs a b)
       (fun l => l = firstn (Z.to_nat (b - a)) (skipn (Z.to_nat a) cs)).
Proof.
  intros Hab Hb. rewrite slice_in_bounds by assumption.
  eexists. simpl. repeat split.
  eapply Forall_impl; [| apply positions_bounds]. simpl. intros; lia.
Qed.


Lemma Qsum_squares_nonneg (m : Q) (l : list Q) :
  0 <= Qsum (map (fun x => (x - m) * (x - m)) l).
Proof.
  induction l as [| a l IH]; simpl; [lra |].
  assert (0 <= (a - m) * (a - m)) by (set (y := a - m); nra). lra.
Qed.

Lemma Qsum_map_ext (f g : Q -> Q) (l : list Q) :
  (forall x, f x == g x) -> Qsum (map f l) == Qsum (map g l).
Proof.
  intro Hfg. induction l as [| a l IH]; simpl; [reflexivity |].
  now rewrite IH, Hfg.
Qed.

(** The bands computed from a window of 20 candles. *)
Lemma bands_of_window (w : list Candle) :
  let closes := map close w in
  exists m v,
    m == Qsum closes / 20
    /\ v == Qsum (map (fun x => (x - m) * (x - m)) closes) / 20
    /\ 0 <= v
    /\ (let sma := jsdiv (fold_left (fun sum c => jsadd sum (Fin (close c)))
                                    w (Fin 0)) (Fin (inject_Z BB_PERIOD)) in
        let variance :=
          jsdiv (fold_left
                   (fun sum c =>
                      jsadd sum (jssquare (jssub (Fin (close c)) sma)))
                   w (Fin 0)) (Fin (inject_Z BB_PERIOD)) in
        mkBands sma (jsadd sma (jsmul (Fin BB_STD_DEV) (jssqrt variance)))
                (jssub sma (jsmul (Fin BB_STD_DEV) (jssqrt variance))))
       = mkBands (Fin m) (Fin (m + BB_STD_DEV * math_sqrt v))
                 (Fin (m - BB_STD_DEV * math_sqrt v)).
Proof.
  intro closes.
  destruct (fold_add_fin close w 0) as (s & Es & Hs).
  change (Fin (inject_Z BB_PERIOD)) with (Fin 20).
  cbv zeta. rewrite Es, (jsdiv_fin s 20) by lra.
  set (m := s / 20).
  destruct (fold_add_fin (fun c => (close c + - m) * (close c + - m)) w 0)
    as (s2 & Es2 & Hs2).
  change (fold_left
            (fun sum c => jsadd sum (jssquare (jssub (Fin (close c)) (Fin m))))
            w (Fin 0))
    with (fold_left
            (fun sum c => jsadd sum (Fin ((close c + - m) * (close c + - m))))
            w (Fin 0)).
  rewrite Es2, (jsdiv_fin s2 20) by lra.
  assert (s2 == Qsum (map (fun x => (x - m) * (x - m)) closes)) as Hs2'.
  { rewrite Hs2. unfold closes. rewrite map_map. unfold Qminus. lra. }
  assert (0 <= s2 / 20) as Hv.
  { apply Qle_shift_div_l; [lra |]. rewrite Hs2'.
    pose proof (Qsum_squares_nonneg m closes). lra. }
  exists m, (s2 / 20). repeat split.
  - unfold m. rewrite Hs. fold closes. now rewrite Qplus_0_l.
  - now rewrite Hs2'.
  - exact Hv.
  - unfold jssqrt.
    replace (Qlt_bool (s2 / 20) 0) with false
      by (symmetry; now apply Qlt_bool_false_iff).
    reflexivity.
Qed.

(** [calculateBollingerBands] with a full window behind the index. *)
Lemma calculateBollingerBands_window cs i :
  (20 <= i < array_length cs)%Z ->
  safe (i - 19) i (calculateBollingerBands cs i)
       (fun r => exists m v,
          m == sma20 cs i /\ v == variance20 cs i
          /\ r = Some (mkBands (Fin m) (Fin (m + BB_STD_DEV * math_sqrt v))
                               (Fin (m - BB_STD_DEV * math_sqrt v)))).
Proof.
  intro Hi. unfold calculateBollingerBands, BB_PERIOD.
  replace (i <? 20)%Z with false by (symmetry; apply Z.ltb_ge; lia).
  replace (i - 20 + 1)%Z with (i - 19)%Z by lia.
  eapply safe_bind.
  - eapply safe_weaken; [apply slice_safe; lia | lia | lia |].
    intros l Hl. exact Hl.
  - intros w ->. apply safe_ret.
    replace (Z.to_nat (i + 1 - (i - 19))) with 20%nat by lia.
    set (w := firstn 20 (skipn (Z.to_nat (i - 19)) cs)).
    assert (map close w = window_closes cs i) as Hw.
    { unfold w, window_closes. apply map_window; try lia.
      intros p c _ E. unfold close_at. now rewrite E. }
    destruct (bands_of_window w) as (m & v & Hm & Hvar & _ & E).
    unfold BB_PERIOD in E. cbv zeta in E. cbv zeta.
    rewrite E. rewrite Hw in Hm, Hvar.
    exists m, v. repeat split; trivial.
    unfold variance20. rewrite Hvar.
    fold (sma20 cs i) in Hm.
    assert (Qsum (map (fun x => (x - m) * (x - m)) (window_closes cs i))
            == Qsum (map (fun x => (x - sma20 cs i) * (x - sma20 cs i))
                         (window_closes cs i))) as ->.
    { apply Qsum_map_ext. intro x. now rewrite Hm. }
    reflexivity.
Qed.

Lemma calculateBollingerBands_null cs i :
  value (calculateBollingerBands cs i) = Some None <-> (i < 20)%Z.
Proof.
  unfold calculateBollingerBands, BB_PERIOD, slice.
  destruct (i <? 20)%Z eqn:E.
  - apply Z.ltb_lt in E. simpl. tauto.
  - apply Z.ltb_ge in E. cbv [bind ret value fst]. split.
    + discriminate.
    + lia.
Qed.

End Indicators.

(* ===================================================================== *)
(** ** The indicators in double precision *)
(* ===================================================================== *)

Lemma num_le_fin_inv (c : Q) (x : jsnum) :
  num_le (Fin c) x -> x = PInf \/ exists q, x = Fin q /\ c <= q.
Proof.
  destruct x as [q | | |]; simpl; intro Hx; try contradiction.
  - right. now exists q.
  - now left.
Qed.

Lemma pow2_pos (e : Z) : 0 < pow2 e.
Proof. unfold pow2. apply Qpower_0_lt. reflexivity. Qed.

Lemma pow2_le (a b : Z) : (a <= b)%Z -> pow2 a <= pow2 b.
Proof. intro Hab. unfold pow2. apply Qpower_le_compat_l; [exact Hab |]. discriminate. Qed.

Lemma pow2_lt (a b : Z) : (a < b)%Z -> pow2 a < pow2 b.
Proof. intro Hab. unfold pow2. apply Qpower_lt_compat_l; [exact Hab |]. reflexivity. Qed.

Lemma pow2_add (a b : Z) : pow2 (a + b) == pow2 a * pow2 b.
Proof. unfold pow2. apply Qpower_plus. discriminate. Qed.

Lemma pow2_succ (a : Z) : pow2 (a + 1) == 2 * pow2 a.
Proof. rewrite pow2_add. change (pow2 1) with 2. ring. Qed.

Lemma pow2_inv (e : Z) : pow2 e * pow2 (- e) == 1.
Proof.
  rewrite <- pow2_add. now replace (e + - e)%Z with 0%Z by lia.
Qed.

Lemma on_grid_compat (e : Z) (q q' : Q) :
  q == q' -> on_grid e q -> on_grid e q'.
Proof. intros E (k & Hk). exists k. now rewrite <- E. Qed.

Lemma on_grid_sub (e : Z) (a b : Q) :
  on_grid e a -> on_grid e b -> on_grid e (a + - b).
Proof.
  intros (k & Hk) (j & Hj). exists (k - j)%Z.
  rewrite Hk, Hj. unfold Z.sub. rewrite inject_Z_plus, inject_Z_opp. ring.
Qed.

Lemma on_grid_Z (e z : Z) : (e <= 0)%Z -> on_grid e (inject_Z z).
Proof.
  intro He. exists (z * 2 ^ (- e))%Z.
  rewrite inject_Z_mult, Zpower_Qpower by lia.
  change (inject_Z 2 ^ (- e)) with (pow2 (- e)).
  rewrite <- Qmult_assoc, (Qmult_comm (pow2 (- e))), pow2_inv. ring.
Qed.

(** A positive multiple of [2^e] is at least [2^e]. *)
Lemma on_grid_pos (e : Z) (q : Q) : on_grid e q -> 0 < q -> pow2 e <= q.
Proof.
  intros (k & Hk) Hq. pose proof (pow2_pos e) as He.
  assert (1 <= k)%Z as Hk1.
  { destruct (Z_lt_ge_dec k 1) as [Hlt | Hge]; [| lia].
    assert (inject_Z k <= 0) as Hle
        by (change 0 with (inject_Z 0); rewrite <- Zle_Qle; lia).
    rewrite Hk in Hq. nra. }
  assert (1 <= inject_Z k) as Hk1'
      by (change 1 with (inject_Z 1); rewrite <- Zle_Qle; lia).
  rewrite Hk. nra.
Qed.

Lemma on_grid_neg (e : Z) (q : Q) : on_grid e q -> q < 0 -> q <= - pow2 e.
Proof.
  intros Hg Hq.
  assert (on_grid e (- q)) as Hg'.
  { destruct Hg as (k & Hk). exists (- k)%Z.
    rewrite Hk, inject_Z_opp. ring. }
  pose proof (on_grid_pos e (- q) Hg' ltac:(lra)). lra.
Qed.

Lemma Math_min_nan (vals : list jsnum) : In NaN vals -> Math_min vals = NaN.
Proof.
  induction vals as [| v vals IH]; simpl; [tauto |].
  intros [-> | Hin]; [reflexivity |].
  change (Math_min (v :: vals)) with (jsmin v (Math_min vals)).
  rewrite (IH Hin). now destruct v.
Qed.

Lemma Math_max_nan (vals : list jsnum) : In NaN vals -> Math_max vals = NaN.
Proof.
  induction vals as [| v vals IH]; simpl; [tauto |].
  intros [-> | Hin]; [reflexivity |].
  change (Math_max (v :: vals)) with (jsmax v (Math_max vals)).
  rewrite (IH Hin). now destruct v.
Qed.

Lemma nan_or_all_within (lo hi : Q) (vals : list jsnum) :
  Forall (nan_or_within lo hi) vals ->
  In NaN vals \/ Forall (within lo hi) vals.
Proof.
  induction 1 as [| v vals [-> | Hv] _ [Hin | Hall]].
  - right. constructor.
  - left. now left.
  - left. now left.
  - left. now right.
  - right. now constructor.
Qed.

Lemma fin_list (P : Q -> Prop) (vals : list jsnum) :
  Forall (fun v => exists q, v = Fin q /\ P q) vals ->
  exists qs, vals = map Fin qs /\ Forall P qs.
Proof.
  induction 1 as [| v vals (q & -> & Hq) _ (qs & -> & Hqs)].
  - exists []. split; [reflexivity | constructor].
  - exists (q :: qs). split; [reflexivity | now constructor].
Qed.

Section RoundedArithmetic.
Context {R : Rounding} (laws : RoundingLaws R).

Lemma round_not_nan (q : Q) : round q <> NaN.
Proof.
  pose proof (round_monotone R laws q q (Qle_refl q)) as Hq.
  intro E. rewrite E in Hq. exact Hq.
Qed.

(** Between two doubles, the rounding stays. *)
Lemma round_lower (lo q : Q) :
  num_eq (round lo) (Fin lo) -> lo <= q -> num_le (Fin lo) (round q).
Proof.
  intros Hlo Hq. pose proof (round_monotone R laws lo q Hq) as Hm.
  destruct (round lo) as [a | | |]; simpl in Hlo; try contradiction.
  destruct (round q) as [b | | |]; simpl in *; try contradiction; trivial.
  lra.
Qed.

Lemma round_upper (q hi : Q) :
  num_eq (round hi) (Fin hi) -> q <= hi -> num_le (round q) (Fin hi).
Proof.
  intros Hhi Hq. pose proof (round_monotone R laws q hi Hq) as Hm.
  destruct (round hi) as [a | | |]; simpl in Hhi; try contradiction.
  destruct (round q) as [b | | |]; simpl in *; try contradiction; trivial.
  lra.
Qed.

Lemma round_between (lo q hi : Q) :
  num_eq (round lo) (Fin lo) -> num_eq (round hi) (Fin hi) ->
  lo <= q <= hi ->
  exists v, round q = Fin v /\ lo <= v <= hi.
Proof.
  intros Hlo Hhi [H1 H2].
  pose proof (round_lower lo q Hlo H1) as Hl.
  pose proof (round_upper q hi Hhi H2) as Hu.
  destruct (round q) as [v | | |]; simpl in *; try contradiction.
  exists v. split; [reflexivity | split; assumption].
Qed.

Lemma round_1 : num_eq (round 1) (Fin 1).
Proof. apply (proj1 (round_pow2 R laws 0 ltac:(lia))). Qed.

Lemma round_pow2_pos (e : Z) :
  (-1074 <= e <= 1023)%Z -> num_eq (round (pow2 e)) (Fin (pow2 e)).
Proof. intro He. apply (proj1 (round_pow2 R laws e He)). Qed.

Lemma round_pow2_neg (e : Z) :
  (-1074 <= e <= 1023)%Z -> num_eq (round (- pow2 e)) (Fin (- pow2 e)).
Proof. intro He. apply (proj2 (round_pow2 R laws e He)). Qed.

Lemma round_nonneg (q : Q) : 0 <= q -> num_le (Fin 0) (round q).
Proof. apply round_lower. apply (round_0 R laws). Qed.

Lemma jsge_zero_inv (x : jsnum) :
  jsge x (Fin 0) = true -> num_le (Fin 0) x.
Proof.
  destruct x as [c | | |]; unfold jsge, jsle; simpl; try discriminate; trivial.
  rewrite negb_true_iff. apply Qlt_bool_false_iff.
Qed.

Lemma jsge_zero_false_inv (x : jsnum) :
  jsge x (Fin 0) = false -> x <> NaN -> num_le (Fin 0) (jsneg x).
Proof.
  destruct x as [c | | |]; unfold jsge, jsle; simpl; try discriminate;
    trivial; [| congruence].
  rewrite negb_false_iff. intros Hc _. apply Qlt_bool_iff in Hc. lra.
Qed.

(** The operations on the numbers that are zero or more, [+Infinity]
    included. *)
Lemma add_nonneg (x y : jsnum) :
  num_le (Fin 0) x -> num_le (Fin 0) y -> num_le (Fin 0) (Rounded.add x y).
Proof.
  intros Hx Hy. unfold Rounded.add.
  destruct (num_le_fin_inv _ _ Hx) as [-> | (a & -> & Ha)];
    destruct (num_le_fin_inv _ _ Hy) as [-> | (b & -> & Hb)]; simpl; trivial.
  apply round_nonneg. lra.
Qed.

Lemma div_positive (x : jsnum) (c : Q) :
  0 < c -> num_le (Fin 0) x -> num_le (Fin 0) (Rounded.div x (Fin c)).
Proof.
  intros Hc Hx. unfold Rounded.div.
  destruct (num_le_fin_inv _ _ Hx) as [-> | (a & -> & Ha)].
  - simpl. replace (Qlt_bool c 0) with false
      by (symmetry; apply Qlt_bool_false_iff; lra).
    exact I.
  - rewrite jsdiv_fin by lra. simpl. apply round_nonneg.
    apply Qle_shift_div_l; lra.
Qed.

Lemma div_nonneg (x y : jsnum) :
  num_le (Fin 0) x -> num_le (Fin 0) y ->
  Rounded.div x y = NaN \/ num_le (Fin 0) (Rounded.div x y).
Proof.
  intros Hx Hy.
  destruct (num_le_fin_inv _ _ Hy) as [-> | (b & -> & Hb)].
  - destruct (num_le_fin_inv _ _ Hx) as [-> | (a & -> & Ha)].
    + left. reflexivity.
    + right. unfold Rounded.div. simpl. apply round_nonneg. lra.
  - destruct (Qeq_bool b 0) eqn:E.
    + unfold Rounded.div.
      destruct (num_le_fin_inv _ _ Hx) as [-> | (a & -> & Ha)].
      * right. simpl.
        replace (Qlt_bool b 0) with false
          by (symmetry; apply Qlt_bool_false_iff; lra).
        exact I.
      * simpl. rewrite E.
        destruct (Qlt_bool 0 a) eqn:E1; [right; exact I |].
        destruct (Qlt_bool a 0) eqn:E2; [| left; reflexivity].
        qprop. lra.
    + right. apply div_positive; trivial. qprop. lra.
Qed.

Lemma sub_100_within (y : Q) :
  0 <= y <= 100 -> within 0 100 (Rounded.sub (Fin 100) (Fin y)).
Proof.
  intro Hy. unfold Rounded.sub, jssub. simpl.
  destruct (round_between 0 (100 + - y) 100) as (v & -> & Hv);
    [apply (round_0 R laws) | apply (round_100 R laws) | lra |].
  exact Hv.
Qed.

Lemma div_100_inf_within :
  within 0 100 (Rounded.sub (Fin 100) (Rounded.div (Fin 100) PInf)).
Proof.
  unfold Rounded.div. simpl.
  destruct (round_between 0 0 100) as (v & -> & Hv);
    [apply (round_0 R laws) | apply (round_100 R laws) | lra |].
  apply sub_100_within. exact Hv.
Qed.

(** The last line of [calculateRSIValue]. *)
Lemma rsi_formula_within (rs : jsnum) :
  num_le (Fin 0) rs ->
  within 0 100
    (Rounded.sub (Fin 100) (Rounded.div (Fin 100) (Rounded.add (Fin 1) rs))).
Proof.
  intro Hrs.
  assert (num_le (Fin 1) (Rounded.add (Fin 1) rs)) as Hone.
  { unfold Rounded.add.
    destruct (num_le_fin_inv _ _ Hrs) as [-> | (r & -> & Hr)]; [exact I |].
    simpl. apply round_lower; [apply round_1 | lra]. }
  destruct (num_le_fin_inv _ _ Hone) as [-> | (x & -> & Hx)].
  - apply div_100_inf_within.
  - unfold Rounded.div. rewrite jsdiv_fin by lra. simpl.
    destruct (round_between 0 (100 / x) 100) as (y & -> & Hy);
      [apply (round_0 R laws) | apply (round_100 R laws) | |].
    + split; [apply Qle_shift_div_l | apply Qle_shift_div_r]; lra.
    + apply sub_100_within. exact Hy.
Qed.

(** One turn of the loop of [calculateRSIValue] keeps the two sums at zero
    or more. *)
Lemma rounded_rsi_step_safe cs k (s : jsnum * jsnum) :
  (1 <= k < array_length cs)%Z ->
  num_le (Fin 0) (fst s) /\ num_le (Fin 0) (snd s) ->
  safe (k - 1) k (Rounded.rsi_step cs k s)
       (fun s' => num_le (Fin 0) (fst s') /\ num_le (Fin 0) (snd s')).
Proof.
  intros Hk [Hg Hl]. destruct s as [gains losses]. unfold Rounded.rsi_step.
  eapply safe_bind; [apply safe_candle_at; lia |]. intros ci _.
  eapply safe_bind; [apply safe_candle_at; lia |]. intros ci1 _.
  cbv zeta.
  set (change := Rounded.sub (Fin (close ci)) (Fin (close ci1))).
  assert (change <> NaN) as Hnan by (apply round_not_nan).
  destruct (jsge change (Fin 0)) eqn:E; apply safe_ret; simpl; split; trivial.
  - apply add_nonneg; [exact Hg | now apply jsge_zero_inv].
  - apply (add_nonneg losses (jsneg change)); [exact Hl |].
    now apply jsge_zero_false_inv.
Qed.

Lemma rounded_rsi_early cs i :
  (i < 14)%Z -> Rounded.calculateRSIValue cs i = ret (Fin 50).
Proof.
  intro Hi. unfold Rounded.calculateRSIValue, RSI_PERIOD.
  now replace (i <? 14)%Z with true by (symmetry; apply Z.ltb_lt; lia).
Qed.

(** [calculateRSIValue] on doubles: [NaN], or a number from 0 to 100. *)
Lemma rounded_rsi_safe cs i :
  (0 <= i < array_length cs)%Z ->
  safe (i - 14) i (Rounded.calculateRSIValue cs i) (nan_or_within 0 100).
Proof.
  intro Hi. destruct (Z_lt_ge_dec i 14) as [Hlt | Hge].
  - rewrite rounded_rsi_early by exact Hlt.
    apply safe_ret. right. simpl. lra.
  - unfold Rounded.calculateRSIValue, RSI_PERIOD.
    replace (i <? 14)%Z with false by (symmetry; apply Z.ltb_ge; lia).
    unfold for_range.
    replace (Z.to_nat (i - (i - 14 + 1) + 1)) with 14%nat by lia.
    eapply safe_bind.
    + eapply safe_weaken with
        (P := fun s => num_le (Fin 0) (fst s) /\ num_le (Fin 0) (snd s));
        [apply (safe_for_loop (i - 14) i _ (fun _ s => num_le (Fin 0) (fst s)
                                               /\ num_le (Fin 0) (snd s)))
        | apply Z.le_refl | apply Z.le_refl | ].
      * simpl. split; apply Qle_refl.
      * intros k s Hk Hs.
        eapply safe_weaken; [apply rounded_rsi_step_safe; [lia | exact Hs]
                            | lia | lia | trivial].
      * intros a Ha. exact Ha.
    + intros [gains losses] [Hg Hl]. simpl in Hg, Hl. cbv beta iota zeta.
      destruct (jseq losses (Fin 0)); apply safe_ret.
      * right. simpl. lra.
      * change (Fin (inject_Z 14)) with (Fin 14).
        destruct (div_nonneg (Rounded.div gains (Fin 14))
                             (Rounded.div losses (Fin 14))) as [-> | Hrs].
        -- apply div_positive; [reflexivity | exact Hg].
        -- apply div_positive; [reflexivity | exact Hl].
        -- left. reflexivity.
        -- right. now apply rsi_formula_within.
Qed.

(** The tail of [calculateStochRSI] on finite values from 0 to 100: [NaN]
    or a number from 0 to 100, and a number as soon as the difference of
    two values of the window is not rounded to zero. *)
Lemma rounded_stoch_fin (qs : list Q) :
  qs <> [] -> Forall (fun q => 0 <= q <= 100) qs ->
  nan_or_within 0 100 (rounded_stoch_of (map Fin qs))
  /\ (Forall (on_grid (-1074)) qs ->
      within 0 100 (rounded_stoch_of (map Fin qs))).
Proof.
  intros Hne Hqs. destruct qs as [| a l]; [congruence |].
  destruct (Math_min_fin a l) as (mn & Emn & Hmn & Xmn).
  destruct (Math_max_fin a l) as (mx & Emx & Hmx & Xmx).
  unfold rounded_stoch_of. rewrite Emn, Emx, length_map.
  set (n := (length (a :: l) - 1)%nat).
  assert (n < length (a :: l))%nat as Hn by (unfold n; simpl; lia).
  rewrite (nth_indep _ NaN (Fin 0)) by (now rewrite length_map).
  rewrite (map_nth Fin).
  set (cur := nth n (a :: l) 0).
  assert (In cur (a :: l)) as Hin by (apply nth_In; exact Hn).
  assert (mn <= cur) as Hlo by (exact (proj1 (Forall_forall _ _) Hmn _ Hin)).
  assert (cur <= mx) as Hhi by (exact (proj1 (Forall_forall _ _) Hmx _ Hin)).
  assert (0 <= mn /\ mx <= 100) as [Hmn0 Hmx100].
  { apply Exists_exists in Xmn, Xmx.
    destruct Xmn as (x & Hx & Ex), Xmx as (y & Hy & Ey).
    pose proof (proj1 (Forall_forall _ _) Hqs _ Hx) as Hx'.
    pose proof (proj1 (Forall_forall _ _) Hqs _ Hy) as Hy'.
    cbv beta in Hx', Hy'. lra. }
  simpl jseq. destruct (Qeq_bool mx mn) eqn:E; qprop.
  { split; [right |]; simpl; intros; lra. }
  unfold Rounded.sub, jssub. simpl jsneg. simpl jsadd. simpl rounded.
  destruct (round_between 0 (cur + - mn) 100) as (d1 & Ed1 & Hd1);
    [apply (round_0 R laws) | apply (round_100 R laws) | lra |].
  destruct (round_between 0 (mx + - mn) 100) as (d2 & Ed2 & Hd2);
    [apply (round_0 R laws) | apply (round_100 R laws) | lra |].
  assert (d1 <= d2) as Hd12.
  { pose proof (round_monotone R laws (cur + - mn) (mx + - mn)
                               ltac:(lra)) as Hm.
    now rewrite Ed1, Ed2 in Hm. }
  rewrite Ed1, Ed2.
  assert (0 < d2 ->
          within 0 100
            (Rounded.mul (Rounded.div (Fin d1) (Fin d2)) (Fin 100)))
    as Hpos.
  { intro Hd2pos. unfold Rounded.div. rewrite jsdiv_fin by lra.
    simpl rounded.
    destruct (round_between 0 (d1 / d2) 1) as (r & -> & Hr);
      [apply (round_0 R laws) | apply round_1 | |].
    { split; [apply Qle_shift_div_l | apply Qle_shift_div_r]; lra. }
    unfold Rounded.mul. simpl.
    destruct (round_between 0 (r * 100) 100) as (v & -> & Hv);
      [apply (round_0 R laws) | apply (round_100 R laws) | lra |].
    exact Hv. }
  split.
  - destruct (Qlt_le_dec 0 d2) as [Hd2pos | Hd2zero].
    + right. now apply Hpos.
    + left. unfold Rounded.div. simpl.
      replace (Qeq_bool d2 0) with true
        by (symmetry; apply Qeq_bool_iff; lra).
      replace (Qlt_bool 0 d1) with false
        by (symmetry; apply Qlt_bool_false_iff; lra).
      replace (Qlt_bool d1 0) with false
        by (symmetry; apply Qlt_bool_false_iff; lra).
      reflexivity.
  - intro Hgrid. apply Hpos.
    assert (on_grid (-1074) mn /\ on_grid (-1074) mx) as [Gmn Gmx].
    { apply Exists_exists in Xmn, Xmx.
      destruct Xmn as (x & Hx & Ex), Xmx as (y & Hy & Ey).
      split; [apply (on_grid_compat _ x) | apply (on_grid_compat _ y)];
        try (symmetry; assumption);
        apply (proj1 (Forall_forall _ _) Hgrid); assumption. }
    pose proof (on_grid_pos _ _ (on_grid_sub _ _ _ Gmx Gmn) ltac:(lra))
      as Hdiff.
    pose proof (round_lower (pow2 (-1074)) (mx + - mn)
                  (round_pow2_pos (-1074) ltac:(lia)) Hdiff) as Hlow.
    rewrite Ed2 in Hlow. simpl in Hlow.
    pose proof (pow2_pos (-1074)). lra.
Qed.

(** The tail of [calculateStochRSI] when a value of the window is [NaN]. *)
Lemma rounded_stoch_nan (vals : list jsnum) :
  In NaN vals -> rounded_stoch_of vals = NaN.
Proof.
  intro Hin. unfold rounded_stoch_of.
  rewrite (Math_min_nan vals Hin), (Math_max_nan vals Hin). simpl jseq.
  cbv iota. unfold Rounded.sub, jssub. simpl jsneg.
  now destruct (nth (length vals - 1) vals NaN).
Qed.

Lemma rounded_stoch_of_range (vals : list jsnum) :
  vals <> [] -> Forall (nan_or_within 0 100) vals ->
  nan_or_within 0 100 (rounded_stoch_of vals).
Proof.
  intros Hne Hvals.
  destruct (nan_or_all_within 0 100 vals Hvals) as [Hin | Hall].
  - left. now apply rounded_stoch_nan.
  - destruct (map_fin_within (fun v => v) 0 100 vals Hall)
      as (qs & Eqs & _ & Hqs).
    rewrite map_id in Eqs. subst vals.
    apply rounded_stoch_fin; trivial. intros ->. now apply Hne.
Qed.

(** The loop of [calculateStochRSI] collects what [calculateRSIValue]
    returns. *)
Lemma rounded_stoch_loop_safe (P : jsnum -> Prop) cs lo (n : nat) :
  (forall k, (lo <= k < lo + Z.of_nat n)%Z ->
             safe (k - 14) k (Rounded.calculateRSIValue cs k) P) ->
  safe (lo - 14) (lo + Z.of_nat n - 1)
       (for_loop n lo (Rounded.stoch_step cs) [])
       (fun vals => Forall P vals /\ length vals = n).
Proof.
  intro Hrsi.
  pose (I := fun (k : Z) (vals : list jsnum) =>
    Forall P vals /\ length vals = Z.to_nat (k - lo)).
  eapply safe_weaken with (lo := (lo - 14)%Z) (hi := (lo + Z.of_nat n - 1)%Z)
                          (P := I (lo + Z.of_nat n)%Z);
    [apply safe_for_loop | lia | lia |].
  - unfold I. rewrite Z.sub_diag. split; [constructor | reflexivity].
  - intros k vals Hk [Hall Hlen]. unfold Rounded.stoch_step.
    eapply safe_bind.
    + eapply safe_weaken; [apply Hrsi; lia | lia | lia |].
      intros v Hv. exact Hv.
    + intros v Hv. apply safe_ret. unfold I. split.
      * apply Forall_app. split; [exact Hall | now constructor].
      * rewrite length_app, Hlen. simpl. lia.
  - intros vals [Hall Hlen]. split; [exact Hall |]. rewrite Hlen. lia.
Qed.

Lemma rounded_stoch_early cs i :
  (i < 28)%Z -> Rounded.calculateStochRSI cs i = ret (Fin 50).
Proof.
  intro Hi. unfold Rounded.calculateStochRSI, RSI_PERIOD, STOCH_PERIOD.
  now replace (i <? 14 + 14)%Z with true by (symmetry; apply Z.ltb_lt; lia).
Qed.

(** [calculateStochRSI] from index 28 on: its tail on fourteen values of
    [calculateRSIValue]. *)
Lemma rounded_stoch_window (P : jsnum -> Prop) cs i :
  (28 <= i < array_length cs)%Z ->
  (forall k, (i - 13 <= k <= i)%Z ->
             safe (k - 14) k (Rounded.calculateRSIValue cs k) P) ->
  safe (i - 27) i (Rounded.calculateStochRSI cs i)
       (fun v => exists vals, vals <> [] /\ Forall P vals
                              /\ v = rounded_stoch_of vals).
Proof.
  intros Hi Hrsi. unfold Rounded.calculateStochRSI, RSI_PERIOD, STOCH_PERIOD.
  replace (i <? 14 + 14)%Z with false by (symmetry; apply Z.ltb_ge; lia).
  unfold for_range.
  replace (Z.to_nat (i - (i - 14 + 1) + 1)) with 14%nat by lia.
  replace (i - 14 + 1)%Z with (i - 13)%Z by lia.
  eapply safe_bind.
  - eapply safe_weaken;
      [apply (rounded_stoch_loop_safe P cs (i - 13) 14);
       intros k Hk; apply Hrsi; lia
      | lia | lia |].
    intros vals Hvals. exact Hvals.
  - intros vals [Hall Hlen]. cbv zeta.
    assert (vals <> []) as Hne by (intros ->; discriminate).
    assert (exists vals0, vals0 <> [] /\ Forall P vals0
                          /\ rounded_stoch_of vals = rounded_stoch_of vals0)
      as Hpost by (exists vals; auto).
    unfold rounded_stoch_of in Hpost at 1. cbv zeta in Hpost.
    destruct (jseq (Math_max vals) (Math_min vals));
      apply safe_ret; exact Hpost.
Qed.

(** [calculateStochRSI] on doubles: [NaN], or a number from 0 to 100. *)
Lemma rounded_stoch_safe cs i :
  (0 <= i < array_length cs)%Z ->
  safe (i - 27) i (Rounded.calculateStochRSI cs i) (nan_or_within 0 100).
Proof.
  intro Hi. destruct (Z_lt_ge_dec i 28) as [Hlt | Hge].
  - rewrite rounded_stoch_early by exact Hlt.
    apply safe_ret. right. simpl. lra.
  - eapply safe_weaken;
      [apply (rounded_stoch_window (nan_or_within 0 100)); [lia |]
      | lia | lia |].
    + intros k Hk. apply rounded_rsi_safe. lia.
    + intros v (vals & Hne & Hall & ->). now apply rounded_stoch_of_range.
Qed.

(** *** Closes of moderate size *)

Lemma sub_fin_on_grid (x y : jsnum) (q : Q) :
  Rounded.sub x y = Fin q -> on_grid (-1074) q.
Proof.
  unfold Rounded.sub, jssub.
  destruct x, y; simpl; intro E; try discriminate;
    eapply (round_on_grid R laws); exact E.
Qed.

Lemma close_difference (a b : Q) :
  moderate a -> moderate b ->
  on_grid (-1000) (a + - b) /\ - pow2 1001 <= a + - b <= pow2 1001.
Proof.
  intros [Ga Ha] [Gb Hb]. split; [now apply on_grid_sub |].
  apply Qabs_Qle_condition in Ha, Hb.
  pose proof (pow2_succ 1000) as E. change (1000 + 1)%Z with 1001%Z in E.
  rewrite E. lra.
Qed.

(** One turn of the loop of [calculateRSIValue] on closes of moderate size:
    the sums stay finite, and a sum of losses that is not zero is at least
    [2^-1000]. *)
Lemma rounded_rsi_step_moderate cs k (e : Z) (g l : Q) :
  Forall (fun c => moderate (close c)) cs ->
  (1 <= k < array_length cs)%Z -> (1001 <= e <= 1022)%Z ->
  0 <= g <= pow2 e -> 0 <= l <= pow2 e -> (l == 0 \/ pow2 (-1000) <= l) ->
  safe (k - 1) k (Rounded.rsi_step cs k (Fin g, Fin l))
       (fun s => exists g' l',
          s = (Fin g', Fin l')
          /\ 0 <= g' <= pow2 (e + 1) /\ 0 <= l' <= pow2 (e + 1)
          /\ (l' == 0 \/ pow2 (-1000) <= l')).
Proof.
  intros Hmod Hk He Hg Hl Hl0. unfold Rounded.rsi_step.
  eapply safe_bind; [apply safe_candle_at; lia |]. intros ci Hci.
  eapply safe_bind; [apply safe_candle_at; lia |]. intros ci1 Hci1.
  cbv beta in Hci, Hci1.
  assert (moderate (close ci)) as Ma
      by (apply (proj1 (Forall_forall _ _) Hmod);
          eapply nth_error_In; exact Hci).
  assert (moderate (close ci1)) as Mb
      by (apply (proj1 (Forall_forall _ _) Hmod);
          eapply nth_error_In; exact Hci1).
  destruct (close_difference _ _ Ma Mb) as [Gd Hd].
  set (d := close ci + - close ci1) in *.
  change (Rounded.sub (Fin (close ci)) (Fin (close ci1))) with (round d).
  destruct (round_between (- pow2 1001) d (pow2 1001)) as (c & Ec & Hc);
    [apply round_pow2_neg; lia | apply round_pow2_pos; lia | exact Hd |].
  rewrite Ec. cbv zeta.
  pose proof (pow2_le 1001 e ltac:(lia)) as He1.
  pose proof (pow2_succ e) as He2.
  pose proof (pow2_pos (-1000)) as Hp.
  destruct (jsge (Fin c) (Fin 0)) eqn:E; apply safe_ret.
  - apply jsge_zero_inv in E. unfold num_le in E.
    change (Rounded.add (Fin g) (Fin c)) with (round (g + c)).
    destruct (round_between 0 (g + c) (pow2 (e + 1))) as (g' & -> & Hg');
      [apply (round_0 R laws) | apply round_pow2_pos; lia | lra |].
    exists g', l. split; [reflexivity |]. split; [exact Hg' |].
    split; [lra | exact Hl0].
  - assert (c < 0) as Hneg.
    { unfold jsge, jsle in E. simpl in E. apply negb_false_iff in E.
      now apply Qlt_bool_iff in E. }
    assert (d < 0) as Hdneg.
    { destruct (Qlt_le_dec d 0) as [Hlt | Hge]; [exact Hlt |].
      pose proof (round_nonneg d Hge) as Hr. rewrite Ec in Hr.
      unfold num_le in Hr. lra. }
    pose proof (on_grid_neg _ _ Gd Hdneg) as Hdle.
    pose proof (round_upper d (- pow2 (-1000))
                  (round_pow2_neg (-1000) ltac:(lia)) Hdle) as Hcle.
    rewrite Ec in Hcle. unfold num_le in Hcle.
    change (Rounded.sub (Fin l) (Fin c)) with (round (l + - c)).
    destruct (round_between (pow2 (-1000)) (l + - c) (pow2 (e + 1)))
      as (l' & -> & Hl');
      [apply round_pow2_pos; lia | apply round_pow2_pos; lia | lra |].
    exists g, l'. split; [reflexivity |]. split; [lra |].
    split; [lra | right; lra].
Qed.

(** [calculateRSIValue] on closes of moderate size: a double from 0 to
    100. *)
Lemma rounded_rsi_moderate cs i :
  Forall (fun c => moderate (close c)) cs ->
  (0 <= i < array_length cs)%Z ->
  safe (i - 14) i (Rounded.calculateRSIValue cs i)
       (fun v => within 0 100 v /\ fin_on_grid v).
Proof.
  intros Hmod Hi.
  assert (forall z : Z, fin_on_grid (Fin (inject_Z z))) as Hconst
      by (intro z; exists (inject_Z z); split;
          [reflexivity | apply on_grid_Z; lia]).
  destruct (Z_lt_ge_dec i 14) as [Hlt | Hge].
  - rewrite rounded_rsi_early by exact Hlt.
    apply safe_ret. split; [simpl; lra | apply (Hconst 50%Z)].
  - unfold Rounded.calculateRSIValue, RSI_PERIOD.
    replace (i <? 14)%Z with false by (symmetry; apply Z.ltb_ge; lia).
    unfold for_range.
    replace (Z.to_nat (i - (i - 14 + 1) + 1)) with 14%nat by lia.
    replace (i - 14 + 1)%Z with (i - 13)%Z by lia.
    pose (I := fun (k : Z) (s : jsnum * jsnum) =>
      exists g l,
        s = (Fin g, Fin l)
        /\ 0 <= g <= pow2 (1001 + (k - (i - 13)))
        /\ 0 <= l <= pow2 (1001 + (k - (i - 13)))
        /\ (l == 0 \/ pow2 (-1000) <= l)).
    pose proof (pow2_pos 1001) as Hp1001.
    eapply safe_bind.
    + eapply safe_weaken with (P := I (i - 13 + Z.of_nat 14)%Z);
        [apply (safe_for_loop (i - 14) i _ I)
        | apply Z.le_refl | apply Z.le_refl | ].
      * exists 0, 0. split; [reflexivity |].
        replace (1001 + (i - 13 - (i - 13)))%Z with 1001%Z by lia.
        repeat split; lra.
      * intros k s Hk (g & l & -> & Hg & Hl & Hl0).
        eapply safe_weaken;
          [apply (rounded_rsi_step_moderate cs k (1001 + (k - (i - 13))));
           trivial; lia
          | lia | lia |].
        intros s (g' & l' & -> & Hg' & Hl' & Hl0'). exists g', l'.
        replace (1001 + (k + 1 - (i - 13)))%Z
          with (1001 + (k - (i - 13)) + 1)%Z by lia.
        auto.
      * intros a Ha. exact Ha.
    + intros s (g & l & -> & Hg & Hl & Hl0). cbv beta iota zeta.
      replace (1001 + (i - 13 + Z.of_nat 14 - (i - 13)))%Z with 1015%Z
        in Hg, Hl by lia.
      simpl jseq. destruct (Qeq_bool l 0) eqn:E; apply safe_ret.
      * split; [simpl; lra | apply (Hconst 100%Z)].
      * qprop. destruct Hl0 as [Hl0 | Hl0]; [contradiction |].
        change (Fin (inject_Z 14)) with (Fin 14).
        assert (pow2 (-1000) == 16 * pow2 (-1004)) as E16.
        { pose proof (pow2_add (-1004) 4) as Ep.
          change (-1004 + 4)%Z with (-1000)%Z in Ep.
          rewrite Ep. change (pow2 4) with 16. ring. }
        pose proof (pow2_pos (-1004)) as Hp1004.
        assert (pow2 (-1004) <= l / 14 <= pow2 1015) as Hl14.
        { split; [apply Qle_shift_div_l | apply Qle_shift_div_r]; lra. }
        assert (Rounded.div (Fin l) (Fin 14) = round (l / 14)) as Ediv
            by (unfold Rounded.div; rewrite jsdiv_fin by lra; reflexivity).
        rewrite Ediv.
        destruct (round_between (pow2 (-1004)) (l / 14) (pow2 1015))
          as (b & -> & Hb);
          [apply round_pow2_pos; lia | apply round_pow2_pos; lia
          | exact Hl14 |].
        assert (within 0 100
                  (Rounded.sub (Fin 100)
                     (Rounded.div (Fin 100)
                        (Rounded.add (Fin 1)
                           (Rounded.div (Rounded.div (Fin g) (Fin 14))
                                        (Fin b)))))) as Hw.
        { apply rsi_formula_within. apply div_positive; [lra |].
          apply div_positive; [reflexivity |]. simpl. lra. }
        split; [exact Hw |].
        destruct (Rounded.sub _ _) as [q | | |] eqn:Eq;
          simpl in Hw; try contradiction.
        exists q. split; [reflexivity |].
        eapply sub_fin_on_grid. exact Eq.
Qed.

(** [calculateStochRSI] on closes of moderate size: a number from 0 to
    100. *)
Lemma rounded_stoch_moderate cs i :
  Forall (fun c => moderate (close c)) cs ->
  (0 <= i < array_length cs)%Z ->
  safe (i - 27) i (Rounded.calculateStochRSI cs i) (within 0 100).
Proof.
  intros Hmod Hi. destruct (Z_lt_ge_dec i 28) as [Hlt | Hge].
  - rewrite rounded_stoch_early by exact Hlt.
    apply safe_ret. simpl. lra.
  - eapply safe_weaken;
      [apply (rounded_stoch_window
                (fun v => within 0 100 v /\ fin_on_grid v)); [lia |]
      | lia | lia |].
    + intros k Hk. apply rounded_rsi_moderate; [exact Hmod | lia].
    + intros v (vals & Hne & Hall & ->).
      destruct (fin_list (fun q => 0 <= q <= 100 /\ on_grid (-1074) q) vals)
        as (qs & -> & Hqs).
      { eapply Forall_impl; [| exact Hall].
        intros x [Hw (q & -> & Hgrid)]. exists q. simpl in Hw. auto. }
      apply rounded_stoch_fin.
      * intros ->. now apply Hne.
      * eapply Forall_impl; [| exact Hqs]. intros q [Hq _]. exact Hq.
      * eapply Forall_impl; [| exact Hqs]. intros q [_ Hq]. exact Hq.
Qed.

End RoundedArithmetic.

(* ===================================================================== *)
(** ** The rounding of the doubles *)
(* ===================================================================== *)

(** *** The nearest integer *)

Lemma rne_bounds (q : Q) : (Qfloor q <= rne q <= Qfloor q + 1)%Z.
Proof.
  unfold rne.
  destruct (Qcompare (q - inject_Z (Qfloor q)) (1 # 2));
    [destruct (Z.even (Qfloor q)) | |]; lia.
Qed.

Lemma rne_Z (k : Z) : rne (inject_Z k) = k.
Proof.
  unfold rne. rewrite Qfloor_Z.
  destruct (Qcompare_spec (inject_Z k - inject_Z k) (1 # 2));
    [exfalso; lra | reflexivity | exfalso; lra].
Qed.

Lemma rne_compat (a b : Q) : a == b -> rne a = rne b.
Proof.
  intro E. unfold rne. rewrite (Qfloor_comp a b E).
  assert (Qcompare (a - inject_Z (Qfloor b)) (1 # 2)
          = Qcompare (b - inject_Z (Qfloor b)) (1 # 2)) as ->
      by (apply Qcompare_comp; [rewrite E |]; reflexivity).
  reflexivity.
Qed.

Lemma rne_mono (a b : Q) : a <= b -> (rne a <= rne b)%Z.
Proof.
  intro Hab. pose proof (Qfloor_resp_le a b Hab) as Hf.
  pose proof (rne_bounds a) as Ha. pose proof (rne_bounds b) as Hb.
  destruct (Z.eq_dec (Qfloor a) (Qfloor b)) as [E | Hne]; [| lia].
  unfold rne in *. rewrite E in *.
  destruct (Qcompare_spec (a - inject_Z (Qfloor b)) (1 # 2)) as [Ea | Ea | Ea];
    destruct (Qcompare_spec (b - inject_Z (Qfloor b)) (1 # 2))
      as [Eb | Eb | Eb];
    try lia; try (exfalso; lra);
    destruct (Z.even (Qfloor b)); lia.
Qed.

Lemma rne_nonneg (a : Q) : 0 <= a -> (0 <= rne a)%Z.
Proof.
  intro Ha. rewrite <- (rne_Z 0). now apply rne_mono.
Qed.

(** *** The exponent of the leading digit *)

Lemma pow2_Z (n : Z) : (0 <= n)%Z -> inject_Z (2 ^ n) == pow2 n.
Proof. intro Hn. now rewrite Zpower_Qpower. Qed.

Lemma Zlog2_bracket (n : Z) :
  (0 < n)%Z -> pow2 (Z.log2 n) <= inject_Z n < pow2 (Z.log2 n + 1).
Proof.
  intro Hn. destruct (Z.log2_spec n Hn) as [Hlo Hhi].
  pose proof (Z.log2_nonneg n) as Hnn.
  rewrite <- !pow2_Z by lia.
  rewrite <- Zle_Qle, <- Zlt_Qlt. replace (Z.log2 n + 1)%Z with (Z.succ (Z.log2 n)) by lia. auto.
Qed.

Lemma ilog2_spec (q : Q) :
  0 < q -> pow2 (ilog2 q) <= q < pow2 (ilog2 q + 1).
Proof.
  intro Hq. destruct q as [n d].
  assert (0 < n)%Z as Hn by (unfold Qlt in Hq; simpl in Hq; lia).
  unfold ilog2. cbn [Qnum Qden].
  set (e := (Z.log2 n - Z.log2 (Zpos d))%Z).
  destruct (Zlog2_bracket n Hn) as [Hn1 Hn2].
  destruct (Zlog2_bracket (Zpos d) ltac:(lia)) as [Hd1 Hd2].
  assert (0 < inject_Z (Zpos d)) as Hdpos
      by (change 0 with (inject_Z 0); rewrite <- Zlt_Qlt; lia).
  assert (n # d == inject_Z n / inject_Z (Zpos d)) as Eq
      by apply Qmake_Qdiv.
  set (N := inject_Z n) in *. set (D := inject_Z (Zpos d)) in *.
  assert (pow2 (e - 1) <= n # d) as Hlow.
  { rewrite Eq. apply Qle_shift_div_l; [exact Hdpos |].
    pose proof (pow2_add (e - 1) (Z.log2 (Zpos d) + 1)) as Ep.
    replace (e - 1 + (Z.log2 (Zpos d) + 1))%Z with (Z.log2 n) in Ep
      by (unfold e; lia).
    pose proof (pow2_pos (e - 1)). nra. }
  assert (n # d < pow2 (e + 1)) as Hhigh.
  { rewrite Eq. apply Qlt_shift_div_r; [exact Hdpos |].
    pose proof (pow2_add (e + 1) (Z.log2 (Zpos d))) as Ep.
    replace (e + 1 + Z.log2 (Zpos d))%Z with (Z.log2 n + 1)%Z in Ep
      by (unfold e; lia).
    pose proof (pow2_pos (e + 1)). nra. }
  destruct (Qle_bool (pow2 e) (n # d)) eqn:E.
  - apply Qle_bool_iff in E. split; assumption.
  - assert (n # d < pow2 e) as Hlt.
    { apply Qnot_le_lt. intro Hle. apply Qle_bool_iff in Hle. congruence. }
    replace (e - 1 + 1)%Z with e by lia. split; assumption.
Qed.

Lemma ilog2_unique (q : Q) (e : Z) :
  pow2 e <= q < pow2 (e + 1) -> ilog2 q = e.
Proof.
  intros [Hlo Hhi].
  assert (0 < q) as Hq by (pose proof (pow2_pos e); lra).
  destruct (ilog2_spec q Hq) as [Slo Shi].
  destruct (Z_lt_ge_dec (ilog2 q) e) as [Hlt | Hge].
  - pose proof (pow2_le (ilog2 q + 1) e ltac:(lia)). lra.
  - destruct (Z_lt_ge_dec e (ilog2 q)) as [Hlt | Hge']; [| lia].
    pose proof (pow2_le (e + 1) (ilog2 q) ltac:(lia)). lra.
Qed.

Lemma ilog2_mono (a b : Q) : 0 < a -> a <= b -> (ilog2 a <= ilog2 b)%Z.
Proof.
  intros Ha Hab.
  destruct (ilog2_spec a Ha) as [Alo Ahi].
  destruct (ilog2_spec b ltac:(lra)) as [Blo Bhi].
  destruct (Z_lt_ge_dec (ilog2 b) (ilog2 a)) as [Hlt | Hge]; [| lia].
  pose proof (pow2_le (ilog2 b + 1) (ilog2 a) ltac:(lia)). lra.
Qed.

Lemma ilog2_pow2 (e : Z) : ilog2 (pow2 e) = e.
Proof.
  apply ilog2_unique. split; [apply Qle_refl | apply pow2_lt; lia].
Qed.

(** *** The rounding of a magnitude *)

Lemma ulp_exponent_ge (a : Q) : (-1074 <= ulp_exponent a)%Z.
Proof. unfold ulp_exponent. lia. Qed.

Lemma ulp_exponent_mono (a b : Q) :
  0 < a -> a <= b -> (ulp_exponent a <= ulp_exponent b)%Z.
Proof.
  intros Ha Hab. pose proof (ilog2_mono a b Ha Hab). unfold ulp_exponent. lia.
Qed.

Lemma round_magnitude_nonneg (a : Q) : 0 <= a -> 0 <= round_magnitude a.
Proof.
  intro Ha. unfold round_magnitude.
  pose proof (pow2_pos (ulp_exponent a)) as Hp.
  assert (0 <= a / pow2 (ulp_exponent a)) as Hdiv
      by (apply Qle_shift_div_l; lra).
  pose proof (rne_nonneg _ Hdiv) as Hr.
  rewrite Zle_Qle in Hr. change (inject_Z 0) with 0 in Hr. nra.
Qed.

Lemma round_magnitude_upper (a : Q) :
  0 < a -> round_magnitude a <= pow2 (ulp_exponent a + 53).
Proof.
  intro Ha. unfold round_magnitude. set (u := ulp_exponent a).
  pose proof (pow2_pos u) as Hp.
  destruct (ilog2_spec a Ha) as [_ Hhi].
  pose proof (pow2_le (ilog2 a + 1) (u + 53)
                ltac:(unfold u, ulp_exponent; lia)) as Hle.
  pose proof (pow2_add u 53) as Eadd.
  assert (a / pow2 u <= inject_Z (2 ^ 53)) as Hdiv.
  { rewrite pow2_Z by lia. apply Qle_shift_div_r; [exact Hp |]. lra. }
  pose proof (rne_mono _ _ Hdiv) as Hr. rewrite rne_Z in Hr.
  rewrite Zle_Qle, pow2_Z in Hr by lia.
  rewrite Eadd. nra.
Qed.

Lemma round_magnitude_lower (a : Q) :
  0 < a -> (-1074 < ulp_exponent a)%Z ->
  pow2 (ulp_exponent a + 52) <= round_magnitude a.
Proof.
  intros Ha Hu. unfold round_magnitude. set (u := ulp_exponent a) in *.
  pose proof (pow2_pos u) as Hp.
  destruct (ilog2_spec a Ha) as [Hlo _].
  assert (ilog2 a = u + 52)%Z as E
      by (unfold u, ulp_exponent in *; lia).
  rewrite E in Hlo.
  pose proof (pow2_add u 52) as Eadd.
  assert (inject_Z (2 ^ 52) <= a / pow2 u) as Hdiv.
  { rewrite pow2_Z by lia. apply Qle_shift_div_l; [exact Hp |]. lra. }
  pose proof (rne_mono _ _ Hdiv) as Hr. rewrite rne_Z in Hr.
  rewrite Zle_Qle, pow2_Z in Hr by lia.
  rewrite Eadd. nra.
Qed.

Lemma round_magnitude_mono (a b : Q) :
  0 < a -> a <= b -> round_magnitude a <= round_magnitude b.
Proof.
  intros Ha Hab.
  pose proof (ulp_exponent_mono a b Ha Hab) as Hu.
  destruct (Z.eq_dec (ulp_exponent a) (ulp_exponent b)) as [E | Hne].
  - unfold round_magnitude. rewrite E. set (u := ulp_exponent b).
    pose proof (pow2_pos u) as Hp.
    assert (a / pow2 u <= b / pow2 u) as Hdiv.
    { apply Qle_shift_div_l; [exact Hp |].
      unfold Qdiv. rewrite <- Qmult_assoc, (Qmult_comm (/ pow2 u)).
      rewrite Qmult_inv_r by lra. lra. }
    pose proof (rne_mono _ _ Hdiv) as Hr. rewrite Zle_Qle in Hr. nra.
  - pose proof (round_magnitude_upper a Ha) as Hup.
    pose proof (round_magnitude_lower b ltac:(lra)
                  ltac:(pose proof (ulp_exponent_ge a); lia)) as Hlow.
    pose proof (pow2_le (ulp_exponent a + 53) (ulp_exponent b + 52)
                  ltac:(lia)).
    lra.
Qed.

(** *** The rounding *)

Lemma Qle_bool_false_iff (a b : Q) : Qle_bool a b = false <-> b < a.
Proof.
  split; intro Hab.
  - apply Qnot_le_lt. intro Hle. apply Qle_bool_iff in Hle. congruence.
  - destruct (Qle_bool a b) eqn:E; [| reflexivity].
    apply Qle_bool_iff in E. lra.
Qed.

Lemma Qabs_pos_eq (q : Q) : 0 < q -> Qabs q = q.
Proof.
  destruct q as [n d]. unfold Qlt. simpl. intro Hn.
  destruct n; simpl in *; try lia. reflexivity.
Qed.

Lemma Qabs_neg_eq (q : Q) : q < 0 -> Qabs q = - q.
Proof.
  destruct q as [n d]. unfold Qlt. simpl. intro Hn.
  destruct n; simpl in *; try lia. reflexivity.
Qed.

Lemma Qopp_opp_eq (q : Q) : - - q = q.
Proof. destruct q as [n d]. unfold Qopp. simpl. now rewrite Z.opp_involutive. Qed.

Lemma binary64_zero (q : Q) : q == 0 -> binary64 q = Fin 0.
Proof.
  intro E. unfold binary64. apply Qeq_bool_iff in E. now rewrite E.
Qed.

Lemma binary64_pos (q : Q) :
  0 < q ->
  binary64 q = if Qle_bool (pow2 1024) (round_magnitude q) then PInf
               else Fin (round_magnitude q).
Proof.
  intro Hq. unfold binary64.
  replace (Qeq_bool q 0) with false
    by (symmetry; apply Qeq_bool_false_iff; lra).
  replace (Qlt_bool q 0) with false
    by (symmetry; apply Qlt_bool_false_iff; lra).
  now rewrite (Qabs_pos_eq q Hq).
Qed.

Lemma binary64_neg (q : Q) :
  q < 0 ->
  binary64 q = if Qle_bool (pow2 1024) (round_magnitude (- q)) then NInf
               else Fin (- round_magnitude (- q)).
Proof.
  intro Hq. unfold binary64.
  replace (Qeq_bool q 0) with false
    by (symmetry; apply Qeq_bool_false_iff; lra).
  replace (Qlt_bool q 0) with true
    by (symmetry; apply Qlt_bool_iff; lra).
  now rewrite (Qabs_neg_eq q Hq).
Qed.

(** The rounding keeps the order. *)
Lemma binary64_monotone (a b : Q) :
  a <= b -> num_le (binary64 a) (binary64 b).
Proof.
  intro Hab.
  assert (forall q, 0 < q -> num_le (Fin 0) (binary64 q)) as Hpos.
  { intros q Hq. rewrite (binary64_pos q Hq).
    destruct (Qle_bool _ _); [exact I |].
    apply round_magnitude_nonneg. lra. }
  assert (forall q, q < 0 -> num_le (binary64 q) (Fin 0)) as Hneg.
  { intros q Hq. rewrite (binary64_neg q Hq).
    destruct (Qle_bool _ _); [exact I |].
    pose proof (round_magnitude_nonneg (- q) ltac:(lra)). simpl. lra. }
  destruct (Q_dec a 0) as [[Ha | Ha] | Ha];
    destruct (Q_dec b 0) as [[Hb | Hb] | Hb]; try (exfalso; lra).
  - pose proof (round_magnitude_mono (- b) (- a) ltac:(lra) ltac:(lra))
      as Hm.
    rewrite (binary64_neg a Ha), (binary64_neg b Hb).
    destruct (Qle_bool (pow2 1024) (round_magnitude (- a))) eqn:Ea;
      destruct (Qle_bool (pow2 1024) (round_magnitude (- b))) eqn:Eb;
      simpl; trivial.
    + apply Qle_bool_iff in Eb. apply Qle_bool_false_iff in Ea. lra.
    + lra.
  - pose proof (Hneg a Ha) as Hna. pose proof (Hpos b Hb) as Hpb.
    destruct (binary64 a), (binary64 b); simpl in *; trivial;
      try contradiction. lra.
  - rewrite (binary64_zero b Hb). now apply Hneg.
  - pose proof (round_magnitude_mono a b Ha Hab) as Hm.
    rewrite (binary64_pos a Ha), (binary64_pos b Hb).
    destruct (Qle_bool (pow2 1024) (round_magnitude a)) eqn:Ea;
      destruct (Qle_bool (pow2 1024) (round_magnitude b)) eqn:Eb;
      simpl; trivial.
    apply Qle_bool_iff in Ea. apply Qle_bool_false_iff in Eb. lra.
  - rewrite (binary64_zero a Ha). now apply Hpos.
  - rewrite (binary64_zero a Ha), (binary64_zero b Hb). simpl. lra.
Qed.

(** The finite results are multiples of the smallest positive double. *)
Lemma round_magnitude_grid (a : Q) : on_grid (-1074) (round_magnitude a).
Proof.
  unfold round_magnitude. set (u := ulp_exponent a).
  pose proof (ulp_exponent_ge a) as Hu. fold u in Hu.
  generalize (rne (a / pow2 u)). intro k.
  exists (k * 2 ^ (u + 1074))%Z.
  rewrite inject_Z_mult, pow2_Z by lia.
  pose proof (pow2_add (u + 1074) (-1074)) as E.
  replace (u + 1074 + -1074)%Z with u in E by lia.
  rewrite E. ring.
Qed.

Lemma on_grid_opp (e : Z) (q : Q) : on_grid e q -> on_grid e (- q).
Proof.
  intros (k & Hk). exists (- k)%Z. rewrite Hk, inject_Z_opp. ring.
Qed.

Lemma binary64_grid (q v : Q) : binary64 q = Fin v -> on_grid (-1074) v.
Proof.
  destruct (Q_dec q 0) as [[Hq | Hq] | Hq].
  - rewrite (binary64_neg q Hq). destruct (Qle_bool _ _); [discriminate |].
    intros [= <-]. apply on_grid_opp, round_magnitude_grid.
  - rewrite (binary64_pos q Hq). destruct (Qle_bool _ _); [discriminate |].
    intros [= <-]. apply round_magnitude_grid.
  - rewrite (binary64_zero q Hq). intros [= <-].
    exists 0%Z. ring.
Qed.

Lemma on_grid_coarser (e e' : Z) (q : Q) :
  (e' <= e)%Z -> on_grid e q -> on_grid e' q.
Proof.
  intros He (k & Hk). exists (k * 2 ^ (e - e'))%Z.
  rewrite Hk, inject_Z_mult, pow2_Z by lia.
  pose proof (pow2_add (e - e') e') as E.
  replace (e - e' + e')%Z with e in E by lia.
  rewrite E. ring.
Qed.

(** The doubles of magnitude between [2^-947] and [2^1000] are of moderate
    size. *)
Lemma binary64_moderate (q v : Q) :
  binary64 q = Fin v -> pow2 (-947) <= Qabs v <= pow2 1000 -> moderate v.
Proof.
  intros Hq [Hlo Hhi]. split; [| exact Hhi].
  assert (forall a, 0 < a -> pow2 (-947) <= round_magnitude a ->
                    on_grid (-1000) (round_magnitude a)) as Hgrid.
  { intros a Ha Hle.
    pose proof (round_magnitude_upper a Ha) as Hup.
    assert (-1000 <= ulp_exponent a)%Z as Hu.
    { destruct (Z_lt_ge_dec (ulp_exponent a) (-1000)) as [Hlt | Hge]; [| lia].
      pose proof (pow2_lt (ulp_exponent a + 53) (-947) ltac:(lia)). lra. }
    apply (on_grid_coarser (ulp_exponent a)); [exact Hu |].
    unfold round_magnitude. now eexists. }
  pose proof (pow2_pos (-947)) as Hp.
  destruct (Q_dec q 0) as [[Hneg | Hpos] | Hzero].
  - rewrite (binary64_neg q Hneg) in Hq.
    destruct (Qle_bool _ _); [discriminate |]. injection Hq as <-.
    rewrite Qabs_opp in Hlo.
    rewrite Qabs_pos in Hlo by (apply round_magnitude_nonneg; lra).
    apply on_grid_opp, Hgrid; [lra | exact Hlo].
  - rewrite (binary64_pos q Hpos) in Hq.
    destruct (Qle_bool _ _); [discriminate |]. injection Hq as <-.
    rewrite Qabs_pos in Hlo by (apply round_magnitude_nonneg; lra).
    apply Hgrid; [exact Hpos | exact Hlo].
  - rewrite (binary64_zero q Hzero) in Hq. injection Hq as <-.
    change (Qabs 0) with 0 in Hlo. lra.
Qed.

(** The powers of two of the range are doubles. *)
Lemma round_magnitude_pow2 (e : Z) :
  (-1074 <= e)%Z -> round_magnitude (pow2 e) == pow2 e.
Proof.
  intro He. unfold round_magnitude, ulp_exponent. rewrite ilog2_pow2.
  set (u := Z.max (e - 52) (-1074)).
  pose proof (pow2_pos u) as Hp.
  pose proof (pow2_add (e - u) u) as E.
  replace (e - u + u)%Z with e in E by lia.
  assert (pow2 e / pow2 u == inject_Z (2 ^ (e - u))) as Ediv.
  { rewrite pow2_Z by lia. rewrite E. field. lra. }
  rewrite (rne_compat _ _ Ediv), rne_Z, pow2_Z by lia.
  rewrite E. reflexivity.
Qed.

Lemma binary64_pow2 (e : Z) :
  (-1074 <= e <= 1023)%Z ->
  num_eq (binary64 (pow2 e)) (Fin (pow2 e))
  /\ num_eq (binary64 (- pow2 e)) (Fin (- pow2 e)).
Proof.
  intro He. pose proof (pow2_pos e) as Hp.
  pose proof (round_magnitude_pow2 e ltac:(lia)) as Erm.
  pose proof (pow2_lt e 1024 ltac:(lia)) as Hlt.
  assert (Qle_bool (pow2 1024) (round_magnitude (pow2 e)) = false) as Efalse
      by (apply Qle_bool_false_iff; lra).
  split.
  - rewrite (binary64_pos _ Hp), Efalse. exact Erm.
  - rewrite (binary64_neg (- pow2 e)) by lra.
    rewrite Qopp_opp_eq, Efalse. simpl. now rewrite Erm.
Qed.

Lemma binary64_laws : RoundingLaws binary64.
Proof.
  constructor.
  - exact binary64_monotone.
  - exact binary64_grid.
  - exact binary64_pow2.
  - vm_compute. reflexivity.
  - vm_compute. reflexivity.
Qed.

Lemma moderate_check (q : Q) :
  Qle_bool (Qabs q) (pow2 1000) = true ->
  Qden (Qred (q * pow2 1000)) = 1%positive ->
  moderate q.
Proof.
  intros Hle Hden. split; [| now apply Qle_bool_iff].
  exists (Qnum (Qred (q * pow2 1000))).
  assert (inject_Z (Qnum (Qred (q * pow2 1000))) == q * pow2 1000) as E.
  { rewrite <- (Qred_correct (q * pow2 1000)) at 2.
    destruct (Qred (q * pow2 1000)) as [n d]. simpl in *. now subst d. }
  rewrite E, <- Qmult_assoc.
  pose proof (pow2_inv 1000) as Ei. change (- (1000))%Z with (-1000)%Z in Ei.
  rewrite Ei. ring.
Qed.

Lemma Forall_moderate_check (cs : list Candle) :
  forallb (fun c => Qle_bool (Qabs (close c)) (pow2 1000)
                    && Pos.eqb (Qden (Qred (close c * pow2 1000))) 1) cs
  = true ->
  Forall (fun c => moderate (close c)) cs.
Proof.
  intro Hall. apply Forall_forall. intros c Hc.
  pose proof (proj1 (forallb_forall _ _) Hall c Hc) as Hb.
  apply andb_true_iff in Hb. destruct Hb as [Hle Hden].
  apply moderate_check; [exact Hle | now apply Pos.eqb_eq].
Qed.

(* ===================================================================== *)
(** ** The pattern matcher *)
(* ===================================================================== *)

Ltac split_andb :=
  repeat match goal with
  | Hb : _ && _ = true |- _ => apply andb_prop in Hb; destruct Hb
  end.

(** The score of the two institutional rules. *)
Lemma climatic_score_range (vm : jsnum) (b1 b2 : bool) :
  jsgt vm (Fin CLIMATIC_VOLUME_MULT) = true ->
  within 0 100
    (jsmin (Fin 95)
       (jsadd (jsadd (jsadd (Fin 60)
                            (jsmin (Fin 20) (jsmul (jssub vm (Fin 2)) (Fin 10))))
                     (if b1 then Fin 10 else Fin 0))
              (if b2 then Fin 10 else Fin 0))).
Proof.
  intro Hvm. destruct (jsgt_fin_inv _ _ Hvm) as [(v & -> & Hv) | ->].
  - unfold CLIMATIC_VOLUME_MULT in Hv.
    change (jsmul (jssub (Fin v) (Fin 2)) (Fin 10))
      with (Fin ((v + - 2) * 10)).
    destruct (jsmin_fin 20 ((v + - 2) * 10)) as (m & -> & Hm1 & Hm2 & Hm).
    assert (10 <= m) by (destruct Hm as [E | E]; rewrite E; lra).
    destruct b1, b2;
      match goal with
      | |- within _ _ (jsmin (Fin 95) (jsadd (jsadd (jsadd (Fin ?a) (Fin ?b))
                                                    (Fin ?c)) (Fin ?d))) =>
          change (jsadd (jsadd (jsadd (Fin a) (Fin b)) (Fin c)) (Fin d))
            with (Fin (a + b + c + d));
          destruct (jsmin_fin 95 (a + b + c + d)) as (s & -> & Hs1 & Hs2 & Hs)
      end;
      simpl; destruct Hs as [E | E]; rewrite E; lra.
  - destruct b1, b2; vm_compute; split; discriminate.
Qed.

(** The score of the two sudden-reversal rules. *)
Lemma reversal_score_range (vm : jsnum) (b : bool) :
  jsgt vm (Fin REVERSAL_VOLUME_MULT) = true ->
  within 0 100
    (jsadd (jsadd (Fin 45)
                  (jsmin (Fin 25) (jsmul (jssub vm (Fin 1)) (Fin 15))))
           (if b then Fin 15 else Fin 5)).
Proof.
  intro Hvm. destruct (jsgt_fin_inv _ _ Hvm) as [(v & -> & Hv) | ->].
  - unfold REVERSAL_VOLUME_MULT in Hv.
    change (jsmul (jssub (Fin v) (Fin 1)) (Fin 15))
      with (Fin ((v + - 1) * 15)).
    destruct (jsmin_fin 25 ((v + - 1) * 15)) as (m & -> & Hm1 & Hm2 & Hm).
    assert (15 <= m) by (destruct Hm as [E | E]; rewrite E; lra).
    destruct b; simpl; lra.
  - destruct b; vm_compute; split; discriminate.
Qed.


Section Matcher.
Context `{MathSqrt}.

(** Every rule that fires scores between 0 and 100. *)
Lemma match_patterns_score curr prev prev2 next sr bb recent :
  type (match_patterns curr prev prev2 next sr bb recent) <> NONE ->
  within 0 100 (score (match_patterns curr prev prev2 next sr bb recent)).
Proof.
  unfold match_patterns. cbv zeta.
  repeat match goal with
  | |- type (if ?c then _ else _) <> NONE -> _ =>
      destruct c eqn:?; [cbn [type score]; intros _ |]
  end;
  try (cbn [type]; congruence).
  - apply climatic_score_range.
    unfold spring_cond in *. destruct bb; [| discriminate].
    cbv zeta in *. split_andb. assumption.
  - apply climatic_score_range.
    unfold upthrust_cond in *. destruct bb; [| discriminate].
    cbv zeta in *. split_andb. assumption.
  - repeat match goal with
           | |- context [if ?b then _ else _] => destruct b
           end; simpl; lra.
  - repeat match goal with
           | |- context [if ?b then _ else _] => destruct b
           end; simpl; lra.
  - apply reversal_score_range.
    unfold reversal_up_cond in *. split_andb. assumption.
  - apply reversal_score_range.
    unfold reversal_down_cond in *. split_andb. assumption.
  - repeat match goal with
           | |- context [if ?b then _ else _] => destruct b
           end; simpl; lra.
  - repeat match goal with
           | |- context [if ?b then _ else _] => destruct b
           end; simpl; lra.
  - repeat match goal with
           | |- context [if ?b then _ else _] => destruct b
           end; simpl; lra.
  - repeat match goal with
           | |- context [if ?b then _ else _] => destruct b
           end; simpl; lra.
  - repeat match goal with
           | |- context [if ?b then _ else _] => destruct b
           end; simpl; lra.
Qed.

Lemma detectSignal_guard cs i :
  (i < 50 \/ i > array_length cs - 2)%Z ->
  detectSignal cs i = ret (mkDetected NONE (Fin 50) (Fin 0)).
Proof.
  intro Hi. unfold detectSignal, RECENT_LOOKBACK.
  replace ((i <? 50)%Z || (i >? array_length cs - 2)%Z) with true; trivial.
  symmetry. apply orb_true_iff.
  destruct Hi; [left; apply Z.ltb_lt | right; apply Z.gtb_lt]; lia.
Qed.

(** Past the range guard, [detectSignal] reads the four candles around the
    index, the two indicators and the fifty candles before the index, all
    of them inside the array, and returns what the rules decide. *)
Lemma detectSignal_in_range cs i :
  (50 <= i <= array_length cs - 2)%Z ->
  safe (i - 50) (i + 1) (detectSignal cs i)
       (fun d => exists curr prev prev2 next sr bb,
          nth_error cs (Z.to_nat i) = Some curr
          /\ nth_error cs (Z.to_nat (i - 1)) = Some prev
          /\ nth_error cs (Z.to_nat (i - 2)) = Some prev2
          /\ nth_error cs (Z.to_nat (i + 1)) = Some next
          /\ value (calculateStochRSI cs i) = Some sr
          /\ value (calculateBollingerBands cs i) = Some bb
          /\ d = if jseq (candle_range curr) (Fin 0)
                 then mkDetected NONE sr (Fin 0)
                 else match_patterns curr prev prev2 next sr bb
                        (firstn 50 (skipn (Z.to_nat (i - 50)) cs))).
Proof.
  intro Hi. unfold detectSignal, RECENT_LOOKBACK.
  replace ((i <? 50)%Z || (i >? array_length cs - 2)%Z) with false.
  2:{ symmetry. apply orb_false_iff. split.
      - apply Z.ltb_ge. lia.
      - rewrite Z.gtb_ltb. apply Z.ltb_ge. lia. }
  eapply safe_bind; [apply safe_candle_at; lia |]. intros curr Hcurr.
  eapply safe_bind; [apply safe_candle_at; lia |]. intros prev Hprev.
  eapply safe_bind; [apply safe_candle_at; lia |]. intros prev2 Hprev2.
  eapply safe_bind; [apply safe_candle_at; lia |]. intros next Hnext.
  destruct (calculateStochRSI_window cs i) as (sr & Hsr & _ & Hsrt); [lia |].
  eapply safe_bind with (P := fun v => v = sr).
  { exists sr. repeat split; trivial.
    eapply Forall_impl; [| exact Hsrt]. simpl. intros; lia. }
  intros ? ->.
  destruct (calculateBollingerBands_window cs i) as (bb & Hbb & _ & Hbbt);
    [lia |].
  eapply safe_bind with (P := fun v => v = bb).
  { exists bb. repeat split; trivial.
    eapply Forall_impl; [| exact Hbbt]. simpl. intros; lia. }
  intros ? ->.
  destruct (jseq (candle_range curr) (Fin 0)) eqn:Erange.
  - apply safe_ret. exists curr, prev, prev2, next, sr, bb.
    rewrite Erange. repeat split; trivial.
  - eapply safe_bind.
    + eapply safe_weaken; [apply slice_safe; lia | lia | lia |].
      intros l Hl. exact Hl.
    + intros recent ->. apply safe_ret.
      exists curr, prev, prev2, next, sr, bb.
      rewrite Erange.
      replace (Z.to_nat (i - (i - 50))) with 50%nat by lia.
      repeat split; trivial.
Qed.

End Matcher.

(* ===================================================================== *)
(** ** The scanner *)
(* ===================================================================== *)

Section Scanner.
Context `{MathSqrt}.


(** A pattern is only ever found inside the range of the guard. *)
Lemma detectSignal_found_in_range cs i d :
  value (detectSignal cs i) = Some d -> type d <> NONE ->
  (50 <= i <= array_length cs - 2)%Z.
Proof.
  intros Hd Hty.
  destruct (Z_lt_ge_dec i 50) as [Hlt | Hge];
    [| destruct (Z_gt_le_dec i (array_length cs - 2)) as [Hgt | Hle]];
    try lia;
    rewrite detectSignal_guard in Hd by lia;
    injection Hd as <-; simpl in Hty; congruence.
Qed.


End Scanner.

(* ===================================================================== *)
(** ** Properties of the specification *)
(* ===================================================================== *)

Section Claims.
Context `{MathSqrt}.

(** C1, as amended.  Whenever [detectSignal] finds a pattern, the score is a
    finite number between 0 and 100; it need not be an integer. *)
Theorem detectSignal_score_range cs i d :
  value (detectSignal cs i) = Some d -> type d <> NONE ->
  within 0 100 (score d).
Proof.
  intros Hd Hty.
  pose proof (detectSignal_found_in_range cs i d Hd Hty) as Hi.
  pose proof (detectSignal_in_range cs i Hi) as Hsafe.
  destruct (safe_value _ _ _ _ _ Hsafe Hd)
    as (curr & prev & prev2 & next & sr & bb & _ & _ & _ & _ & _ & _ & ->).
  destruct (jseq (candle_range curr) (Fin 0)).
  - simpl in Hty. congruence.
  - now apply match_patterns_score.
Qed.



(** C5, as amended.  In the arithmetic of the doubles, at every index
    inside the sequence, [calculateRSIValue] and [calculateStochRSI] return
    [NaN] or a number between 0 and 100; when every close is a multiple of
    [2^-1000] of magnitude at most [2^1000], they return a number between 0
    and 100.  This holds for every bar sequence, valid or not, and for every
    rounding that keeps the order and has the doubles named by
    [RoundingLaws]. *)
Theorem indicators_range (R : Rounding) cs i :
  RoundingLaws R ->
  (0 <= i < array_length cs)%Z ->
  exists r s,
    value (Rounded.calculateRSIValue cs i) = Some r
    /\ value (Rounded.calculateStochRSI cs i) = Some s
    /\ nan_or_within 0 100 r /\ nan_or_within 0 100 s
    /\ (Forall (fun c => moderate (close c)) cs ->
        within 0 100 r /\ within 0 100 s).
Proof.
  intros laws Hi.
  destruct (rounded_rsi_safe laws cs i Hi) as (r & Hr & Hrange & _).
  destruct (rounded_stoch_safe laws cs i Hi) as (s & Hs & Hsrange & _).
  exists r, s. repeat (split; [assumption |]).
  intro Hmod.
  destruct (rounded_rsi_moderate laws cs i Hmod Hi) as (r' & Hr' & [Hw _] & _).
  destruct (rounded_stoch_moderate laws cs i Hmod Hi) as (s' & Hs' & Hw' & _).
  split; congruence.
Qed.

(** C6.  Below [RECENT_LOOKBACK] and above [length - 2], [detectSignal]
    returns [NONE] with score 0. *)
Theorem detectSignal_out_of_range cs i :
  (i < RECENT_LOOKBACK \/ i > array_length cs - 2)%Z ->
  exists d, value (detectSignal cs i) = Some d
            /\ type d = NONE /\ score d = Fin 0.
Proof.
  intro Hi. rewrite detectSignal_guard by exact Hi.
  eexists. simpl. auto.
Qed.

(** C7.  On fewer than 52 candles, [scanForSignals] returns the empty list
    and does not throw. *)
Theorem scanForSignals_short cs :
  (array_length cs < 52)%Z -> value (scanForSignals cs) = Some [].
Proof.
  intro Hlen. unfold scanForSignals, for_range.
  rewrite for_loop_ret; [reflexivity |].
  intros k Hk. unfold scan_step.
  rewrite detectSignal_guard by lia.
  now rewrite bind_ret_l.
Qed.



(** C10.  [detectSignal] either stops at the range guard, returning [NONE]
    before it has read any candle, or it does not throw and every position
    it reads lies between [index - 50] and [index + 1], inside the array. *)
Theorem detectSignal_reads_in_bounds cs i :
  ((i < 50 \/ i > array_length cs - 2)%Z
   /\ detectSignal cs i = (Some (mkDetected NONE (Fin 50) (Fin 0)), []))
  \/ ((50 <= i <= array_length cs - 2)%Z
      /\ (exists d, value (detectSignal cs i) = Some d)
      /\ Forall (fun p => (i - 50 <= p <= i + 1)%Z
                          /\ (0 <= p <= array_length cs - 1)%Z)
                (trace (detectSignal cs i))).
Proof.
  destruct (Z_lt_ge_dec i 50) as [Hlt | Hge];
    [| destruct (Z_gt_le_dec i (array_length cs - 2)) as [Hgt | Hle]].
  - left. split; [lia |]. now apply detectSignal_guard; left.
  - left. split; [lia |]. now apply detectSignal_guard; right.
  - right. split; [lia |].
    destruct (detectSignal_in_range cs i) as (d & Hd & _ & Ht); [lia |].
    split; [now exists d |].
    eapply Forall_impl; [| exact Ht]. simpl. intros; lia.
Qed.

End Claims.

(* ===================================================================== *)
(** ** Further properties of the pattern matcher *)
(* ===================================================================== *)

Lemma jslt_Q (a b : Q) : jslt (Fin a) (Fin b) = true -> a < b.
Proof. simpl. apply Qlt_bool_iff. Qed.

Lemma jsgt_Q (a b : Q) : jsgt (Fin a) (Fin b) = true -> b < a.
Proof. unfold jsgt. simpl. apply Qlt_bool_iff. Qed.

Lemma jsle_Q (a b : Q) : jsle (Fin a) (Fin b) = true -> a <= b.
Proof.
  unfold jsle. simpl. rewrite negb_true_iff. apply Qlt_bool_false_iff.
Qed.

Lemma jsge_Q (a b : Q) : jsge (Fin a) (Fin b) = true -> b <= a.
Proof. unfold jsge. apply jsle_Q. Qed.

(** Turn the tests between finite numbers of the context into
    propositions. *)
Ltac fin_tests :=
  repeat match goal with
  | Hb : jslt (Fin _) (Fin _) = true |- _ => apply jslt_Q in Hb
  | Hb : jsgt (Fin _) (Fin _) = true |- _ => apply jsgt_Q in Hb
  | Hb : jsle (Fin _) (Fin _) = true |- _ => apply jsle_Q in Hb
  | Hb : jsge (Fin _) (Fin _) = true |- _ => apply jsge_Q in Hb
  end.

Lemma integral_reduced (q : Q) :
  Qden (Qred q) = 1%positive -> integral (Fin q).
Proof.
  intro Hden. exists (Qnum (Qred q)). rewrite <- (Qred_correct q) at 1.
  destruct (Qred q) as [n d]. simpl in Hden. subst d. reflexivity.
Qed.

(** The score of the two institutional rules, whose sweep bonus is always
    earned. *)
Lemma climatic_score_bounds (vm : jsnum) (b : bool) :
  jsgt vm (Fin CLIMATIC_VOLUME_MULT) = true ->
  exists s,
    jsmin (Fin 95)
      (jsadd (jsadd (jsadd (Fin 60)
                           (jsmin (Fin 20) (jsmul (jssub vm (Fin 2)) (Fin 10))))
                    (Fin 10))
             (if b then Fin 10 else Fin 0)) = Fin s
    /\ 80 <= s /\ s <= 95.
Proof.
  intro Hvm. destruct (jsgt_fin_inv _ _ Hvm) as [(v & -> & Hv) | ->].
  - unfold CLIMATIC_VOLUME_MULT in Hv.
    change (jsmul (jssub (Fin v) (Fin 2)) (Fin 10))
      with (Fin ((v + - 2) * 10)).
    destruct (jsmin_fin 20 ((v + - 2) * 10)) as (m & -> & Hm1 & Hm2 & Hm).
    assert (10 < m) by (destruct Hm as [E | E]; rewrite E; lra).
    destruct b;
      match goal with
      | |- exists s, jsmin (Fin 95) (jsadd (jsadd (jsadd (Fin ?a) (Fin ?b))
                                                  (Fin ?c)) (Fin ?d)) = _ /\ _ =>
          change (jsadd (jsadd (jsadd (Fin a) (Fin b)) (Fin c)) (Fin d))
            with (Fin (a + b + c + d));
          destruct (jsmin_fin 95 (a + b + c + d)) as (s & -> & Hs1 & Hs2 & Hs)
      end;
      exists s; (split; [reflexivity |]);
      destruct Hs as [E | E]; rewrite E; lra.
  - destruct b; eexists; (split; [vm_compute; reflexivity |]); lra.
Qed.

(** The score of the two sudden-reversal rules. *)
Lemma reversal_score_bounds (vm : jsnum) (b : bool) :
  jsgt vm (Fin REVERSAL_VOLUME_MULT) = true ->
  exists s,
    jsadd (jsadd (Fin 45)
                 (jsmin (Fin 25) (jsmul (jssub vm (Fin 1)) (Fin 15))))
          (if b then Fin 15 else Fin 5) = Fin s
    /\ 65 <= s /\ s <= 85.
Proof.
  intro Hvm. destruct (jsgt_fin_inv _ _ Hvm) as [(v & -> & Hv) | ->].
  - unfold REVERSAL_VOLUME_MULT in Hv.
    change (jsmul (jssub (Fin v) (Fin 1)) (Fin 15))
      with (Fin ((v + - 1) * 15)).
    destruct (jsmin_fin 25 ((v + - 1) * 15)) as (m & -> & Hm1 & Hm2 & Hm).
    assert (15 < m) by (destruct Hm as [E | E]; rewrite E; lra).
    destruct b; eexists; (split; [reflexivity |]); lra.
  - destruct b; eexists; (split; [vm_compute; reflexivity |]); lra.
Qed.

(** A score that is a sum of constants. *)
Ltac constant_score :=
  repeat match goal with
         | |- context [if ?b then _ else _] => destruct b
         end;
  simpl;
  first [ eexists; split; [reflexivity | lra]
        | apply integral_reduced; reflexivity ].

Section MatcherProfile.
Context `{MathSqrt}.

Lemma match_patterns_profile curr prev prev2 next q bb recent :
  profile q (match_patterns curr prev prev2 next (Fin q) bb recent).
Proof.
  unfold match_patterns. cbv zeta.
  destruct (spring_cond curr next (Fin q) bb recent) eqn:Hspring.
  { unfold spring_cond in Hspring. destruct bb; [| discriminate].
    cbv zeta in Hspring. split_andb. fin_tests.
    unfold profile. cbn [type score stochRsi score_table momentum_table
                         volume_scored].
    repeat split; trivial; try discriminate.
    match goal with Hd : jslt _ (recentLow _) = true |- _ => rewrite Hd end.
    now apply climatic_score_bounds. }
  destruct (upthrust_cond curr next (Fin q) bb recent) eqn:Hup.
  { unfold upthrust_cond in Hup. destruct bb; [| discriminate].
    cbv zeta in Hup. split_andb. fin_tests.
    unfold profile. cbn [type score stochRsi score_table momentum_table
                         volume_scored].
    repeat split; trivial; try discriminate.
    match goal with Hd : jsgt _ (recentHigh _) = true |- _ => rewrite Hd end.
    now apply climatic_score_bounds. }
  destruct (tweezers_top_cond curr prev (Fin q) recent) eqn:Htop.
  { unfold tweezers_top_cond in Htop. split_andb. fin_tests.
    unfold profile. cbn [type score stochRsi score_table momentum_table
                         volume_scored].
    repeat split; trivial; try (intros _); constant_score. }
  destruct (tweezers_bottom_cond curr prev (Fin q) recent) eqn:Hbottom.
  { unfold tweezers_bottom_cond in Hbottom. split_andb. fin_tests.
    unfold profile. cbn [type score stochRsi score_table momentum_table
                         volume_scored].
    repeat split; trivial; try (intros _); constant_score. }
  destruct (reversal_up_cond curr prev prev2 (Fin q) recent) eqn:Hrevup.
  { unfold reversal_up_cond in Hrevup. split_andb. fin_tests.
    unfold profile. cbn [type score stochRsi score_table momentum_table
                         volume_scored].
    repeat split; trivial; try discriminate.
    now apply reversal_score_bounds. }
  destruct (reversal_down_cond curr prev prev2 (Fin q) recent) eqn:Hrevdown.
  { unfold reversal_down_cond in Hrevdown. split_andb. fin_tests.
    unfold profile. cbn [type score stochRsi score_table momentum_table
                         volume_scored].
    repeat split; trivial; try discriminate.
    now apply reversal_score_bounds. }
  destruct (bullish_engulfing_cond curr prev (Fin q) recent) eqn:Hbull.
  { unfold bullish_engulfing_cond in Hbull. split_andb. fin_tests.
    unfold profile. cbn [type score stochRsi score_table momentum_table
                         volume_scored].
    repeat split; trivial; try (intros _); constant_score. }
  destruct (bearish_engulfing_cond curr prev (Fin q) recent) eqn:Hbear.
  { unfold bearish_engulfing_cond in Hbear. split_andb. fin_tests.
    unfold profile. cbn [type score stochRsi score_table momentum_table
                         volume_scored].
    repeat split; trivial; try (intros _); constant_score. }
  destruct (hammer_cond curr next (Fin q) recent) eqn:Hhammer.
  { unfold hammer_cond in Hhammer. split_andb. fin_tests.
    unfold profile. cbn [type score stochRsi score_table momentum_table
                         volume_scored].
    repeat split; trivial; try (intros _); constant_score. }
  destruct (shooting_star_cond curr next (Fin q) recent) eqn:Hstar.
  { unfold shooting_star_cond in Hstar. split_andb. fin_tests.
    unfold profile. cbn [type score stochRsi score_table momentum_table
                         volume_scored].
    repeat split; trivial; try (intros _); constant_score. }
  destruct (doji_cond curr recent) eqn:Hdoji.
  { unfold profile. cbn [type score stochRsi score_table momentum_table
                         volume_scored].
    repeat split; trivial; try (intros _); constant_score. }
  unfold profile. cbn [type score stochRsi score_table momentum_table
                       volume_scored].
  repeat split; trivial.
  - exists 0. split; reflexivity.
  - intros _. now exists 0%Z.
Qed.

(** Every result of [detectSignal] has the profile of its kind, for a
    Stochastic-RSI between 0 and 100. *)
Lemma detectSignal_profile cs i d :
  value (detectSignal cs i) = Some d ->
  exists q, 0 <= q <= 100 /\ profile q d.
Proof.
  intro Hd.
  assert (profile 50 (mkDetected NONE (Fin 50) (Fin 0))) as Hnone.
  { unfold profile. simpl. repeat split; trivial.
    - exists 0. split; reflexivity.
    - intros _. now exists 0%Z. }
  destruct (Z_lt_ge_dec i 50) as [Hlt | Hge];
    [| destruct (Z_gt_le_dec i (array_length cs - 2)) as [Hgt | Hle]].
  - rewrite detectSignal_guard in Hd by lia. injection Hd as <-.
    exists 50. split; [lra | exact Hnone].
  - rewrite detectSignal_guard in Hd by lia. injection Hd as <-.
    exists 50. split; [lra | exact Hnone].
  - assert (50 <= i <= array_length cs - 2)%Z as Hi by lia.
    pose proof (detectSignal_in_range cs i Hi) as Hsafe.
    destruct (safe_value _ _ _ _ _ Hsafe Hd)
      as (curr & prev & prev2 & next & sr & bb & _ & _ & _ & _ & Hsr & _ & ->).
    destruct (calculateStochRSI_safe cs i) as (sr' & Hsr' & Hw & _); [lia |].
    assert (sr' = sr) as -> by congruence.
    destruct sr as [q | | |]; simpl in Hw; try contradiction.
    exists q. split; [exact Hw |].
    destruct (jseq (candle_range curr) (Fin 0)).
    + unfold profile. simpl. repeat split; trivial.
      * exists 0. split; reflexivity.
      * intros _. now exists 0%Z.
    + apply match_patterns_profile.
Qed.

End MatcherProfile.

Section MatcherProperties.
Context `{MathSqrt}.

(** X1.  The score of every result of [detectSignal] lies in the interval
    of its kind: [80, 95] for the institutional kinds, [55, 90] for the
    tweezers, [65, 85] for the sudden reversals, [50, 75] for the engulfing
    kinds, [45, 70] for the pinbars, [30, 75] for the doji and 0 for [NONE];
    no other kind is ever returned. *)
Theorem detectSignal_score_by_kind cs i d :
  value (detectSignal cs i) = Some d ->
  exists s, score d = Fin s /\ score_table (type d) s.
Proof.
  intro Hd. destruct (detectSignal_profile cs i d Hd) as (q & _ & Hp).
  exact (proj1 (proj2 Hp)).
Qed.

(** X2.  With every kind whose rule tests the oscillator, that is every
    kind but the doji and [NONE], [detectSignal] returns a Stochastic-RSI
    that is a finite number between 0 and 100, on the side the rule asks
    for: below 20 for a spring, a sudden reversal up and a bullish
    engulfing, below 15 for a tweezers bottom, at most 20 for a hammer;
    above 80 for an upthrust, a sudden reversal down and a bearish
    engulfing, above 85 for a tweezers top, at least 80 for a shooting star.
    The doji and [NONE] come with whatever [calculateStochRSI] returned. *)
Theorem detectSignal_momentum_side cs i d :
  value (detectSignal cs i) = Some d ->
  type d <> NONE -> type d <> DOJI ->
  exists q, stochRsi d = Fin q /\ 0 <= q <= 100
            /\ momentum_table (type d) q.
Proof.
  intros Hd _ _. destruct (detectSignal_profile cs i d Hd) as (q & Hq & Hp).
  exists q. split; [exact (proj1 Hp) |]. split; [exact Hq |].
  exact (proj1 (proj2 (proj2 Hp))).
Qed.

(** X3.  Outside the institutional and the sudden-reversal kinds, whose
    score has a term proportional to the volume multiple, the score that
    [detectSignal] returns is an integer. *)
Theorem detectSignal_score_integral cs i d :
  value (detectSignal cs i) = Some d ->
  volume_scored (type d) = false ->
  integral (score d).
Proof.
  intro Hd. destruct (detectSignal_profile cs i d Hd) as (q & _ & Hp).
  exact (proj2 (proj2 (proj2 Hp))).
Qed.

(** X4.  On a candle without range inside the range of the guard,
    [detectSignal] returns [NONE] with score 0, whatever the rules would
    say, and with the Stochastic-RSI of the index. *)
Theorem detectSignal_degenerate cs i curr :
  (50 <= i <= array_length cs - 2)%Z ->
  value (candle_at cs i) = Some curr ->
  high curr == low curr ->
  exists sr,
    value (calculateStochRSI cs i) = Some sr
    /\ value (detectSignal cs i) = Some (mkDetected NONE sr (Fin 0)).
Proof.
  intros Hi Hcurr Hflat.
  apply candle_at_value in Hcurr; [| lia].
  destruct (detectSignal_in_range cs i Hi)
    as (d & Hd & (curr' & prev & prev2 & next & sr & bb
                  & Ec & _ & _ & _ & Es & _ & ->) & _).
  assert (curr' = curr) as -> by congruence.
  exists sr. split; [exact Es |]. rewrite Hd.
  replace (jseq (candle_range curr) (Fin 0)) with true; trivial.
  symmetry. unfold candle_range. simpl. apply Qeq_bool_iff. lra.
Qed.

(** X5.  The two copies of [isBullish], in the application and in the
    chart, agree.  On every pattern other than a doji that [detectSignal]
    finds, the colour follows the oscillator: a bullish verdict goes with a
    Stochastic-RSI of at most 20, the other verdict with one of at least 80.
    A doji is bullish exactly when its Stochastic-RSI is missing, [NaN] or
    at most 50: the default 50 of the test stands in for a missing one, for
    0 and for [NaN]. *)
Theorem isBullish_follows_momentum :
  (forall t sr, App.isBullish t sr = CandleChart.isBullish t sr)
  /\ (forall cs i d,
        value (detectSignal cs i) = Some d ->
        type d <> NONE -> type d <> DOJI ->
        exists q,
          stochRsi d = Fin q
          /\ (App.isBullish (type d) (Some (stochRsi d)) = true -> q <= 20)
          /\ (App.isBullish (type d) (Some (stochRsi d)) = false -> 80 <= q))
  /\ App.isBullish DOJI None = true
  /\ (forall sr,
        App.isBullish DOJI (Some sr) = true
        <-> sr = NaN \/ jsle sr (Fin 50) = true).
Proof.
  split; [| split; [| split]].
  - intros t sr. now destruct t.
  - intros cs i d Hd Hty Hdoji.
    destruct (detectSignal_profile cs i d Hd)
      as (q & Hq & Hsr & (s & _ & Hs) & Hm & _).
    exists q. split; [exact Hsr |].
    destruct d as [t sr sc]. simpl in *. subst sr.
    destruct t; simpl in Hs, Hm; try contradiction; try congruence;
      unfold App.isBullish; simpl;
      split; intro Hb; try discriminate; lra.
  - reflexivity.
  - intro sr. unfold App.isBullish.
    change (SignalType_eqb DOJI DOJI) with true. cbv iota.
    unfold or_default, falsy_num.
    destruct sr as [q | | |].
    + destruct (Qeq_bool q 0) eqn:E.
      * split; [intros _ | reflexivity]. right.
        apply Qeq_bool_iff in E. unfold jsle. simpl.
        rewrite negb_true_iff. apply Qlt_bool_false_iff. lra.
      * split; [intro Hb; right; exact Hb | intros [Hn | Hb];
                                             [discriminate | exact Hb]].
    + split; [intro Hb; right; exact Hb | intros [Hn | Hb];
                                           [discriminate | exact Hb]].
    + split; [intro Hb; right; exact Hb | intros [Hn | Hb];
                                           [discriminate | exact Hb]].
    + split; [intros _; left; reflexivity | reflexivity].
Qed.

End MatcherProperties.

(* ===================================================================== *)
(** ** Further properties of the scanner *)
(* ===================================================================== *)

Lemma positions_app (lo : Z) (a b : nat) :
  positions lo (a + b) = positions lo a ++ positions (lo + Z.of_nat a) b.
Proof.
  revert lo. induction a as [| a IH]; intro lo.
  - simpl. now rewrite Z.add_0_r.
  - change (positions lo (Datatypes.S a + b))
      with (lo :: positions (lo + 1) (a + b)).
    rewrite IH. simpl. do 3 f_equal. lia.
Qed.

Lemma flat_map_nil {A B} (f : A -> list B) (l : list A) :
  Forall (fun a => f a = []) l -> flat_map f l = [].
Proof.
  induction 1 as [| a l Ha _ IH]; simpl; [reflexivity |].
  now rewrite Ha, IH.
Qed.

(** In a sequence of increasing times, a later candle has a later time. *)
Lemma increasing_times_nth (cs : list Candle) :
  increasing_times cs ->
  forall (i j : nat) c c',
    (i < j)%nat -> nth_error cs i = Some c -> nth_error cs j = Some c' ->
    (time c < time c')%Z.
Proof.
  induction cs as [| a cs IH]; intros Hinc i j c c' Hij Hi Hj.
  - destruct i; discriminate.
  - assert (increasing_times cs) as Htail.
    { destruct cs as [| b cs]; [exact I | exact (proj2 Hinc)]. }
    assert (forall k ck, nth_error cs k = Some ck -> (time a < time ck)%Z)
      as Hhead.
    { intros k. induction k as [| k IHk]; intros ck Hk.
      - destruct cs as [| b cs]; [discriminate |].
        simpl in Hk. injection Hk as <-. exact (proj1 Hinc).
      - destruct cs as [| b cs]; [discriminate |].
        destruct (nth_error (b :: cs) k) as [ck' |] eqn:Ek.
        + pose proof (IHk ck' eq_refl) as Hlt.
          pose proof (IH Htail k (Datatypes.S k) ck' ck
                         (Nat.lt_succ_diag_r k) Ek Hk).
          lia.
        + apply nth_error_None in Ek.
          assert (nth_error (b :: cs) (Datatypes.S k) = None) as En
              by (apply nth_error_None; lia).
          congruence. }
    destruct j as [| j]; [lia |]. simpl in Hj.
    destruct i as [| i].
    + simpl in Hi. injection Hi as <-. now apply (Hhead j).
    + simpl in Hi. apply (IH Htail i j); trivial. lia.
Qed.

Section ScannerProperties.
Context `{MathSqrt}.

Lemma signal_at_below cs i : (i < 50)%Z -> signal_at cs i = [].
Proof.
  intro Hi. unfold signal_at. rewrite detectSignal_guard by lia.
  cbn [value ret fst]. now destruct (value (candle_at cs i)).
Qed.

(** A signal of a position: what its fields are. *)
Lemma signal_at_inv cs i s :
  In s (signal_at cs i) ->
  exists d c,
    (50 <= i <= array_length cs - 2)%Z
    /\ value (detectSignal cs i) = Some d /\ type d <> NONE
    /\ nth_error cs (Z.to_nat i) = Some c
    /\ s = TradingSignal.mk c (type d) (time c) None false
                            (score d) (Some (stochRsi d)).
Proof.
  unfold signal_at. intro Hin.
  destruct (value (detectSignal cs i)) as [d |] eqn:Hd; [| contradiction].
  destruct (value (candle_at cs i)) as [c |] eqn:Hc; [| contradiction].
  destruct (SignalType_eqb (type d) NONE) eqn:E; simpl in Hin;
    [contradiction |].
  destruct Hin as [<- | []].
  assert (type d <> NONE) as Hty by (intros E'; rewrite E' in E; discriminate).
  pose proof (detectSignal_found_in_range cs i d Hd Hty) as Hi.
  exists d, c. repeat split; trivial; try lia.
  apply candle_at_value; [lia | exact Hc].
Qed.

(** One turn of the loop of [scanForSignals], with its reads. *)
Lemma scan_step_safe cs i signals :
  safe 0 (array_length cs - 1) (scan_step cs i signals)
       (fun r => r = signals ++ signal_at cs i).
Proof.
  unfold scan_step, signal_at.
  assert (safe 0 (array_length cs - 1) (detectSignal cs i)
               (fun d => value (detectSignal cs i) = Some d)) as Hdetect.
  { destruct (Z_lt_ge_dec i 50) as [Hlt | Hge];
      [| destruct (Z_gt_le_dec i (array_length cs - 2)) as [Hgt | Hle]].
    - rewrite detectSignal_guard by lia. now apply safe_ret.
    - rewrite detectSignal_guard by lia. now apply safe_ret.
    - destruct (detectSignal_in_range cs i) as (d & Hd & _ & Ht); [lia |].
      exists d. repeat split; trivial.
      eapply Forall_impl; [| exact Ht]. simpl. intros; lia. }
  eapply safe_bind; [exact Hdetect |].
  intros d Hd. rewrite Hd.
  destruct (SignalType_eqb (type d) NONE) eqn:E; simpl negb; cbv iota.
  - apply safe_ret. destruct (value (candle_at cs i)); now rewrite app_nil_r.
  - assert (type d <> NONE) as Hty by (intros E'; rewrite E' in E; discriminate).
    pose proof (detectSignal_found_in_range cs i d Hd Hty) as Hi.
    pose proof (safe_candle_at 0 (array_length cs - 1) cs i) as Hread.
    destruct Hread as (c & Hc & Hnth & Ht); [lia | lia |].
    rewrite Hc.
    eapply safe_bind with (P := fun c' => c' = c).
    { exists c. auto. }
    intros ? ->.
    eapply safe_bind with (P := fun c' => c' = c).
    { exists c. auto. }
    intros ? ->. now apply safe_ret.
Qed.

(** [scanForSignals] in closed form, with its reads. *)
Lemma scan_closed_form cs :
  value (scanForSignals cs) = Some (signals_from_50 cs)
  /\ Forall (fun p => (0 <= p <= array_length cs - 1)%Z)
            (trace (scanForSignals cs)).
Proof.
  unfold scanForSignals, for_range.
  set (n := Z.to_nat (array_length cs - 1 - 1 - 25 + 1)).
  pose (I := fun (k : Z) (signals : list TradingSignal.t) =>
    signals = flat_map (signal_at cs) (positions 25 (Z.to_nat (k - 25)))).
  assert (safe 0 (array_length cs - 1)
               (for_loop n 25 (scan_step cs) [])
               (I (25 + Z.of_nat n)%Z)) as Hloop.
  { apply safe_for_loop.
    - reflexivity.
    - intros k signals Hk ->.
      eapply safe_weaken; [apply scan_step_safe | lia | lia |].
      intros r ->. unfold I.
      replace (Z.to_nat (k + 1 - 25)) with (Z.to_nat (k - 25) + 1)%nat by lia.
      rewrite positions_app, flat_map_app.
      replace (25 + Z.of_nat (Z.to_nat (k - 25)))%Z with k by lia.
      cbn [positions flat_map]. now rewrite app_nil_r. }
  destruct Hloop as (r & Hr & HI & Ht).
  split; [| exact Ht].
  rewrite Hr. f_equal. unfold I in HI. subst r.
  replace (Z.to_nat (25 + Z.of_nat n - 25)) with n by lia.
  unfold signals_from_50.
  destruct (Z_lt_ge_dec (array_length cs) 51) as [Hshort | Hlong].
  - replace (Z.to_nat (array_length cs - 51)) with 0%nat by lia.
    simpl. apply flat_map_nil.
    eapply Forall_impl; [| apply positions_bounds].
    cbv beta. intros k Hk. apply signal_at_below. unfold n in Hk. lia.
  - replace n with (25 + Z.to_nat (array_length cs - 51))%nat
      by (unfold n; lia).
    rewrite positions_app, flat_map_app.
    rewrite (flat_map_nil (signal_at cs) (positions 25 25)); [reflexivity |].
    eapply Forall_impl; [| apply positions_bounds].
    cbv beta. intros k Hk. apply signal_at_below.
    change (Z.of_nat 25) with 25%Z in Hk. lia.
Qed.

(** X6.  [scanForSignals] never throws and reads inside the array only; its
    result is the list of the signals of the positions 50 to [length - 2],
    in this order: the positions 25 to 49, which the loop also visits, give
    nothing. *)
Theorem scanForSignals_closed_form cs :
  value (scanForSignals cs) = Some (signals_from_50 cs)
  /\ Forall (fun p => (0 <= p <= array_length cs - 1)%Z)
            (trace (scanForSignals cs)).
Proof. exact (scan_closed_form cs). Qed.

(** Every signal of the scan is the signal of a position. *)
Lemma scanForSignals_In cs signals s :
  value (scanForSignals cs) = Some signals -> In s signals ->
  exists i, In s (signal_at cs i).
Proof.
  intros Hscan Hin.
  rewrite (proj1 (scan_closed_form cs)) in Hscan.
  injection Hscan as <-. unfold signals_from_50 in Hin.
  apply in_flat_map in Hin. destruct Hin as (i & _ & Hin). now exists i.
Qed.

(** X7.  Every signal that [scanForSignals] returns carries a candle of the
    sequence at a position between 50 and [length - 2], the kind, score and
    Stochastic-RSI that [detectSignal] returns there, the time of the candle
    as timestamp, no confirmation, a kind other than [NONE], a score between
    30 and 95 and, unless it is a doji, a Stochastic-RSI between 0 and
    100. *)
Theorem scanForSignals_signal_fields cs signals s :
  value (scanForSignals cs) = Some signals -> In s signals ->
  (exists i d,
      (50 <= i <= array_length cs - 2)%Z
      /\ nth_error cs (Z.to_nat i) = Some (TradingSignal.candle s)
      /\ value (detectSignal cs i) = Some d
      /\ TradingSignal.type s = type d
      /\ TradingSignal.score s = score d
      /\ TradingSignal.stochRsi s = Some (stochRsi d))
  /\ TradingSignal.type s <> NONE
  /\ TradingSignal.timestamp s = time (TradingSignal.candle s)
  /\ TradingSignal.isConfirmed s = false
  /\ TradingSignal.aiConfirmation s = None
  /\ within 30 95 (TradingSignal.score s)
  /\ (TradingSignal.type s <> DOJI ->
      exists v, TradingSignal.stochRsi s = Some v /\ within 0 100 v).
Proof.
  intros Hscan Hin.
  destruct (scanForSignals_In cs signals s Hscan Hin) as (i & Hi).
  destruct (signal_at_inv cs i s Hi) as (d & c & Hrange & Hd & Hty & Hc & ->).
  simpl.
  destruct (detectSignal_profile cs i d Hd)
    as (q & Hq & Hsr & (sc & Hsc & Htable) & _).
  repeat split; trivial.
  - exists i, d. repeat split; trivial; lia.
  - rewrite Hsc. simpl.
    destruct (type d); simpl in Htable; try contradiction; try congruence;
      lra.
  - exists (stochRsi d). split; trivial. rewrite Hsr. exact Hq.
Qed.

(** The timestamps of the signals of increasing positions increase. *)
Lemma signal_timestamps_sorted cs :
  increasing_times cs ->
  forall (n : nat) (lo : Z),
    (0 <= lo)%Z ->
    StronglySorted Z.lt
      (map TradingSignal.timestamp
           (flat_map (signal_at cs) (positions lo n)))
    /\ Forall (fun s => exists j c, (lo <= j)%Z
                          /\ nth_error cs (Z.to_nat j) = Some c
                          /\ TradingSignal.timestamp s = time c)
              (flat_map (signal_at cs) (positions lo n)).
Proof.
  intros Hinc. induction n as [| n IH]; intros lo Hlo.
  - simpl. split; constructor.
  - change (positions lo (Datatypes.S n)) with (lo :: positions (lo + 1) n).
    simpl flat_map.
    destruct (IH (lo + 1)%Z) as [Hsorted Hall]; [lia |].
    assert (Forall (fun s => exists j c, (lo <= j)%Z
                       /\ nth_error cs (Z.to_nat j) = Some c
                       /\ TradingSignal.timestamp s = time c)
                   (flat_map (signal_at cs) (positions (lo + 1) n))) as Hall'.
    { eapply Forall_impl; [| exact Hall]. simpl.
      intros s (j & c & Hj & Hc & Hs). exists j, c. repeat split; trivial.
      lia. }
    destruct (signal_at cs lo) as [| s rest] eqn:E; [now split |].
    assert (In s (signal_at cs lo)) as Hin by (rewrite E; now left).
    destruct (signal_at_inv cs lo s Hin) as (d & c & _ & _ & _ & Hc & Hs).
    assert (rest = []) as ->.
    { revert E. unfold signal_at.
      destruct (value (detectSignal cs lo)); [| discriminate].
      destruct (value (candle_at cs lo)); [| discriminate].
      destruct (negb _); [| discriminate]. now intros [= _ <-]. }
    simpl. split.
    + constructor; [exact Hsorted |].
      apply Forall_map. eapply Forall_impl; [| exact Hall]. simpl.
      intros s' (j & c' & Hj & Hc' & Hs'). rewrite Hs'. subst s. simpl.
      apply (increasing_times_nth cs Hinc (Z.to_nat lo) (Z.to_nat j));
        trivial. lia.
    + constructor; [| exact Hall'].
      exists lo, c. subst s. simpl. repeat split; trivial. lia.
Qed.

(** X8.  On candles of strictly increasing times, the timestamps of the
    signals that [scanForSignals] returns increase strictly: the signals are
    in the order of time, and no two of them share a timestamp. *)
Theorem scanForSignals_timestamps_increase cs signals :
  increasing_times cs ->
  value (scanForSignals cs) = Some signals ->
  StronglySorted Z.lt (map TradingSignal.timestamp signals).
Proof.
  intros Hinc Hscan.
  rewrite (proj1 (scan_closed_form cs)) in Hscan.
  injection Hscan as <-. unfold signals_from_50.
  apply (signal_timestamps_sorted cs Hinc). lia.
Qed.

End ScannerProperties.

(* ===================================================================== *)
(** ** Further properties of the indicators *)
(* ===================================================================== *)

Lemma rsi_of_closed_form (g l : Q) :
  0 <= g -> 0 <= l -> ~ g + l == 0 -> rsi_of g l == 100 * g / (g + l).
Proof.
  intros Hg Hl Hsum. unfold rsi_of.
  destruct (Qeq_bool l 0) eqn:E; qprop.
  - rewrite E. field. lra.
  - field. repeat split; lra.
Qed.

Lemma rsi_of_scale (a g l : Q) :
  0 < a -> 0 <= g -> 0 <= l -> rsi_of (a * g) (a * l) == rsi_of g l.
Proof.
  intros Ha Hg Hl. unfold rsi_of.
  destruct (Qeq_bool l 0) eqn:E, (Qeq_bool (a * l) 0) eqn:E'; qprop;
    try reflexivity.
  - exfalso. apply E'. rewrite E. ring.
  - exfalso. apply E. apply Qmult_integral in E'. destruct E'; [lra | trivial].
  - field. repeat split; lra.
Qed.

Lemma Qsum_map_scale {A} (f g : A -> Q) (a : Q) (l : list A) :
  Forall (fun x => g x == a * f x) l ->
  Qsum (map g l) == a * Qsum (map f l).
Proof.
  induction 1 as [| x l Hx _ IH]; simpl; [ring |].
  rewrite Hx, IH. ring.
Qed.

(** The last turn of a loop that throws makes the loop throw. *)
Lemma for_loop_last_throws {S} (body : Z -> S -> M S) :
  forall (n : nat) (lo : Z) (s : S),
    (forall s', value (body (lo + Z.of_nat n)%Z s') = None) ->
    value (for_loop (Datatypes.S n) lo body s) = None.
Proof.
  induction n as [| n IH]; intros lo s Hlast.
  - simpl for_loop. rewrite value_bind.
    replace (lo + Z.of_nat 0)%Z with lo in Hlast by lia.
    now rewrite Hlast.
  - change (for_loop (Datatypes.S (Datatypes.S n)) lo body s)
      with (bind (body lo s)
                 (fun s' => for_loop (Datatypes.S n) (lo + 1)%Z body s')).
    rewrite value_bind. destruct (value (body lo s)); trivial.
    apply IH. intro s'.
    replace (lo + 1 + Z.of_nat n)%Z with (lo + Z.of_nat (Datatypes.S n))%Z
      by lia.
    apply Hlast.
Qed.

(** [slice] never throws and copies from inside the array only. *)
Lemma slice_total (cs : list Candle) (a b : Z) :
  exists l, value (slice cs a b) = Some l
            /\ Forall (fun p => (0 <= p <= array_length cs - 1)%Z)
                      (trace (slice cs a b)).
Proof.
  unfold slice. eexists. split; [reflexivity |].
  cbn [trace snd].
  set (k := if (a <? 0)%Z then Z.max (array_length cs + a) 0
            else Z.min a (array_length cs)).
  set (final := if (b <? 0)%Z then Z.max (array_length cs + b) 0
                else Z.min b (array_length cs)).
  assert (0 <= k)%Z as Hk.
  { unfold k, array_length. destruct (a <? 0)%Z eqn:E; [lia |].
    apply Z.ltb_ge in E. lia. }
  assert (final <= array_length cs)%Z as Hfinal.
  { unfold final. destruct (b <? 0)%Z eqn:E; [| lia].
    apply Z.ltb_lt in E. unfold array_length. lia. }
  eapply Forall_impl; [| apply positions_bounds].
  cbv beta. intros p Hp. lia.
Qed.

Section IndicatorProperties.
Context `{MathSqrt}.

(** X9.  With a full window behind the index and some movement of the
    close in it, [calculateRSIValue] returns 100 times the share of the
    gains in the sum of the gains and the losses. *)
Theorem calculateRSIValue_closed_form cs i :
  (14 <= i < array_length cs)%Z ->
  ~ summed_gains cs i + summed_losses cs i == 0 ->
  exists r,
    value (calculateRSIValue cs i) = Some (Fin r)
    /\ r == 100 * summed_gains cs i
            / (summed_gains cs i + summed_losses cs i).
Proof.
  intros Hi Hmove.
  destruct (calculateRSIValue_window cs i Hi)
    as (v & Hv & (g & l & Hg & Hl & ->) & _).
  exists (rsi_of g l). split; [exact Hv |].
  rewrite (rsi_of_compat g (summed_gains cs i) l (summed_losses cs i) Hg Hl).
  apply rsi_of_closed_form; trivial.
  - apply summed_gains_nonneg.
  - apply summed_losses_nonneg.
Qed.

Lemma gain_loss_scale cs cs' a b k :
  0 < a ->
  close_at cs' k == a * close_at cs k + b ->
  close_at cs' (k - 1) == a * close_at cs (k - 1) + b ->
  gain_at cs' k == a * gain_at cs k /\ loss_at cs' k == a * loss_at cs k.
Proof.
  intros Ha Hk Hk1.
  assert (delta_at cs' k == a * delta_at cs k) as Hd.
  { unfold delta_at. rewrite Hk, Hk1. ring. }
  unfold gain_at, loss_at.
  destruct (Qle_bool 0 (delta_at cs k)) eqn:E,
           (Qle_bool 0 (delta_at cs' k)) eqn:E'.
  - split; [exact Hd | ring].
  - exfalso. apply Qle_bool_iff in E.
    assert (0 <= delta_at cs' k) as Hpos
        by (rewrite Hd; apply Qmult_le_0_compat; lra).
    apply Qle_bool_iff in Hpos. congruence.
  - exfalso. apply Qle_bool_iff in E'. rewrite Hd in E'.
    assert (0 <= delta_at cs k) as Hpos.
    { apply Qnot_lt_le. intro Hneg.
      assert (0 < a * - delta_at cs k)
        by (apply Qmult_lt_0_compat; lra).
      lra. }
    apply Qle_bool_iff in Hpos. congruence.
  - split; [ring | rewrite Hd; ring].
Qed.

(** X10.  [calculateRSIValue] does not depend on the unit or the origin of
    the prices: on two sequences of the same length whose closes are related
    by [close' = a * close + b] with [a > 0], it returns the same number at
    every index inside them. *)
Theorem calculateRSIValue_rescale cs cs' a b i :
  0 < a ->
  length cs' = length cs ->
  (forall k, (0 <= k < array_length cs)%Z ->
             close_at cs' k == a * close_at cs k + b) ->
  (0 <= i < array_length cs)%Z ->
  exists r r',
    value (calculateRSIValue cs i) = Some (Fin r)
    /\ value (calculateRSIValue cs' i) = Some (Fin r')
    /\ r == r'.
Proof.
  intros Ha Hlen Hclose Hi.
  assert (array_length cs' = array_length cs) as Hlen'
      by (unfold array_length; now rewrite Hlen).
  destruct (Z_lt_ge_dec i 14) as [Hlt | Hge].
  - rewrite !calculateRSIValue_early by exact Hlt.
    exists 50, 50. repeat split; reflexivity.
  - destruct (calculateRSIValue_window cs i)
      as (v & Hv & (g & l & Hg & Hl & ->) & _); [lia |].
    destruct (calculateRSIValue_window cs' i)
      as (v' & Hv' & (g' & l' & Hg' & Hl' & ->) & _); [lia |].
    exists (rsi_of g l), (rsi_of g' l'). split; [exact Hv |].
    split; [exact Hv' |].
    assert (Forall (fun k => gain_at cs' k == a * gain_at cs k
                             /\ loss_at cs' k == a * loss_at cs k)
                   (positions (i - 13) 14)) as Hall.
    { eapply Forall_impl; [| apply positions_bounds]. cbv beta.
      intros k Hk. change (Z.of_nat 14) with 14%Z in Hk.
      apply (gain_loss_scale cs cs' a b k Ha); apply Hclose; lia. }
    assert (summed_gains cs' i == a * summed_gains cs i) as HG.
    { apply Qsum_map_scale. eapply Forall_impl; [| exact Hall].
      cbv beta. tauto. }
    assert (summed_losses cs' i == a * summed_losses cs i) as HL.
    { apply Qsum_map_scale. eapply Forall_impl; [| exact Hall].
      cbv beta. tauto. }
    rewrite (rsi_of_compat g' (a * g) l' (a * l)).
    + symmetry. apply rsi_of_scale; trivial.
      * rewrite Hg. apply summed_gains_nonneg.
      * rewrite Hl. apply summed_losses_nonneg.
    + now rewrite Hg', HG, Hg.
    + now rewrite Hl', HL, Hl.
Qed.

(** X11.  At an index at or past the end of the array nothing guards the
    two momentum indicators from above: [calculateRSIValue] returns 50 below
    14 and throws from 14 on, the exported [calculateStochRSI] returns 50
    below 28 and throws from 28 on. *)
Theorem momentum_indicators_past_the_end cs i :
  (array_length cs <= i)%Z ->
  value (calculateRSIValue cs i)
  = (if (i <? 14)%Z then Some (Fin 50) else None)
  /\ value (calculateStochRSI cs i)
     = (if (i <? 28)%Z then Some (Fin 50) else None).
Proof.
  intro Hi.
  assert ((14 <= i)%Z -> value (calculateRSIValue cs i) = None) as Hrsi.
  { intro Hge. unfold calculateRSIValue, RSI_PERIOD.
    replace (i <? 14)%Z with false by (symmetry; apply Z.ltb_ge; lia).
    rewrite value_bind. unfold for_range.
    replace (Z.to_nat (i - (i - 14 + 1) + 1)) with 14%nat by lia.
    rewrite for_loop_last_throws; trivial.
    intros [g l]. replace (i - 14 + 1 + Z.of_nat 13)%Z with i by lia.
    unfold rsi_step. rewrite value_bind.
    unfold candle_at, value. cbn [fst].
    replace (nth_error cs (Z.to_nat i)) with (@None Candle).
    - now destruct (0 <=? i)%Z.
    - symmetry. apply nth_error_None. unfold array_length in Hi. lia. }
  split.
  - destruct (i <? 14)%Z eqn:E.
    + apply Z.ltb_lt in E. now rewrite calculateRSIValue_early.
    + apply Z.ltb_ge in E. now apply Hrsi.
  - destruct (i <? 28)%Z eqn:E.
    + apply Z.ltb_lt in E. now rewrite calculateStochRSI_early.
    + apply Z.ltb_ge in E.
      unfold calculateStochRSI, RSI_PERIOD, STOCH_PERIOD.
      replace (i <? 14 + 14)%Z with false by (symmetry; apply Z.ltb_ge; lia).
      rewrite value_bind. unfold for_range.
      replace (Z.to_nat (i - (i - 14 + 1) + 1)) with 14%nat by lia.
      rewrite for_loop_last_throws; trivial.
      intros vals. replace (i - 14 + 1 + Z.of_nat 13)%Z with i by lia.
      unfold stoch_step. rewrite value_bind. rewrite Hrsi by lia. reflexivity.
Qed.

(** X12.  [calculateBollingerBands] never throws, whatever the index, and
    copies from inside the array only.  In exact arithmetic, that is when no
    operation rounds or overflows, the bands it returns are finite numbers,
    the upper and the lower band lie at the same distance from the middle
    band, and on the sides their names say when [Math.sqrt] returns no
    negative number. *)
Theorem calculateBollingerBands_total cs i :
  exists r,
    value (calculateBollingerBands cs i) = Some r
    /\ Forall (fun p => (0 <= p <= array_length cs - 1)%Z)
              (trace (calculateBollingerBands cs i))
    /\ forall b, r = Some b ->
         exists m u l,
           middle b = Fin m /\ upper b = Fin u /\ lower b = Fin l
           /\ u + l == 2 * m
           /\ ((forall q, 0 <= math_sqrt q) -> l <= m /\ m <= u).
Proof.
  unfold calculateBollingerBands.
  destruct (i <? BB_PERIOD)%Z.
  - exists None. repeat split; [constructor | discriminate].
  - destruct (slice_total cs (i - BB_PERIOD + 1) (i + 1)) as (w & Hw & Ht).
    destruct (slice cs (i - BB_PERIOD + 1) (i + 1)) as [[w' |] t] eqn:E;
      simpl in Hw; [| discriminate].
    injection Hw as ->. simpl in Ht.
    destruct (bands_of_window w) as (m & v & _ & _ & _ & Eb).
    exists (Some (mkBands (Fin m) (Fin (m + BB_STD_DEV * math_sqrt v))
                          (Fin (m - BB_STD_DEV * math_sqrt v)))).
    split; [rewrite <- Eb; reflexivity |].
    split; [cbn [bind ret trace snd]; now rewrite app_nil_r |].
    intros b [= <-].
    exists m, (m + BB_STD_DEV * math_sqrt v), (m - BB_STD_DEV * math_sqrt v).
    cbn [middle upper lower]. repeat split; trivial.
    + ring.
    + pose proof (H0 v). unfold BB_STD_DEV. lra.
    + pose proof (H0 v). unfold BB_STD_DEV. lra.
Qed.

End IndicatorProperties.

(* ===================================================================== *)
(** ** Properties of the chart component *)
(* ===================================================================== *)

Lemma fold_jsadd_fin (qs : list Q) (acc : Q) :
  exists t, fold_left jsadd (map Fin qs) (Fin acc) = Fin t
            /\ t == acc + Qsum qs.
Proof.
  revert acc. induction qs as [| x qs IH]; intro acc; simpl.
  - exists acc. split; [reflexivity | lra].
  - destruct (IH (acc + x)) as (t & Ht & E).
    exists t. split; [exact Ht | lra].
Qed.

Lemma fold_squares_fin (m : Q) (qs : list Q) (acc : Q) :
  exists t,
    fold_left (fun a b => jsadd a (jssquare (jssub b (Fin m))))
              (map Fin qs) (Fin acc) = Fin t
    /\ t == acc + Qsum (map (fun x => (x - m) * (x - m)) qs).
Proof.
  revert acc. induction qs as [| x qs IH]; intro acc; simpl.
  - exists acc. split; [reflexivity | lra].
  - destruct (IH (acc + (x + - m) * (x + - m))) as (t & Ht & E).
    exists t. split; [exact Ht |]. rewrite E. unfold Qminus. lra.
Qed.

Lemma nth_error_snoc_old {A} (l : list A) (x : A) (j : nat) :
  (j < length l)%nat -> nth_error (l ++ [x]) j = nth_error l j.
Proof. intro Hj. now apply nth_error_app1. Qed.

Lemma nth_error_snoc_new {A} (l : list A) (x : A) (j : nat) :
  length l = j -> nth_error (l ++ [x]) j = Some x.
Proof. intros <-. rewrite nth_error_app2 by lia. now rewrite Nat.sub_diag. Qed.

Section ChartProperties.
Context `{MathSqrt}.

(** One turn of the loop of the chart with a full window behind it. *)
Lemma bands_step_window cs i acc :
  (19 <= i < array_length cs)%Z ->
  exists m v,
    m == sma20 cs i /\ v == variance20 cs i
    /\ CandleChart.bands_step cs i acc
       = (Some (CandleChart.mkSeries
                  (CandleChart.upperBB acc
                   ++ [Some (Fin (m + 2.0 * math_sqrt v))])
                  (CandleChart.middleBB acc ++ [Some (Fin m)])
                  (CandleChart.lowerBB acc
                   ++ [Some (Fin (m - 2.0 * math_sqrt v))])),
          positions (i - 19) 20).
Proof.
  intro Hi. unfold CandleChart.bands_step, CandleChart.BB_PERIOD.
  replace (i <? 20 - 1)%Z with false by (symmetry; apply Z.ltb_ge; lia).
  replace (i - 20 + 1)%Z with (i - 19)%Z by lia.
  rewrite slice_in_bounds by lia.
  replace (Z.to_nat (i + 1 - (i - 19))) with 20%nat by lia.
  set (w := firstn 20 (skipn (Z.to_nat (i - 19)) cs)).
  assert (map close w = window_closes cs i) as Hw.
  { unfold w, window_closes. apply map_window; try lia.
    intros p c _ E. unfold close_at. now rewrite E. }
  unfold bind at 1.
  rewrite <- (map_map close Fin w), Hw.
  assert (length (window_closes cs i) = 20%nat) as Hlen
      by (unfold window_closes; now rewrite length_map, positions_length).
  unfold variance20, sma20.
  destruct (window_closes cs i) as [| x0 rest] eqn:Ecloses; [discriminate |].
  cbn [map reduce1].
  destruct (fold_jsadd_fin rest x0) as (t & -> & Ht).
  rewrite bind_ret_l.
  change (Fin (inject_Z 20)) with (Fin 20).
  rewrite (jsdiv_fin t 20) by lra.
  set (m := t / 20).
  change (Fin x0 :: map Fin rest) with (map Fin (x0 :: rest)).
  destruct (fold_squares_fin m (x0 :: rest) 0) as (s2 & -> & Hs2).
  rewrite (jsdiv_fin s2 20) by lra.
  assert (0 <= s2 / 20) as Hv.
  { apply Qle_shift_div_l; [lra |]. rewrite Hs2.
    pose proof (Qsum_squares_nonneg m (x0 :: rest)). lra. }
  unfold jssqrt.
  replace (Qlt_bool (s2 / 20) 0) with false
    by (symmetry; now apply Qlt_bool_false_iff).
  assert (m == Qsum (x0 :: rest) / 20) as Hm.
  { unfold m. rewrite Ht. reflexivity. }
  exists m, (s2 / 20). split; [exact Hm |]. split.
  - rewrite Hs2, Qplus_0_l.
    assert (Qsum (map (fun x => (x - m) * (x - m)) (x0 :: rest))
            == Qsum (map (fun x => (x - Qsum (x0 :: rest) / 20)
                                   * (x - Qsum (x0 :: rest) / 20))
                         (x0 :: rest))) as ->.
    { apply Qsum_map_ext. intro x. now rewrite Hm. }
    reflexivity.
  - cbn [ret]. now rewrite app_nil_r.
Qed.

Lemma bands_step_early cs i acc :
  (i < 19)%Z ->
  CandleChart.bands_step cs i acc
  = ret (CandleChart.mkSeries (CandleChart.upperBB acc ++ [None])
                              (CandleChart.middleBB acc ++ [None])
                              (CandleChart.lowerBB acc ++ [None])).
Proof.
  intro Hi. unfold CandleChart.bands_step, CandleChart.BB_PERIOD.
  now replace (i <? 20 - 1)%Z with true by (symmetry; apply Z.ltb_lt; lia).
Qed.

(** The loop of the chart: it never throws, reads inside the array, and
    fills the three series entry by entry. *)
Lemma bollinger_series_spec cs :
  safe 0 (array_length cs - 1) (CandleChart.bollinger_series cs)
       (fun sr =>
          length (CandleChart.upperBB sr) = length cs
          /\ length (CandleChart.middleBB sr) = length cs
          /\ length (CandleChart.lowerBB sr) = length cs
          /\ forall j, (0 <= j < array_length cs)%Z -> chart_entry cs sr j).
Proof.
  unfold CandleChart.bollinger_series, for_range.
  replace (Z.to_nat (array_length cs - 1 - 0 + 1)) with (length cs)
    by (unfold array_length; lia).
  pose (I := fun (k : Z) (sr : CandleChart.Series) =>
    length (CandleChart.upperBB sr) = Z.to_nat k
    /\ length (CandleChart.middleBB sr) = Z.to_nat k
    /\ length (CandleChart.lowerBB sr) = Z.to_nat k
    /\ forall j, (0 <= j < k)%Z -> chart_entry cs sr j).
  eapply safe_weaken with (lo := 0%Z) (hi := (array_length cs - 1)%Z)
                          (P := I (0 + Z.of_nat (length cs))%Z);
    [apply safe_for_loop | lia | lia |].
  - unfold I. simpl. split; [reflexivity |]. split; [reflexivity |].
    split; [reflexivity |]. intros j Hj. lia.
  - intros k sr Hk (Hu & Hm & Hl & Hall).
    destruct (Z_lt_ge_dec k 19) as [Hearly | Hfull].
    + rewrite bands_step_early by exact Hearly. apply safe_ret.
      unfold I. cbn [CandleChart.upperBB CandleChart.middleBB
                     CandleChart.lowerBB].
      rewrite !length_app, Hu, Hm, Hl. simpl length.
      split; [lia |]. split; [lia |]. split; [lia |].
      intros j Hj. destruct (Z.eq_dec j k) as [-> | Hne].
      * split; [| lia]. intros _.
        cbn [CandleChart.upperBB CandleChart.middleBB CandleChart.lowerBB].
        now rewrite !nth_error_snoc_new by assumption.
      * destruct (Hall j) as [Hlow Hhigh]; [lia |].
        split; intro Hcase;
          cbn [CandleChart.upperBB CandleChart.middleBB CandleChart.lowerBB];
          rewrite !nth_error_snoc_old by lia; auto.
    + destruct (bands_step_window cs k sr) as (m & v & Hmean & Hvar & ->);
        [unfold array_length in *; lia |].
      exists (CandleChart.mkSeries
                (CandleChart.upperBB sr ++ [Some (Fin (m + 2.0 * math_sqrt v))])
                (CandleChart.middleBB sr ++ [Some (Fin m)])
                (CandleChart.lowerBB sr ++ [Some (Fin (m - 2.0 * math_sqrt v))])).
      split; [reflexivity |]. split.
      * unfold I. cbn [CandleChart.upperBB CandleChart.middleBB
                       CandleChart.lowerBB].
        rewrite !length_app, Hu, Hm, Hl. simpl length.
        split; [lia |]. split; [lia |]. split; [lia |].
        intros j Hj. destruct (Z.eq_dec j k) as [-> | Hne].
        -- split; [lia |]. intros _. exists m, v.
           cbn [CandleChart.upperBB CandleChart.middleBB CandleChart.lowerBB].
           rewrite !nth_error_snoc_new by assumption. auto.
        -- destruct (Hall j) as [Hlow Hhigh]; [lia |].
           split; intro Hcase;
             cbn [CandleChart.upperBB CandleChart.middleBB
                  CandleChart.lowerBB];
             rewrite !nth_error_snoc_old by lia; auto.
      * cbn [trace snd]. eapply Forall_impl; [| apply positions_bounds].
        cbv beta. intros p Hp. change (Z.of_nat 20) with 20%Z in Hp.
        unfold array_length in *. lia.
  - intros sr (Hu & Hm & Hl & Hall).
    rewrite Z.add_0_l in *. rewrite Nat2Z.id in *.
    split; [exact Hu |]. split; [exact Hm |]. split; [exact Hl |].
    exact Hall.
Qed.


(** X14.  When [Math.sqrt] does not depend on how its argument is written,
    the chart and the detector agree: from position 20 on, the three values
    of the chart are the bands of [calculateBollingerBands]; at position 19
    the chart has bands and [calculateBollingerBands] returns [null]. *)
Theorem chart_agrees_with_detector cs sr j :
  (forall q q', q == q' -> math_sqrt q == math_sqrt q') ->
  value (CandleChart.bollinger_series cs) = Some sr ->
  (19 <= j < array_length cs)%Z ->
  exists x y z,
    nth_error (CandleChart.middleBB sr) (Z.to_nat j) = Some (Some x)
    /\ nth_error (CandleChart.upperBB sr) (Z.to_nat j) = Some (Some y)
    /\ nth_error (CandleChart.lowerBB sr) (Z.to_nat j) = Some (Some z)
    /\ if (j =? 19)%Z
       then value (calculateBollingerBands cs j) = Some None
       else exists b,
              value (calculateBollingerBands cs j) = Some (Some b)
              /\ num_eq x (middle b) /\ num_eq y (upper b)
              /\ num_eq z (lower b).
Proof.
  intros Hproper Hsr Hj.
  destruct (bollinger_series_spec cs) as (sr' & Hsr' & (_ & _ & _ & Hall) & _).
  assert (sr' = sr) as -> by congruence.
  destruct (Hall j) as [_ Hentry]; [lia |].
  destruct Hentry as (m & v & Hm & Hv & Hmid & Hup & Hlow); [lia |].
  exists (Fin m), (Fin (m + 2.0 * math_sqrt v)),
         (Fin (m - 2.0 * math_sqrt v)).
  repeat split; trivial.
  destruct (j =? 19)%Z eqn:E.
  - apply Z.eqb_eq in E. apply calculateBollingerBands_null. lia.
  - apply Z.eqb_neq in E.
    destruct (calculateBollingerBands_window cs j)
      as (r & Hr & (m' & v' & Hm' & Hv' & ->) & _); [lia |].
    eexists. split; [exact Hr |].
    assert (m == m') as Emean by (now rewrite Hm, Hm').
    assert (math_sqrt v == math_sqrt v') as Eroot
        by (apply Hproper; now rewrite Hv, Hv').
    cbn [middle upper lower num_eq]. unfold BB_STD_DEV.
    repeat split; [exact Emean | |]; rewrite Emean, Eroot; reflexivity.
Qed.

End ChartProperties.

(* ===================================================================== *)
(** ** Properties of the application *)
(* ===================================================================== *)

Section SortByKey.
Context {A : Type} (key : A -> Z).

(** The comparator [(a, b) => key(b) - key(a)] of a descending sort. *)
Let descending (a b : A) : Z := (key b - key a)%Z.

Lemma sort_insert_perm (x : A) (l : list A) :
  Permutation (sort_insert descending x l) (x :: l).
Proof.
  induction l as [| y r IH]; simpl; [reflexivity |].
  destruct (descending x y >? 0)%Z; [| reflexivity].
  rewrite IH. apply perm_swap.
Qed.

Lemma array_sort_perm (l : list A) :
  Permutation (array_sort descending l) l.
Proof.
  induction l as [| x l IH]; simpl; [reflexivity |].
  rewrite sort_insert_perm. now constructor.
Qed.

Lemma sort_insert_sorted (x : A) (l : list A) :
  StronglySorted (fun a b => (key a >= key b)%Z) l ->
  StronglySorted (fun a b => (key a >= key b)%Z) (sort_insert descending x l).
Proof.
  induction 1 as [| y r Hr IH Hy]; simpl.
  - repeat constructor.
  - unfold descending at 1. destruct (key y - key x >? 0)%Z eqn:E.
    + apply Z.gtb_lt in E. constructor; [exact IH |].
      apply Forall_forall. intros z Hz.
      apply (Permutation_in _ (sort_insert_perm x r)) in Hz.
      destruct Hz as [<- | Hz]; [lia |].
      exact (proj1 (Forall_forall _ _) Hy z Hz).
    + assert (key y - key x <= 0)%Z as Hle.
      { destruct (Z.gtb_spec (key y - key x) 0); [discriminate | lia]. }
      constructor; [now constructor |].
      constructor; [lia |].
      eapply Forall_impl; [| exact Hy]. cbv beta. intros; lia.
Qed.

Lemma array_sort_sorted (l : list A) :
  StronglySorted (fun a b => (key a >= key b)%Z) (array_sort descending l).
Proof.
  induction l as [| x l IH]; simpl; [constructor |].
  now apply sort_insert_sorted.
Qed.

End SortByKey.

Lemma sorted_map_key {A} (key : A -> Z) (R : Z -> Z -> Prop) (l : list A) :
  StronglySorted (fun a b => R (key a) (key b)) l ->
  StronglySorted R (map key l).
Proof.
  induction 1 as [| a l Hl IH Ha]; simpl; constructor; trivial.
  now apply Forall_map.
Qed.

Lemma sorted_lt_NoDup (l : list Z) : StronglySorted Z.lt l -> NoDup l.
Proof.
  induction 1 as [| a l Hl IH Ha]; constructor; trivial.
  intro Hin. pose proof (proj1 (Forall_forall _ _) Ha a Hin). lia.
Qed.

Lemma sorted_ge_NoDup_gt (l : list Z) :
  StronglySorted Z.ge l -> NoDup l -> StronglySorted Z.gt l.
Proof.
  induction 1 as [| a l Hl IH Ha]; intro Hnd; constructor.
  - apply IH. now inversion Hnd.
  - inversion Hnd as [| ? ? Hnotin _]; subst.
    apply Forall_forall. intros z Hz.
    pose proof (proj1 (Forall_forall _ _) Ha z Hz).
    assert (z <> a) by (intros ->; contradiction). lia.
Qed.

(** The signal that [merge_signals] keeps for a detected signal. *)
Lemma merge_pick (prev : list TradingSignal.t) (n : TradingSignal.t) :
  let kept := match find (fun s => (TradingSignal.timestamp s
                                    =? TradingSignal.timestamp n)%Z) prev with
              | Some existing => existing
              | None => n
              end in
  TradingSignal.timestamp kept = TradingSignal.timestamp n
  /\ ((In kept prev
       /\ find (fun s => (TradingSignal.timestamp s
                          =? TradingSignal.timestamp n)%Z) prev = Some kept)
      \/ (kept = n
          /\ forall e, In e prev ->
                       TradingSignal.timestamp e <> TradingSignal.timestamp n)).
Proof.
  cbv zeta.
  destruct (find _ prev) as [e |] eqn:E.
  - destruct (find_some _ _ E) as [Hin Heq]. apply Z.eqb_eq in Heq.
    split; [exact Heq |]. left. auto.
  - split; [reflexivity |]. right. split; [reflexivity |].
    intros e He Hts. pose proof (find_none _ _ E e He) as Hne.
    apply Z.eqb_neq in Hne. contradiction.
Qed.

(** What [merge_signals] keeps. *)
Lemma merge_signals_facts (prev detected : list TradingSignal.t) :
  Permutation (map TradingSignal.timestamp (App.merge_signals prev detected))
              (map TradingSignal.timestamp detected)
  /\ StronglySorted Z.ge
       (map TradingSignal.timestamp (App.merge_signals prev detected))
  /\ forall s,
       In s (App.merge_signals prev detected) ->
       (In s prev /\ exists n, In n detected
                     /\ TradingSignal.timestamp n = TradingSignal.timestamp s)
       \/ (In s detected
           /\ forall e, In e prev ->
                TradingSignal.timestamp e <> TradingSignal.timestamp s).
Proof.
  unfold App.merge_signals.
  set (pick := fun newSig : TradingSignal.t =>
    match find (fun s => (TradingSignal.timestamp s
                          =? TradingSignal.timestamp newSig)%Z) prev with
    | Some existing => existing
    | None => newSig
    end).
  pose proof (array_sort_perm TradingSignal.timestamp (map pick detected))
    as Hperm.
  split; [| split].
  - rewrite (Permutation_map TradingSignal.timestamp Hperm), map_map.
    replace (map (fun x => TradingSignal.timestamp (pick x)) detected)
      with (map TradingSignal.timestamp detected); [reflexivity |].
    apply map_ext. intro n. symmetry. exact (proj1 (merge_pick prev n)).
  - apply sorted_map_key with (R := Z.ge).
    apply (array_sort_sorted TradingSignal.timestamp).
  - intros s Hs. apply (Permutation_in _ Hperm) in Hs.
    apply in_map_iff in Hs. destruct Hs as (n & <- & Hn).
    destruct (merge_pick prev n) as [Hts [[Hin _] | [Heq Hnone]]].
    + left. split; [exact Hin |]. exists n. split; [exact Hn |].
      symmetry. exact Hts.
    + right. fold (pick n) in Heq. rewrite Heq. auto.
Qed.

(** X15.  The signals that [updateMarketData] keeps: their timestamps are
    those of the detected signals, each as many times, in descending order;
    each of them is a signal of the previous state whose timestamp was
    detected again, or a detected signal whose timestamp the previous state
    does not have. *)
Theorem merge_signals_spec (prev detected : list TradingSignal.t) :
  Permutation (map TradingSignal.timestamp (App.merge_signals prev detected))
              (map TradingSignal.timestamp detected)
  /\ StronglySorted Z.ge
       (map TradingSignal.timestamp (App.merge_signals prev detected))
  /\ forall s,
       In s (App.merge_signals prev detected) ->
       (In s prev /\ exists n, In n detected
                     /\ TradingSignal.timestamp n = TradingSignal.timestamp s)
       \/ (In s detected
           /\ forall e, In e prev ->
                TradingSignal.timestamp e <> TradingSignal.timestamp s).
Proof. exact (merge_signals_facts prev detected). Qed.

(** [findIndex]: the first position with the timestamp, or -1. *)
Lemma findIndex_from_spec (timestamp : Z) (cs : list Candle) :
  forall i : Z,
    (findIndex_from timestamp i cs = (-1)%Z
     /\ Forall (fun c => time c <> timestamp) cs)
    \/ exists (n : nat) c,
         findIndex_from timestamp i cs = (i + Z.of_nat n)%Z
         /\ nth_error cs n = Some c /\ time c = timestamp
         /\ Forall (fun c' => time c' <> timestamp) (firstn n cs).
Proof.
  induction cs as [| c cs IH]; intro i; simpl.
  - left. split; [reflexivity | constructor].
  - destruct (time c =? timestamp)%Z eqn:E.
    + apply Z.eqb_eq in E. right. exists 0%nat, c.
      rewrite Z.add_0_r. repeat split; trivial; try constructor.
    + apply Z.eqb_neq in E.
      destruct (IH (i + 1)%Z) as [[Hnone Hall] | (n & c' & Hfound & Hn & Ht & Hall)].
      * left. split; [exact Hnone | now constructor].
      * right. exists (Datatypes.S n), c'. repeat split; trivial.
        -- rewrite Hfound. lia.
        -- simpl. now constructor.
Qed.

(** In a sequence of increasing times, [findIndex] finds a candle where it
    is. *)
Lemma findIndex_increasing (cs : list Candle) (n : nat) (c : Candle) :
  increasing_times cs -> nth_error cs n = Some c ->
  findIndex cs (time c) = Z.of_nat n.
Proof.
  intros Hinc Hn. unfold findIndex.
  destruct (findIndex_from_spec (time c) cs 0)
    as [[_ Hall] | (k & c' & -> & Hk & Ht & Hbefore)].
  - exfalso. apply nth_error_In in Hn.
    exact (proj1 (Forall_forall _ _) Hall c Hn eq_refl).
  - rewrite Z.add_0_l. f_equal.
    destruct (Nat.lt_trichotomy k n) as [Hlt | [Heq | Hgt]]; trivial.
    + pose proof (increasing_times_nth cs Hinc k n c' c Hlt Hk Hn). lia.
    + pose proof (increasing_times_nth cs Hinc n k c c' Hgt Hn Hk). lia.
Qed.

(** The context that [handleAIConfirm] cuts around a position from 60 on. *)
Lemma context_slice (cs : list Candle) (n : nat) (c : Candle) :
  (60 <= n)%nat -> nth_error cs n = Some c ->
  exists ctx,
    value (slice cs (Z.max 0 (Z.of_nat n - 60)) (Z.of_nat n + 2)) = Some ctx
    /\ ctx = firstn (Nat.min 62 (length cs - (n - 60))) (skipn (n - 60) cs)
    /\ nth_error ctx 60 = Some c
    /\ length ctx = Nat.min 62 (length cs - (n - 60))
    /\ (61 <= length ctx <= 62)%nat.
Proof.
  intros Hn Hc.
  assert (n < length cs)%nat as Hlen
      by (apply nth_error_Some; congruence).
  unfold slice, value, array_length. cbn [fst].
  replace (Z.max 0 (Z.of_nat n - 60) <? 0)%Z with false
    by (symmetry; apply Z.ltb_ge; lia).
  replace (Z.of_nat n + 2 <? 0)%Z with false
    by (symmetry; apply Z.ltb_ge; lia).
  replace (Z.to_nat (Z.min (Z.max 0 (Z.of_nat n - 60))
                           (Z.of_nat (length cs))))
    with (n - 60)%nat by lia.
  replace (Z.to_nat (Z.min (Z.of_nat n + 2) (Z.of_nat (length cs))
                     - Z.min (Z.max 0 (Z.of_nat n - 60))
                             (Z.of_nat (length cs))))
    with (Nat.min 62 (length cs - (n - 60))) by lia.
  eexists. split; [reflexivity |]. split; [reflexivity |].
  assert (length (firstn (Nat.min 62 (length cs - (n - 60)))
                         (skipn (n - 60) cs))
          = Nat.min 62 (length cs - (n - 60))) as Hl
      by (rewrite length_firstn, length_skipn; lia).
  split.
  - rewrite nth_error_firstn.
    replace (60 <? Nat.min 62 (length cs - (n - 60)))%nat with true
      by (symmetry; apply Nat.ltb_lt; lia).
    rewrite nth_error_skipn. now replace (n - 60 + 60)%nat with n by lia.
  - split; [exact Hl | lia].
Qed.

Section AppProperties.
Context `{MathSqrt}.

(** X16.  [updateMarketData] never throws.  An empty list of candles leaves
    the state as it is; otherwise the new state holds the symbol, the
    interval, the price and the candles it was given, and the merge of the
    previous signals with the scan of the candles, whose timestamps are
    those of the scan; on candles of increasing times they decrease
    strictly. *)
Theorem updateMarketData_spec prev activeSymbol activeInterval cs lastPrice :
  exists st,
    value (App.updateMarketData prev activeSymbol activeInterval cs lastPrice)
    = Some st
    /\ (cs = [] -> st = prev)
    /\ (cs <> [] ->
        App.symbol st = activeSymbol /\ App.interval st = activeInterval
        /\ App.lastPrice st = lastPrice /\ App.candles st = cs
        /\ App.isScanning st = App.isScanning prev
        /\ App.signals st
           = App.merge_signals (App.signals prev) (signals_from_50 cs)
        /\ Permutation (map TradingSignal.timestamp (App.signals st))
                       (map TradingSignal.timestamp (signals_from_50 cs))
        /\ (increasing_times cs ->
            StronglySorted Z.gt
              (map TradingSignal.timestamp (App.signals st)))).
Proof.
  unfold App.updateMarketData.
  destruct cs as [| c cs].
  - exists prev. split; [reflexivity |]. split; [reflexivity |].
    intro Hne. congruence.
  - set (candles := c :: cs).
    replace (array_length candles >? 0)%Z with true
      by (symmetry; apply Z.gtb_lt; unfold array_length; simpl; lia).
    rewrite value_bind, (proj1 (scan_closed_form candles)).
    eexists. split; [reflexivity |].
    split; [discriminate |]. intros _.
    cbn [App.symbol App.interval App.lastPrice App.candles App.isScanning
         App.signals].
    destruct (merge_signals_facts (App.signals prev) (signals_from_50 candles))
      as (Hperm & Hsorted & _).
    repeat split; trivial.
    intro Hinc. apply sorted_ge_NoDup_gt; [exact Hsorted |].
    apply (Permutation_NoDup (Permutation_sym Hperm)).
    apply sorted_lt_NoDup.
    apply (signal_timestamps_sorted candles Hinc). lia.
Qed.

(** X17.  When [handleAIConfirm] calls the model, the signal has no
    confirmation text yet, its timestamp is first met at a position from 60
    on, and the context starts 60 candles before that position: it holds 61
    or 62 candles, and its candle 60 is the candle of the position. *)
Theorem handleAIConfirm_context_shape cs signal ctx :
  App.handleAIConfirm_context cs signal = Some ctx ->
  App.truthy_string (TradingSignal.aiConfirmation signal) = false
  /\ exists (n : nat) c,
       findIndex cs (TradingSignal.timestamp signal) = Z.of_nat n
       /\ (60 <= n < length cs)%nat
       /\ nth_error cs n = Some c
       /\ time c = TradingSignal.timestamp signal
       /\ ctx = firstn (length ctx) (skipn (n - 60) cs)
       /\ nth_error ctx 60 = Some c
       /\ (61 <= length ctx <= 62)%nat.
Proof.
  unfold App.handleAIConfirm_context. intro Hctx.
  destruct (App.truthy_string (TradingSignal.aiConfirmation signal));
    [discriminate |].
  split; [reflexivity |].
  unfold findIndex in *.
  destruct (findIndex_from_spec (TradingSignal.timestamp signal) cs 0)
    as [[Hnone _] | (n & c & Hfound & Hn & Ht & _)].
  - rewrite Hnone in Hctx. discriminate.
  - rewrite Hfound, Z.add_0_l in *.
    destruct (Z.of_nat n <? 60)%Z eqn:E; [discriminate |].
    apply Z.ltb_ge in E.
    destruct (context_slice cs n c) as (ctx' & Hv & Heq & Hnth & Hl & Hb);
      [lia | exact Hn |].
    assert (ctx' = ctx) as -> by congruence.
    assert (n < length cs)%nat as Hlen by (apply nth_error_Some; congruence).
    exists n, c. split; [reflexivity |]. split; [lia |].
    split; [exact Hn |]. split; [exact Ht |].
    split; [now rewrite Hl |]. split; [exact Hnth | exact Hb].
Qed.

(** X18.  On candles of increasing times, a signal that the scan finds at
    the positions 50 to 59 is never sent to the model; a signal found from
    position 60 on is sent with the 62 candles from 60 before its own to
    the one after it. *)
Theorem scanned_signal_context cs i s :
  increasing_times cs ->
  In s (signal_at cs i) ->
  if (i <? 60)%Z then App.handleAIConfirm_context cs s = None
  else App.handleAIConfirm_context cs s
       = Some (firstn 62 (skipn (Z.to_nat (i - 60)) cs))
       /\ length (firstn 62 (skipn (Z.to_nat (i - 60)) cs)) = 62%nat.
Proof.
  intros Hinc Hs.
  destruct (signal_at_inv cs i s Hs) as (d & c & Hi & _ & _ & Hc & ->).
  unfold App.handleAIConfirm_context. cbn [TradingSignal.aiConfirmation
    TradingSignal.timestamp App.truthy_string].
  rewrite (findIndex_increasing cs (Z.to_nat i) c Hinc Hc).
  replace (Z.of_nat (Z.to_nat i)) with i by lia.
  destruct (i <? 60)%Z eqn:E; [reflexivity |].
  apply Z.ltb_ge in E.
  destruct (context_slice cs (Z.to_nat i) c) as (ctx & Hv & Heq & _ & Hl & _);
    [lia | exact Hc |].
  replace (Z.of_nat (Z.to_nat i)) with i in Hv by lia.
  unfold array_length in Hi.
  replace (Nat.min 62 (length cs - (Z.to_nat i - 60))) with 62%nat in *
    by lia.
  replace (Z.to_nat i - 60)%nat with (Z.to_nat (i - 60)) in * by lia.
  subst ctx. split; [exact Hv | exact Hl].
Qed.

End AppProperties.

(** What [handleAIConfirm_apply] does to one signal. *)
Lemma confirm_apply_In signals signal result s' :
  In s' (App.handleAIConfirm_apply signals signal result) ->
  exists s0,
    In s0 signals
    /\ TradingSignal.timestamp s' = TradingSignal.timestamp s0
    /\ (TradingSignal.timestamp s0 = TradingSignal.timestamp signal ->
        TradingSignal.aiConfirmation s' = Some (App.confirmation result)
        /\ TradingSignal.isConfirmed s' = App.isConfirmed result
        /\ TradingSignal.score s' = App.score result).
Proof.
  unfold App.handleAIConfirm_apply. intro Hin.
  apply in_map_iff in Hin. destruct Hin as (s0 & <- & Hs0).
  exists s0. split; [exact Hs0 |].
  destruct (TradingSignal.timestamp s0 =? TradingSignal.timestamp signal)%Z
    eqn:E.
  - simpl. auto.
  - apply Z.eqb_neq in E. split; [reflexivity |]. contradiction.
Qed.

(** X19.  A confirmation survives the next scans.  [handleAIConfirm] keeps
    the timestamps of the signals as they are; and once it has written the
    result of the model into the signals of a timestamp that the state
    holds, every signal of that timestamp that [updateMarketData] keeps
    after a new scan carries the text, the verdict and the score of the
    model. *)
Theorem confirmation_survives_merge signals signal result detected :
  (exists e, In e signals
             /\ TradingSignal.timestamp e = TradingSignal.timestamp signal) ->
  map TradingSignal.timestamp
      (App.handleAIConfirm_apply signals signal result)
  = map TradingSignal.timestamp signals
  /\ forall s,
       In s (App.merge_signals
               (App.handleAIConfirm_apply signals signal result) detected) ->
       TradingSignal.timestamp s = TradingSignal.timestamp signal ->
       TradingSignal.aiConfirmation s = Some (App.confirmation result)
       /\ TradingSignal.isConfirmed s = App.isConfirmed result
       /\ TradingSignal.score s = App.score result.
Proof.
  intros (e & He & Hts). split.
  - unfold App.handleAIConfirm_apply. rewrite map_map. apply map_ext.
    intro s0.
    now destruct (TradingSignal.timestamp s0
                  =? TradingSignal.timestamp signal)%Z.
  - intros s Hs Hsame.
    set (signals' := App.handleAIConfirm_apply signals signal result) in *.
    destruct (merge_signals_facts signals' detected) as (_ & _ & Hfrom).
    destruct (Hfrom s Hs) as [[Hin _] | [_ Hnone]].
    + destruct (confirm_apply_In signals signal result s Hin)
        as (s0 & _ & Hts0 & Hfields).
      apply Hfields. congruence.
    + exfalso.
      set (e' := TradingSignal.mk
                   (TradingSignal.candle e) (TradingSignal.type e)
                   (TradingSignal.timestamp e)
                   (Some (App.confirmation result))
                   (App.isConfirmed result) (App.score result)
                   (TradingSignal.stochRsi e)).
      apply (Hnone e'); [| simpl; congruence].
      unfold signals', App.handleAIConfirm_apply.
      apply in_map_iff. exists e. split; [| exact He].
      replace (TradingSignal.timestamp e
               =? TradingSignal.timestamp signal)%Z with true; trivial.
      symmetry. now apply Z.eqb_eq.
Qed.

(* ===================================================================== *)
(** ** The properties on the test data *)
(* ===================================================================== *)

#[local] Existing Instance floor_sqrt.

(** C1, counterexample.  At candle 50 of [reversal_candles] the volume is
    2.5 times the average: [detectSignal] returns [SUDDEN_REVERSAL_UP] with
    the score 45 + 22.5 + 15 = 82.5, which is not an integer. *)
Lemma detectSignal_score_not_integral :
  exists d,
    value (detectSignal reversal_candles 50) = Some d
    /\ type d = SUDDEN_REVERSAL_UP
    /\ num_eq (score d) (Fin 82.5)
    /\ ~ integral (score d).
Proof.
  eexists. split; [vm_compute; reflexivity |].
  split; [reflexivity |]. split; [reflexivity |].
  intros (z & Hz). unfold Qeq in Hz. simpl in Hz. lia.
Qed.

(** C1 on [reversal_candles]: the score 82.5 lies between 0 and 100. *)
Lemma detectSignal_score_range_witness :
  exists d,
    value (detectSignal reversal_candles 50) = Some d
    /\ type d <> NONE /\ within 0 100 (score d).
Proof.
  eexists. split; [vm_compute; reflexivity |].
  split; [discriminate |].
  eapply (detectSignal_score_range reversal_candles 50);
    [vm_compute; reflexivity | discriminate].
Defined.





(** The bars of [overflow_candles] are valid. *)
Lemma overflow_candles_valid : valid_bars overflow_candles.
Proof.
  split.
  - assert (forall (n : nat) (lo : Z),
               Forall valid_candle (candles_from wave_at lo n)) as Hall.
    { induction n as [| n IH]; intro lo; simpl; constructor; [| apply IH].
      unfold valid_candle, wave_at. cbv zeta. cbn [open high low close volume].
      pose proof (pow2_pos 1023).
      destruct (Z.even lo); repeat split; lra. }
    apply Hall.
  - vm_compute. repeat split.
Qed.

(** C5, counterexample.  On the valid bars of [overflow_candles], whose
    closes alternate between 1 and [2^1023], the sums of the gains and of the
    losses overflow to [+Infinity], their quotient is [NaN], and at index 28
    [calculateRSIValue] and [calculateStochRSI] both return [NaN], which is
    not within [[0, 100]]. *)
Lemma indicators_nan_on_overflow :
  valid_bars overflow_candles
  /\ (0 <= 28 < array_length overflow_candles)%Z
  /\ value (Rounded.calculateRSIValue (R := binary64) overflow_candles 28)
     = Some NaN
  /\ value (Rounded.calculateStochRSI (R := binary64) overflow_candles 28)
     = Some NaN
  /\ ~ within 0 100 NaN.
Proof.
  split; [exact overflow_candles_valid |].
  split; [unfold array_length; simpl; lia |].
  split; [vm_compute; reflexivity |].
  split; [vm_compute; reflexivity |].
  intro Hw. exact Hw.
Qed.

(** C5 at index 50 of [spring_candles], a valid bar sequence with closes
    of moderate size, in the rounding of the doubles. *)
Lemma indicators_range_witness :
  valid_bars spring_candles
  /\ Forall (fun c => moderate (close c)) spring_candles
  /\ exists r s,
       value (Rounded.calculateRSIValue (R := binary64) spring_candles 50)
       = Some r
       /\ value (Rounded.calculateStochRSI (R := binary64) spring_candles 50)
          = Some s
       /\ within 0 100 r /\ within 0 100 s.
Proof.
  assert (Forall (fun c => moderate (close c)) spring_candles) as Hmod
      by (apply Forall_moderate_check; vm_compute; reflexivity).
  split.
  - split.
    + unfold spring_candles. simpl.
      repeat (constructor; [unfold valid_candle; simpl; repeat split; lra |]).
      constructor.
    + simpl. repeat split; lia.
  - split; [exact Hmod |].
    destruct (indicators_range binary64 spring_candles 50 binary64_laws)
      as (r & s & Hr & Hs & _ & _ & Hwithin).
    + unfold array_length. simpl. lia.
    + exists r, s. split; [exact Hr |]. split; [exact Hs |].
      exact (Hwithin Hmod).
Defined.

(** C6 at index 10. *)
Lemma detectSignal_out_of_range_witness :
  (10 < RECENT_LOOKBACK)%Z
  /\ exists d, value (detectSignal reversal_candles 10) = Some d
               /\ type d = NONE /\ score d = Fin 0.
Proof.
  split; [reflexivity |].
  apply (detectSignal_out_of_range reversal_candles 10).
  left. reflexivity.
Defined.

(** C7 on twenty candles. *)
Lemma scanForSignals_short_witness :
  (array_length twenty_candles < 52)%Z
  /\ value (scanForSignals twenty_candles) = Some [].
Proof.
  split; [reflexivity |].
  apply (scanForSignals_short twenty_candles). reflexivity.
Defined.



(* --------------------------------------------------------------------- *)
(** The further properties on the test data *)

Lemma floor_sqrt_nonneg (q : Q) : 0 <= floor_sqrt q.
Proof.
  unfold floor_sqrt, Qle. simpl. rewrite Z.mul_1_r.
  apply Z.sqrt_nonneg.
Qed.

Lemma floor_sqrt_proper (q q' : Q) : q == q' -> floor_sqrt q == floor_sqrt q'.
Proof.
  intro E. unfold floor_sqrt. now rewrite (Qred_complete q q' E).
Qed.

Lemma close_at_rescale (a b : Q) (cs : list Candle) (k : Z) :
  (0 <= k < array_length cs)%Z ->
  close_at (map (rescale a b) cs) k == a * close_at cs k + b.
Proof.
  unfold array_length, close_at. intro Hk.
  rewrite nth_error_map.
  destruct (nth_error cs (Z.to_nat k)) as [c |] eqn:E; simpl; [reflexivity |].
  apply nth_error_None in E. lia.
Qed.

(** X1 on [reversal_candles]: 82.5 lies in [65, 85]. *)
Lemma detectSignal_score_by_kind_witness :
  exists d s,
    value (detectSignal reversal_candles 50) = Some d
    /\ score d = Fin s /\ score_table (type d) s.
Proof.
  eexists.
  assert (value (detectSignal reversal_candles 50)
          = Some (mkDetected SUDDEN_REVERSAL_UP (Fin 0) (Fin (41250 # 500))))
    as Hd by (vm_compute; reflexivity).
  destruct (detectSignal_score_by_kind reversal_candles 50 _ Hd)
    as (s & Hs & Htable).
  exists s. split; [exact Hd |]. split; [exact Hs | exact Htable].
Defined.

(** X2 on [tweezers_candles]: a tweezers top at a Stochastic-RSI of 92. *)
Lemma detectSignal_momentum_side_witness :
  exists d q,
    value (detectSignal tweezers_candles 50) = Some d
    /\ stochRsi d = Fin q /\ 0 <= q <= 100 /\ momentum_table (type d) q.
Proof.
  eexists.
  assert (value (detectSignal tweezers_candles 50)
          = Some (mkDetected TWEEZERS_TOP (Fin (631120000 # 6860000)) (Fin 65)))
    as Hd by (vm_compute; reflexivity).
  destruct (detectSignal_momentum_side tweezers_candles 50 _ Hd)
    as (q & Hq & Hrange & Hside); [discriminate | discriminate |].
  exists q. split; [exact Hd |]. auto.
Defined.

(** X3 on [tweezers_candles]: the score 65. *)
Lemma detectSignal_score_integral_witness :
  exists d,
    value (detectSignal tweezers_candles 50) = Some d
    /\ volume_scored (type d) = false /\ integral (score d).
Proof.
  eexists.
  assert (value (detectSignal tweezers_candles 50)
          = Some (mkDetected TWEEZERS_TOP (Fin (631120000 # 6860000)) (Fin 65)))
    as Hd by (vm_compute; reflexivity).
  split; [exact Hd |]. split; [reflexivity |].
  exact (detectSignal_score_integral tweezers_candles 50 _ Hd eq_refl).
Defined.

(** X4 at candle 50 of [flat_candles]. *)
Lemma detectSignal_degenerate_witness :
  exists sr,
    value (calculateStochRSI flat_candles 50) = Some sr
    /\ value (detectSignal flat_candles 50) = Some (mkDetected NONE sr (Fin 0)).
Proof.
  apply (detectSignal_degenerate flat_candles 50 (flat_at 100 50)).
  - unfold array_length. simpl. lia.
  - vm_compute. reflexivity.
  - reflexivity.
Defined.

(** X5 on [tweezers_candles]: a bearish verdict at a Stochastic-RSI of 92. *)
Lemma isBullish_follows_momentum_witness :
  exists d q,
    value (detectSignal tweezers_candles 50) = Some d
    /\ App.isBullish (type d) (Some (stochRsi d)) = false
    /\ stochRsi d = Fin q /\ 80 <= q.
Proof.
  eexists.
  assert (value (detectSignal tweezers_candles 50)
          = Some (mkDetected TWEEZERS_TOP (Fin (631120000 # 6860000)) (Fin 65)))
    as Hd by (vm_compute; reflexivity).
  destruct (proj1 (proj2 isBullish_follows_momentum)
              tweezers_candles 50%Z _ Hd)
    as (q & Hq & _ & Hbear); [discriminate | discriminate |].
  exists q. split; [exact Hd |]. split; [reflexivity |].
  split; [exact Hq |].
  exact (Hbear eq_refl).
Defined.

(** X7 on [spring_candles], whose scan finds the spring at candle 50. *)
Lemma scanForSignals_signal_fields_witness :
  exists s,
    value (scanForSignals spring_candles) = Some [s]
    /\ TradingSignal.type s <> NONE
    /\ TradingSignal.timestamp s = time (TradingSignal.candle s)
    /\ within 30 95 (TradingSignal.score s).
Proof.
  eexists.
  assert (value (scanForSignals spring_candles)
          = Some [TradingSignal.mk spring_curr INSTITUTIONAL_SPRING 50 None
                     false (Fin 95) (Some (Fin (27440000 # 2744000)))])
    as Hscan by (vm_compute; reflexivity).
  split; [exact Hscan |].
  destruct (scanForSignals_signal_fields spring_candles _ _ Hscan
              (or_introl eq_refl))
    as (_ & Hty & Hts & _ & _ & Hsc & _).
  auto.
Defined.

(** X8 on [late_spring_candles]. *)
Lemma scanForSignals_timestamps_increase_witness :
  exists signals,
    increasing_times late_spring_candles
    /\ value (scanForSignals late_spring_candles) = Some signals
    /\ StronglySorted Z.lt (map TradingSignal.timestamp signals).
Proof.
  assert (increasing_times late_spring_candles) as Hinc
      by (simpl; repeat split; lia).
  pose proof (proj1 (scan_closed_form late_spring_candles)) as Hscan.
  exists (signals_from_50 late_spring_candles).
  split; [exact Hinc |]. split; [exact Hscan |].
  exact (scanForSignals_timestamps_increase late_spring_candles _ Hinc Hscan).
Defined.

(** X9 at index 50 of [spring_candles]: gains of 1 and losses of 9. *)
Lemma calculateRSIValue_closed_form_witness :
  exists r,
    value (calculateRSIValue spring_candles 50) = Some (Fin r)
    /\ r == 100 * summed_gains spring_candles 50
            / (summed_gains spring_candles 50
               + summed_losses spring_candles 50)
    /\ r == 10.
Proof.
  destruct (calculateRSIValue_closed_form spring_candles 50) as (r & Hr & E).
  - unfold array_length. simpl. lia.
  - vm_compute. discriminate.
  - exists r. split; [exact Hr |]. split; [exact E |].
    rewrite E. vm_compute. reflexivity.
Defined.

(** X10 on [spring_candles] and the same candles with every price doubled
    and raised by 1. *)
Lemma calculateRSIValue_rescale_witness :
  exists r r',
    value (calculateRSIValue spring_candles 50) = Some (Fin r)
    /\ value (calculateRSIValue (map (rescale 2 1) spring_candles) 50)
       = Some (Fin r')
    /\ r == r'.
Proof.
  apply (calculateRSIValue_rescale spring_candles
           (map (rescale 2 1) spring_candles) 2 1 50).
  - reflexivity.
  - apply length_map.
  - intros k Hk. now apply close_at_rescale.
  - unfold array_length. simpl. lia.
Defined.

(** X11 at index 30 of twenty candles. *)
Lemma momentum_indicators_past_the_end_witness :
  (array_length twenty_candles <= 30)%Z
  /\ value (calculateRSIValue twenty_candles 30) = None
  /\ value (calculateStochRSI twenty_candles 30) = None.
Proof.
  assert (array_length twenty_candles <= 30)%Z as Hi
      by (unfold array_length; simpl; lia).
  split; [exact Hi |].
  exact (momentum_indicators_past_the_end twenty_candles 30 Hi).
Defined.

(** X12 at index 50 of [spring_candles]. *)
Lemma calculateBollingerBands_total_witness :
  exists b m u l,
    value (calculateBollingerBands spring_candles 50) = Some (Some b)
    /\ middle b = Fin m /\ upper b = Fin u /\ lower b = Fin l
    /\ u + l == 2 * m /\ l <= m /\ m <= u.
Proof.
  destruct (calculateBollingerBands_total spring_candles 50)
    as (r & Hr & _ & Hbands).
  assert (value (calculateBollingerBands spring_candles 50)
          = Some (Some (mkBands (Fin (1973 # 20)) (Fin (8174800 # 80000))
                                (Fin (7609200 # 80000))))) as Hv
      by (vm_compute; reflexivity).
  rewrite Hv in Hr. injection Hr as <-.
  destruct (Hbands _ eq_refl) as (m & u & l & Hm & Hu & Hl & Hsym & Hside).
  destruct (Hside floor_sqrt_nonneg) as [Hlow Hhigh].
  eexists. exists m, u, l. split; [exact Hv |]. auto 10.
Defined.


(** X14 at position 50 of [spring_candles]. *)
Lemma chart_agrees_with_detector_witness :
  exists sr x y z b,
    value (CandleChart.bollinger_series spring_candles) = Some sr
    /\ nth_error (CandleChart.middleBB sr) 50 = Some (Some x)
    /\ nth_error (CandleChart.upperBB sr) 50 = Some (Some y)
    /\ nth_error (CandleChart.lowerBB sr) 50 = Some (Some z)
    /\ value (calculateBollingerBands spring_candles 50) = Some (Some b)
    /\ num_eq x (middle b) /\ num_eq y (upper b) /\ num_eq z (lower b).
Proof.
  destruct (bollinger_series_spec spring_candles) as (sr & Hsr & _ & _).
  assert (19 <= 50 < array_length spring_candles)%Z as Hj
      by (unfold array_length; simpl; lia).
  destruct (chart_agrees_with_detector spring_candles sr 50
              floor_sqrt_proper Hsr Hj)
    as (x & y & z & Hx & Hy & Hz & Hagree).
  change (50 =? 19)%Z with false in Hagree. cbv iota in Hagree.
  destruct Hagree as (b & Hb & Hxb & Hyb & Hzb).
  exists sr, x, y, z, b.
  split; [exact Hsr |]. split; [exact Hx |]. split; [exact Hy |].
  split; [exact Hz |]. split; [exact Hb |]. split; [exact Hxb |].
  split; [exact Hyb | exact Hzb].
Defined.

(** X15 on a previous state that holds the confirmed signal of candle 50 and
    a scan that finds the signals of the candles 50 and 51. *)
Lemma merge_signals_spec_witness :
  StronglySorted Z.ge
    (map TradingSignal.timestamp
       (App.merge_signals
          (App.handleAIConfirm_apply [sample_signal spring_curr]
                                     (sample_signal spring_curr)
                                     sample_confirmation)
          [sample_signal spring_curr; sample_signal spring_next]))
  /\ map TradingSignal.timestamp
       (App.merge_signals
          (App.handleAIConfirm_apply [sample_signal spring_curr]
                                     (sample_signal spring_curr)
                                     sample_confirmation)
          [sample_signal spring_curr; sample_signal spring_next])
     = [51; 50]%Z.
Proof.
  split.
  - exact (proj1 (proj2 (merge_signals_spec _ _))).
  - reflexivity.
Defined.

(** X16 on [spring_candles], from a state without signals. *)
Lemma updateMarketData_spec_witness :
  exists st,
    value (App.updateMarketData
             (App.mkMarketState SampleText.rejection SampleText.rejection
                                (Fin 0) [] [] false)
             SampleText.rejection SampleText.rejection
             spring_candles (Fin 95))
    = Some st
    /\ App.candles st = spring_candles
    /\ StronglySorted Z.gt (map TradingSignal.timestamp (App.signals st)).
Proof.
  destruct (updateMarketData_spec
              (App.mkMarketState SampleText.rejection SampleText.rejection
                                 (Fin 0) [] [] false)
              SampleText.rejection SampleText.rejection
              spring_candles (Fin 95))
    as (st & Hst & _ & Hfull).
  destruct Hfull as (_ & _ & _ & Hcs & _ & _ & _ & Hsorted); [discriminate |].
  exists st. split; [exact Hst |]. split; [exact Hcs |].
  apply Hsorted. simpl. repeat split; lia.
Defined.

(** X17 on [late_spring_candles] and a signal at candle 70, whose time is
    50: the context is the 62 candles from candle 10 on. *)
Lemma handleAIConfirm_context_shape_witness :
  App.handleAIConfirm_context late_spring_candles (sample_signal spring_curr)
  = Some (firstn 62 (skipn 10 late_spring_candles))
  /\ exists (n : nat) c,
       findIndex late_spring_candles
                 (TradingSignal.timestamp (sample_signal spring_curr))
       = Z.of_nat n
       /\ (60 <= n < length late_spring_candles)%nat
       /\ nth_error late_spring_candles n = Some c
       /\ time c = TradingSignal.timestamp (sample_signal spring_curr)
       /\ firstn 62 (skipn 10 late_spring_candles)
          = firstn (length (firstn 62 (skipn 10 late_spring_candles)))
                   (skipn (n - 60) late_spring_candles)
       /\ nth_error (firstn 62 (skipn 10 late_spring_candles)) 60 = Some c
       /\ (61 <= length (firstn 62 (skipn 10 late_spring_candles)) <= 62)%nat.
Proof.
  assert (App.handleAIConfirm_context late_spring_candles
                                      (sample_signal spring_curr)
          = Some (firstn 62 (skipn 10 late_spring_candles))) as Hctx
      by (vm_compute; reflexivity).
  split; [exact Hctx |].
  exact (proj2 (handleAIConfirm_context_shape late_spring_candles _ _ Hctx)).
Defined.

(** X18 at candle 70 of [late_spring_candles], where the scan finds the
    spring. *)
Lemma scanned_signal_context_witness :
  exists s,
    In s (signal_at late_spring_candles 70)
    /\ App.handleAIConfirm_context late_spring_candles s
       = Some (firstn 62 (skipn 10 late_spring_candles)).
Proof.
  eexists.
  assert (signal_at late_spring_candles 70
          = [TradingSignal.mk spring_curr INSTITUTIONAL_SPRING 50 None
               false (Fin 95) (Some (Fin (27440000 # 2744000)))]) as Hsig
      by (vm_compute; reflexivity).
  assert (increasing_times late_spring_candles) as Hinc
      by (simpl; repeat split; lia).
  split; [rewrite Hsig; left; reflexivity |].
  refine (proj1 (scanned_signal_context late_spring_candles 70 _ Hinc _)).
  rewrite Hsig. left. reflexivity.
Defined.

(** X19 on the confirmed signal of candle 50 and a scan that finds it
    again: the merged list holds the confirmed signal, with the score of
    the confirmation. *)
Lemma confirmation_survives_merge_witness :
  (exists e, In e [sample_signal spring_curr]
             /\ TradingSignal.timestamp e = 50%Z)
  /\ Forall (fun s =>
               TradingSignal.timestamp s = 50%Z ->
               TradingSignal.isConfirmed s = true
               /\ TradingSignal.score s = Fin 85)
            (App.merge_signals
               (App.handleAIConfirm_apply [sample_signal spring_curr]
                                          (sample_signal spring_curr)
                                          sample_confirmation)
               [sample_signal spring_curr; sample_signal spring_next]).
Proof.
  assert (exists e, In e [sample_signal spring_curr]
                    /\ TradingSignal.timestamp e = 50%Z) as Hheld
      by (exists (sample_signal spring_curr); split; [left |]; reflexivity).
  split; [exact Hheld |].
  destruct (confirmation_survives_merge
              [sample_signal spring_curr] (sample_signal spring_curr)
              sample_confirmation
              [sample_signal spring_curr; sample_signal spring_next] Hheld)
    as [_ Hkept].
  apply Forall_forall. intros s Hs Hts.
  destruct (Hkept s Hs Hts) as (_ & Hc & Hsc). split; assumption.
Defined.
